(** * Allocation and SLA engine of the DCA platform

    A shallow embedding of the two Express servers of the repository:

    - [DcaApi]: [src/dca-api.js], the server with the agent registry
      ([dcaProfiles]), the weighted suitability score, the SLA deadlines and
      the case handlers (ingest, interaction, SLA status, escalate, resolve);
    - [InferenceApi]: [src/unnamed/part_000], the queue based server with
      [prioritizeCase], [allocateCase] and the manual allocation handler.

    Conventions of the embedding.

    - A JavaScript number is a binary64 number. A finite one is the rational
      it denotes ([Q]); the result of an operation is the exact result
      rounded to the nearest binary64 number, ties to even ([r64]). Where NaN
      and the infinities can occur, in the scores of [src/dca-api.js], a
      number is a [JsNum]. The zero has no sign: the source never divides by
      a computed zero and prints no zero by the default conversion.
      Counters that the code only increments or decrements are integers
      ([Z]). The draws and the scores of [src/unnamed/part_000] are kept as
      the rationals they denote, without the rounding: what is proved of them
      are comparisons.
    - A number of a request body is the binary64 number the field is
      converted to when the source computes with it, [NaN] for an absent
      field.
    - A [Date] is its time value, the number of milliseconds since the epoch
      ([Z]); an ISO string produced by [toISOString] and read back by
      [new Date] denotes the same time value.
    - [Math.random()] and the clock are inputs of the operations that read
      them.
    - A JavaScript [Map] and an object used as a table are association lists
      in insertion order, which is the order [forEach] and [Object.entries]
      visit them in.
    - The objects stored in the tables are mutated in place by the source; the
      embedding threads the tables through every operation and writes the
      object back under its key. *)

From Stdlib Require Import ZArith QArith Qround Qabs Qpower Qcanon List String Ascii Bool.
From Stdlib Require Import Lia Lqa.
From Stdlib Require Import DecimalString DecimalN DecimalPos Sorted.
Import ListNotations.

Open Scope string_scope.
Open Scope list_scope.
Open Scope Z_scope.

(** ** JavaScript numbers *)

(** [x > y] on finite numbers. *)
Definition Qgtb (x y : Q) : bool := negb (Qle_bool x y).

(** [Math.max(x, y)] and [Math.min(x, y)] on finite numbers. *)
Definition Math_max (x y : Q) : Q := if Qle_bool x y then y else x.
Definition Math_min (x y : Q) : Q := if Qle_bool x y then x else y.

(** *** Rounding to binary64 *)

Definition pow2 (k : Z) : Q := Qpower 2 k.

(** The binade of a positive rational [a]: the [k] with
    [2^k <= a < 2^(k+1)]. The difference of the bit lengths of the numerator
    and the denominator is [k] or [k + 1]. *)
Definition binade (a : Q) : Z :=
  let k := Z.log2 (Qnum a) - Z.log2 (Zpos (Qden a)) in
  if Qle_bool (pow2 k) a then k else k - 1.

(** The nearest integer, the even one of two. *)
Definition round_half_even (x : Q) : Z :=
  let n := Qfloor x in
  match Qcompare (x - inject_Z n) (1 # 2) with
  | Lt => n
  | Gt => n + 1
  | Eq => if Z.even n then n else n + 1
  end.

(** The binary64 number nearest to [x], the one with the even significand of
    two: a multiple [m * 2^e] with [m] of at most 53 bits, where [e] is 52
    below the binade of [x] and at least -1074 (the subnormal numbers). The
    exponent has no upper limit here; [R64] below adds the overflow. *)
Definition r64 (x : Q) : Q :=
  let x := Qred x in
  if Qeq_bool x 0 then 0%Q
  else
    let a := Qabs x in
    let e := Z.max (binade a - 52) (-1074) in
    let m := round_half_even (a / pow2 e) in
    let r := (inject_Z m * pow2 e)%Q in
    Qred (if Qgtb 0 x then Qopp r else r).

(** A number that may be [NaN] or infinite. *)
Inductive JsNum : Type :=
| NaN
| Infinity (neg : bool)
| Num (q : Q).

Coercion Num : Q >-> JsNum.

(** The largest binary64 number, [(2^53 - 1) * 2^971]. *)
Definition max64 : Q := inject_Z ((2 ^ 53 - 1) * 2 ^ 971).

(** The binary64 result of an operation whose exact result is [x]. *)
Definition R64 (x : Q) : JsNum :=
  let r := r64 x in
  if Qgtb (Qabs r) max64 then Infinity (Qgtb 0 x) else Num r.

(** A numeric literal of the source, written as a decimal. *)
Definition lit (q : Q) : JsNum := R64 q.

Module Js.

(** [x + y] *)
Definition add (x y : JsNum) : JsNum :=
  match x, y with
  | NaN, _ | _, NaN => NaN
  | Infinity a, Infinity b => if Bool.eqb a b then Infinity a else NaN
  | Infinity a, Num _ | Num _, Infinity a => Infinity a
  | Num p, Num q => R64 (p + q)
  end.

(** [-x] *)
Definition opp (x : JsNum) : JsNum :=
  match x with
  | NaN => NaN
  | Infinity a => Infinity (negb a)
  | Num q => Num (- q)
  end.

(** [x - y] *)
Definition sub (x y : JsNum) : JsNum := add x (opp y).

(** [x * y] *)
Definition mul (x y : JsNum) : JsNum :=
  match x, y with
  | NaN, _ | _, NaN => NaN
  | Infinity a, Infinity b => Infinity (xorb a b)
  | Infinity a, Num q | Num q, Infinity a =>
      if Qeq_bool q 0 then NaN else Infinity (xorb a (Qgtb 0 q))
  | Num p, Num q => R64 (p * q)
  end.

(** [x / y] *)
Definition div (x y : JsNum) : JsNum :=
  match x, y with
  | NaN, _ | _, NaN => NaN
  | Infinity _, Infinity _ => NaN
  | Infinity a, Num q => Infinity (xorb a (Qgtb 0 q))
  | Num _, Infinity _ => Num 0
  | Num p, Num q =>
      if Qeq_bool q 0
      then if Qeq_bool p 0 then NaN else Infinity (Qgtb 0 p)
      else R64 (p / q)
  end.

(** [x > y]: false when one of them is [NaN]. *)
Definition gt (x y : JsNum) : bool :=
  match x, y with
  | NaN, _ | _, NaN => false
  | Infinity a, Infinity b => negb a && b
  | Infinity a, Num _ => negb a
  | Num _, Infinity b => b
  | Num p, Num q => Qgtb p q
  end.

(** [Math.max(x, y)] and [Math.min(x, y)]: [NaN] when one of them is. *)
Definition max (x y : JsNum) : JsNum :=
  match x, y with
  | NaN, _ | _, NaN => NaN
  | _, _ => if gt y x then y else x
  end.

Definition min (x y : JsNum) : JsNum :=
  match x, y with
  | NaN, _ | _, NaN => NaN
  | _, _ => if gt x y then y else x
  end.

(** The two are the same number, or both [NaN]. *)
Definition same (x y : JsNum) : Prop :=
  match x, y with
  | NaN, NaN => True
  | Infinity a, Infinity b => a = b
  | Num p, Num q => (p == q)%Q
  | _, _ => False
  end.

End Js.

Arguments r64 : simpl never.
Arguments R64 : simpl never.
Arguments lit : simpl never.
Arguments Js.add : simpl never.
Arguments Js.sub : simpl never.
Arguments Js.mul : simpl never.
Arguments Js.div : simpl never.

Declare Scope js_scope.
Delimit Scope js_scope with js.
Bind Scope js_scope with JsNum.
Infix "+" := Js.add : js_scope.
Infix "-" := Js.sub : js_scope.
Infix "*" := Js.mul : js_scope.
Infix "/" := Js.div : js_scope.

(** A finite number of magnitude at most [bound]. *)
Definition within (bound : Q) (x : JsNum) : Prop :=
  match x with
  | Num q => (Qabs q <= bound)%Q
  | _ => False
  end.

(** The string [x.toFixed(d)] of a finite number below 10^21, kept as the
    decimal numeral it spells: a sign, the digits as one integer and the
    number of digits after the point. [toFixed] takes the integer [n] for
    which [n / 10^d] is closest to [|x|], the larger one of two. *)
Record Fixed : Type := mkFixed {
  f_neg : bool;
  f_units : Z;
  f_digits : nat
}.

Definition pow10 (d : nat) : Z := 10 ^ Z.of_nat d.

Definition toFixed (x : Q) (d : nat) : Fixed :=
  {| f_neg := Qgtb 0 x;
     f_units := Qfloor (Qabs x * inject_Z (pow10 d) + (1 # 2));
     f_digits := d |}.

(** The rational such a string spells. *)
Definition Number (f : Fixed) : Q :=
  let v := Qmake (f_units f) (Z.to_pos (pow10 (f_digits f))) in
  if f_neg f then Qopp v else v.

Definition digits_of (n : Z) : string :=
  NilZero.string_of_uint (N.to_uint (Z.to_N n)).

Fixpoint zeros (k : nat) : string :=
  match k with
  | O => ""
  | S k' => String "0" (zeros k')
  end.

Definition pad_left (d : nat) (s : string) : string :=
  (zeros (d - String.length s) ++ s)%string.

(** The characters of the string. *)
Definition Fixed_string (f : Fixed) : string :=
  let p := pow10 (f_digits f) in
  ((if f_neg f then "-" else "") ++
   digits_of (f_units f / p) ++
   match f_digits f with
   | O => ""
   | S _ => "." ++ pad_left (f_digits f) (digits_of (f_units f mod p))
   end)%string.

(** The string [x.toFixed(d)] of any number: ["NaN"], ["Infinity"] or
    ["-Infinity"], the decimal numeral, or, for a number of 10^21 and more,
    what the default conversion of the number gives. *)
Inductive Printed : Type :=
| NaN_string
| Infinity_string (neg : bool)
| Digits (f : Fixed)
| Default (q : Q).

Definition Printed_of (x : JsNum) (d : nat) : Printed :=
  match x with
  | NaN => NaN_string
  | Infinity a => Infinity_string a
  | Num q =>
      if Qle_bool (inject_Z (10 ^ 21)) (Qabs q) then Default q
      else Digits (toFixed q d)
  end.

(** [Number(s)] of such a string: the binary64 number nearest to what the
    string spells. *)
Definition Number_of (p : Printed) : JsNum :=
  match p with
  | NaN_string => NaN
  | Infinity_string a => Infinity a
  | Digits f => R64 (Number f)
  | Default q => Num q
  end.

(** A value of a request body, as far as the handlers tell values apart: a
    number is the binary64 number, an array or an object is given by the
    string it is converted to. *)
Inductive Json : Type :=
| JUndefined
| JNull
| JBool (b : bool)
| JNumber (x : JsNum)
| JString (s : string)
| JObject (shown : string).

(** The value is truthy. *)
Definition truthy (v : Json) : bool :=
  match v with
  | JUndefined | JNull => false
  | JBool b => b
  | JNumber NaN => false
  | JNumber (Infinity _) => true
  | JNumber (Num q) => negb (Qeq_bool q 0)
  | JString s => negb (String.eqb s "")
  | JObject _ => true
  end.

(** A fragment of a string that the source builds: a string, or a value that
    is converted to a string by the default conversion. *)
Inductive Frag : Type :=
| Str (s : string)
| NumFrag (v : Json).

(** The fragments of [x.toFixed(d)] inside a template literal. *)
Definition Printed_frag (p : Printed) : Frag :=
  match p with
  | NaN_string => Str "NaN"
  | Infinity_string a => Str (if a then "-Infinity" else "Infinity")
  | Digits f => Str (Fixed_string f)
  | Default q => NumFrag (JNumber (Num q))
  end.

(** ** Tables *)

Section Table.
Context {V : Type}.

(** [m.get(k)] *)
Fixpoint map_get (k : string) (m : list (string * V)) : option V :=
  match m with
  | [] => None
  | (k', v) :: m' => if String.eqb k k' then Some v else map_get k m'
  end.

(** [m.set(k, v)]: an existing key keeps its place, a new one goes last. *)
Fixpoint map_set (k : string) (v : V) (m : list (string * V)) : list (string * V) :=
  match m with
  | [] => [(k, v)]
  | (k', v') :: m' =>
      if String.eqb k k' then (k', v) :: m' else (k', v') :: map_set k v m'
  end.

(** A mutation [f] of the object stored under [k]; nothing for an absent key. *)
Fixpoint map_update (k : string) (f : V -> V) (m : list (string * V)) : list (string * V) :=
  match m with
  | [] => []
  | (k', v) :: m' =>
      if String.eqb k k' then (k', f v) :: m' else (k', v) :: map_update k f m'
  end.
End Table.

(** ** Enumerations shared by the two servers *)

Inductive Priority : Type := CRITICAL | HIGH | MEDIUM | LOW.

Inductive Status : Type :=
| RECEIVED | PRIORITIZED | ALLOCATED | IN_PROGRESS | ESCALATED | RESOLVED.

Definition Priority_eqb (a b : Priority) : bool :=
  match a, b with
  | CRITICAL, CRITICAL | HIGH, HIGH | MEDIUM, MEDIUM | LOW, LOW => true
  | _, _ => false
  end.

Definition Status_eqb (a b : Status) : bool :=
  match a, b with
  | RECEIVED, RECEIVED | PRIORITIZED, PRIORITIZED | ALLOCATED, ALLOCATED
  | IN_PROGRESS, IN_PROGRESS | ESCALATED, ESCALATED | RESOLVED, RESOLVED => true
  | _, _ => false
  end.

(** [tags.includes(tag)] on an array of strings. *)
Definition includes (tags : list string) (tag : string) : bool :=
  existsb (String.eqb tag) tags.

(** * [src/dca-api.js] *)

Module DcaApi.

Open Scope Q_scope.

(** ** Records

    The contact details of a case ([trackingNumber], [phone], [email],
    [notes]) are left out: the source stores them and never looks at them. *)

Record AuditEntry : Type := mkAudit {
  action : string;
  user : string;
  timestamp : Z;
  details : list Frag
}.

Record Interaction : Type := mkInteraction {
  i_type : string;
  i_details : string;
  i_result : string;
  i_timestamp : Z;
  i_dcaId : option string
}.

Record Document : Type := mkDocument {
  docId : string;
  fileName : string;
  doc_type : string;
  uploadedBy : string;
  uploadedAt : Z;
  contentPreview : string
}.

Record Dispute : Type := mkDispute {
  reason : string;
  createdAt_dispute : Z;
  status_dispute : string
}.

Record SlaDeadlines : Type := mkDeadlines {
  firstAction : Z;
  followUp : Z;
  resolution : Z
}.

(** An element of [allocationCandidates]. *)
Record Candidate : Type := mkCandidate {
  cand_dcaId : string;
  cand_dcaScore : JsNum;
  cand_priorityFactor : JsNum;
  cand_finalScore : JsNum
}.

(** [allocationChosen] *)
Record Chosen : Type := mkChosen {
  chosen_dcaId : string;
  chosen_score : JsNum
}.

Record Case : Type := mkCase {
  caseId : string;
  debtor : string;
  debtAmount : JsNum;
  debtAge : JsNum;
  geoRegion : string;
  status : Status;
  riskLevel : nat;
  recoveryProbability : JsNum;
  priority : Priority;
  allocatedDCA : option string;
  allocationScore : option Printed;
  createdAt : Z;
  slaDeadlines : option SlaDeadlines;
  slaBreached : bool;
  interactions : list Interaction;
  documents : list Document;
  disputes : list Dispute;
  auditTrail : list AuditEntry;
  allocationCandidates : option (list Candidate);
  allocationChosen : option Chosen;
  resolutionType : option string;
  recoveredAmount : option Json;
  resolvedAt : option Z
}.

(** The value of [dca.recoveredAmount]: a number, or the string that [+=]
    has made of it, as the fragments it was joined from. *)
Inductive Amount : Type :=
| Sum (x : JsNum)
| Text (l : list Frag).

Coercion Sum : JsNum >-> Amount.

(** The rates of an agent are kept as the decimals the source writes; the
    arithmetic reads them as the binary64 numbers nearest to them. *)
Record DCA : Type := mkDCA {
  dcaId : string;
  name : string;
  capacity : Z;
  currentLoad : Z;
  historicalRecoveryRate : Q;
  specialization : list string;
  dca_geoRegion : string;
  complianceScore : Q;
  cases : list string;
  slaBreaches : Z;
  dca_recoveredAmount : Amount;
  averageResolutionDays : Z
}.

(** The roles ['ADMIN'], ['DCA'] and ['FEDEX'] of a user. *)
Inductive Role : Type := ADMIN | ROLE_DCA | FEDEX.

(** A user of the [users] table, without the password and the company. *)

Record User : Type := mkUser {
  user_role : Role;
  user_name : string;
  user_dcaId : option string
}.

(** What [verifySession] returns for a known session id: the session the
    login handler stored, made from a user of [users]. The handlers below take
    the result of [verifySession] as an argument, [None] for an unknown
    session id. *)
Record Session : Type := mkSession {
  session_email : string;
  session_role : Role
}.

(** The mutable tables of the server. *)
Record State : Type := mkState {
  caseRegistry : list (string * Case);
  dcaProfiles : list (string * DCA);
  caseIdCounter : Z
}.

(** ** The fixed tables *)

Definition users : list (string * User) :=
  [ ("admin@fedex.com", mkUser ADMIN "Admin User" None);
    ("dca1@company.com", mkUser ROLE_DCA "DCA Agent 1" (Some "DCA-001"));
    ("dca2@company.com", mkUser ROLE_DCA "DCA Agent 2" (Some "DCA-002"));
    ("fedex@company.com", mkUser FEDEX "FedEx Case Manager" None) ].

Definition dcaProfiles0 : list (string * DCA) :=
  [ ("DCA-001", mkDCA "DCA-001" "John Smith" 5 0 0.82
                  ["High-Value"; "Corporate"] "North-East" 0.95 [] 0 450000 22);
    ("DCA-002", mkDCA "DCA-002" "Sarah Johnson" 5 0 0.78
                  ["Small-Medium"; "Individuals"] "South-West" 0.88 [] 1 320000 28);
    ("DCA-003", mkDCA "DCA-003" "Mike Davis" 5 0 0.75
                  ["Disputed"; "Complex"] "Central" 0.92 [] 0 280000 35);
    ("DCA-004", mkDCA "DCA-004" "Emma Wilson" 5 0 0.80
                  ["Collections"; "Escalations"] "West-Coast" 0.90 [] 0 410000 24) ].

(** The tables when the server starts. *)
Definition initial : State :=
  {| caseRegistry := []; dcaProfiles := dcaProfiles0; caseIdCounter := 1000 |}.

Record Sla : Type := mkSla {
  firstActionHours : Z;
  followUpDays : Z;
  resolutionDays : Z
}.

Definition slaConfig (key : Priority) : Sla :=
  match key with
  | CRITICAL => mkSla 24 2 7
  | HIGH => mkSla 48 3 15
  | MEDIUM => mkSla 72 4 20
  | LOW => mkSla 96 7 30
  end.

(** ** Risk classifier *)

Definition assessRisk (amount age : JsNum) : nat :=
  if Js.gt amount 100000 || Js.gt age 180 then 0%nat
  else if Js.gt amount 50000 || Js.gt age 120 then 1%nat
  else if Js.gt amount 20000 || Js.gt age 60 then 2%nat
  else 3%nat.

(** [['CRITICAL', 'HIGH', 'MEDIUM', 'LOW'][i]]; the index is a result of
    [assessRisk], hence below 4, and the default is never taken. *)
Definition riskKeys : list Priority := [CRITICAL; HIGH; MEDIUM; LOW].
Definition riskKey (i : nat) : Priority := nth i riskKeys LOW.

(** [noise] is the value of [Math.random()]. *)
Definition calculateRecoveryProbability (amount age : JsNum) (noise : Q) : JsNum :=
  let ageFactor := Js.min (age / 360) (lit 0.5) in
  let amountFactor := Js.min (amount / 500000) (lit 0.4) in
  let base := ((1 - ageFactor) * (1 - amountFactor))%js in
  let noise := (noise * lit 0.15 - lit 0.075)%js in
  Js.max (lit 0.2) (Js.min 1 (base + noise)).

(** ** Allocation *)

Definition specializationMatch (c : Case) (d : DCA) : JsNum :=
  if Priority_eqb (priority c) CRITICAL && includes (specialization d) "High-Value"
  then 1 else lit 0.7.

Definition geoMatch (c : Case) (d : DCA) : JsNum :=
  if String.eqb (dca_geoRegion d) (geoRegion c) then 1 else lit 0.8.

Definition loadPenalty (d : DCA) : JsNum :=
  (inject_Z (currentLoad d) / inject_Z (capacity d))%js.

Definition complianceRisk (d : DCA) : JsNum := (1 - lit (complianceScore d))%js.

Definition dcaScore (c : Case) (d : DCA) : JsNum :=
  ((lit 0.3 * lit (historicalRecoveryRate d)) + (lit 0.25 * specializationMatch c d)
   + (lit 0.2 * geoMatch c d) - (lit 0.15 * loadPenalty d)
   - (lit 0.1 * complianceRisk d))%js.

Definition priorityFactor (p : Priority) : JsNum :=
  match p with
  | CRITICAL => lit 1.5
  | HIGH => lit 1.3
  | MEDIUM => lit 1.0
  | LOW => lit 0.8
  end.

Definition finalScore (c : Case) (d : DCA) : JsNum :=
  (recoveryProbability c * dcaScore c d * priorityFactor (priority c))%js.

(** The three variables of the loop over [dcaProfiles]. [bestDCA] is a
    reference to an object of the table: the entry it was found in. *)
Record Scan : Type := mkScan {
  bestDCA : option (string * DCA);
  bestScore : JsNum;
  candidateDetails : list Candidate
}.

Definition candidate (c : Case) (d : DCA) : Candidate :=
  {| cand_dcaId := dcaId d;
     cand_dcaScore := Number_of (Printed_of (dcaScore c d) 4);
     cand_priorityFactor := priorityFactor (priority c);
     cand_finalScore := Number_of (Printed_of (finalScore c d) 6) |}.

(** The body of the [forEach] callback. *)
Definition scan_step (c : Case) (acc : Scan) (e : string * DCA) : Scan :=
  let dca := snd e in
  if (currentLoad dca >=? capacity dca)%Z then acc
  else
    let details := candidateDetails acc ++ [candidate c dca] in
    if Js.gt (finalScore c dca) (bestScore acc)
    then mkScan (Some e) (finalScore c dca) details
    else mkScan (bestDCA acc) (bestScore acc) details.

(** [bestDCA = null; bestScore = -Infinity; candidateDetails = []] *)
Definition scan_start : Scan := mkScan None (Infinity true) [].

Definition scan (c : Case) (dcas : list (string * DCA)) : Scan :=
  fold_left (scan_step c) dcas scan_start.

(** The deadlines of a case allocated at [now]. *)
Definition deadlines (sla : Sla) (now : Z) : SlaDeadlines :=
  {| firstAction := (now + firstActionHours sla * 3600000)%Z;
     followUp := (now + followUpDays sla * 24 * 3600000)%Z;
     resolution := (now + resolutionDays sla * 24 * 3600000)%Z |}.

(** The writes to [caseData] when a best agent was found; [score] is
    [bestScore]. *)
Definition allocated_case (best : DCA) (score : JsNum) (cands : list Candidate)
    (now : Z) (c : Case) : Case :=
  let sla := slaConfig (riskKey (assessRisk (debtAmount c) (debtAge c))) in
  {| caseId := caseId c;
     debtor := debtor c;
     debtAmount := debtAmount c;
     debtAge := debtAge c;
     geoRegion := geoRegion c;
     status := ALLOCATED;
     riskLevel := riskLevel c;
     recoveryProbability := recoveryProbability c;
     priority := priority c;
     allocatedDCA := Some (dcaId best);
     allocationScore := Some (Printed_of score 4);
     createdAt := createdAt c;
     slaDeadlines := Some (deadlines sla now);
     slaBreached := slaBreached c;
     interactions := interactions c;
     documents := documents c;
     disputes := disputes c;
     auditTrail := auditTrail c ++
       [ mkAudit "CASE_ALLOCATED" "SYSTEM" now
           [Str "Allocated to "; Str (dcaId best); Str " with score ";
            Printed_frag (Printed_of score 4)] ];
     allocationCandidates := Some cands;
     allocationChosen :=
       Some (mkChosen (dcaId best) (Number_of (Printed_of score 6)));
     resolutionType := resolutionType c;
     recoveredAmount := recoveredAmount c;
     resolvedAt := resolvedAt c |}.

(** [bestDCA.currentLoad++; bestDCA.cases.push(caseId)] *)
Definition reserve (id : string) (d : DCA) : DCA :=
  {| dcaId := dcaId d;
     name := name d;
     capacity := capacity d;
     currentLoad := (currentLoad d + 1)%Z;
     historicalRecoveryRate := historicalRecoveryRate d;
     specialization := specialization d;
     dca_geoRegion := dca_geoRegion d;
     complianceScore := complianceScore d;
     cases := cases d ++ [id];
     slaBreaches := slaBreaches d;
     dca_recoveredAmount := dca_recoveredAmount d;
     averageResolutionDays := averageResolutionDays d |}.

(** [allocateCaseIntelligently(caseId)], run at time [now]. The result is
    [None] when the case is not in the registry, where the source throws on
    reading a field of [undefined]. *)
Definition allocateCaseIntelligently (id : string) (now : Z) (st : State)
    : option State :=
  match map_get id (caseRegistry st) with
  | None => None
  | Some caseData =>
      let r := scan caseData (dcaProfiles st) in
      match bestDCA r with
      | Some (key, best) =>
          Some {| caseRegistry :=
                    map_update id
                      (allocated_case best (bestScore r) (candidateDetails r) now)
                      (caseRegistry st);
                  dcaProfiles := map_update key (reserve id) (dcaProfiles st);
                  caseIdCounter := caseIdCounter st |}
      | None => Some st
      end
  end.

(** ** Handlers

    A handler takes what [verifySession] returned, the request, the clock and
    the tables, and gives the response and the tables after it. *)

Inductive Response (A : Type) : Type :=
| Forbidden                (* 403 *)
| NotFound                 (* 404 *)
| ServerError              (* 500: an exception left the handler *)
| Created (body : A)       (* 201 *)
| Okay (body : A).         (* 200 *)

Arguments Forbidden {A}.
Arguments NotFound {A}.
Arguments ServerError {A}.
Arguments Created {A} body.
Arguments Okay {A} body.

(** The fields of the body of [POST /api/cases/ingest] that are kept. The
    handler checks none of them: [debtAmount] and [debtAge] are the numbers
    the fields are converted to by [>] and [/], [NaN] for a field that is
    absent or is no number. *)
Record IngestBody : Type := mkIngestBody {
  body_debtor : string;
  body_debtAmount : JsNum;
  body_debtAge : JsNum;
  body_geoRegion : option string
}.

(** [geoRegion || 'Unknown'] *)
Definition geoRegion_or_unknown (g : option string) : string :=
  match g with
  | None => "Unknown"
  | Some s => if String.eqb s "" then "Unknown" else s
  end.

Definition new_caseId (counter : Z) : string :=
  ("FDX-" ++ digits_of counter)%string.

(** The object literal [newCase]; [noise] is the draw of [Math.random()]
    inside [calculateRecoveryProbability]. *)
Definition newCase (id : string) (email : string) (b : IngestBody)
    (noise : Q) (now : Z) : Case :=
  let riskLevel := assessRisk (body_debtAmount b) (body_debtAge b) in
  {| caseId := id;
     debtor := body_debtor b;
     debtAmount := body_debtAmount b;
     debtAge := body_debtAge b;
     geoRegion := geoRegion_or_unknown (body_geoRegion b);
     status := RECEIVED;
     riskLevel := riskLevel;
     recoveryProbability :=
       calculateRecoveryProbability (body_debtAmount b) (body_debtAge b) noise;
     priority := riskKey riskLevel;
     allocatedDCA := None;
     allocationScore := None;
     createdAt := now;
     slaDeadlines := None;
     slaBreached := false;
     interactions := [];
     documents := [];
     disputes := [];
     auditTrail := [ mkAudit "CASE_CREATED" email now [Str "Case received from FedEx"] ];
     allocationCandidates := None;
     allocationChosen := None;
     resolutionType := None;
     recoveredAmount := None;
     resolvedAt := None |}.

(** The tables after [caseRegistry.set(caseId, newCase)], before the call of
    [allocateCaseIntelligently]. *)
Definition ingest_registered (email : string) (b : IngestBody) (noise : Q)
    (now : Z) (st : State) : State :=
  let counter := (caseIdCounter st + 1)%Z in
  let id := new_caseId counter in
  {| caseRegistry := map_set id (newCase id email b noise now) (caseRegistry st);
     dcaProfiles := dcaProfiles st;
     caseIdCounter := counter |}.

(** [POST /api/cases/ingest]; the body of the response is the case as it is
    when the response is sent. *)
Definition ingest (session : option Session) (b : IngestBody) (noise : Q)
    (now : Z) (st : State) : Response (string * option Case) * State :=
  match session with
  | None => (Forbidden, st)
  | Some s =>
      match session_role s with
      | FEDEX =>
          let st1 := ingest_registered (session_email s) b noise now st in
          let id := new_caseId (caseIdCounter st1) in
          match allocateCaseIntelligently id now st1 with
          | None => (ServerError, st1)
          | Some st2 => (Created (id, map_get id (caseRegistry st2)), st2)
          end
      | _ => (Forbidden, st)
      end
  end.

(** [users.get(session.email).dcaId]; a session is made by the login handler
    for an email of [users] only. *)
Definition session_dcaId (s : Session) : option string :=
  match map_get (session_email s) users with
  | Some u => user_dcaId u
  | None => None
  end.

(** [isWithinPermittedHours()], [hour] being [new Date().getHours()]. *)
Definition isWithinPermittedHours (hour : Z) : bool :=
  (9 <=? hour)%Z && (hour <=? 18)%Z.

Record InteractionBody : Type := mkInteractionBody {
  body_type : string;
  body_details : string;
  body_result : string
}.

(** The writes of the interaction handler to [caseData]. *)
Definition interaction_case (s : Session) (b : InteractionBody) (now hour : Z)
    (c : Case) : Case :=
  let violation :=
    if String.eqb (body_type b) "CALL" && negb (isWithinPermittedHours hour)
    then [ mkAudit "SOP_VIOLATION" (session_email s) now
             [Str "Contact outside permitted hours"] ]
    else [] in
  let dispute :=
    if String.eqb (body_result b) "DISPUTE"
    then [ mkDispute (body_details b) now "PENDING" ]
    else [] in
  {| caseId := caseId c;
     debtor := debtor c;
     debtAmount := debtAmount c;
     debtAge := debtAge c;
     geoRegion := geoRegion c;
     status := IN_PROGRESS;
     riskLevel := riskLevel c;
     recoveryProbability := recoveryProbability c;
     priority := priority c;
     allocatedDCA := allocatedDCA c;
     allocationScore := allocationScore c;
     createdAt := createdAt c;
     slaDeadlines := slaDeadlines c;
     slaBreached := slaBreached c;
     interactions := interactions c ++
       [ mkInteraction (body_type b) (body_details b) (body_result b) now
           (session_dcaId s) ];
     documents := documents c;
     disputes := disputes c ++ dispute;
     auditTrail := auditTrail c ++ violation ++
       [ mkAudit "INTERACTION_LOGGED" (session_email s) now
           [Str (body_type b); Str " interaction: "; Str (body_result b)] ];
     allocationCandidates := allocationCandidates c;
     allocationChosen := allocationChosen c;
     resolutionType := resolutionType c;
     recoveredAmount := recoveredAmount c;
     resolvedAt := resolvedAt c |}.

(** A handler that looks the case up and mutates it. *)
Definition on_case (session : option Session) (id : string) (st : State)
    (f : Session -> Case -> State -> State) : Response Case * State :=
  match session with
  | None => (Forbidden, st)
  | Some s =>
      match map_get id (caseRegistry st) with
      | None => (NotFound, st)
      | Some c =>
          let st' := f s c st in
          match map_get id (caseRegistry st') with
          | Some c' => (Okay c', st')
          | None => (ServerError, st')
          end
      end
  end.

(** [POST /api/cases/:caseId/interaction] *)
Definition interaction (session : option Session) (id : string)
    (b : InteractionBody) (now hour : Z) (st : State) : Response Case * State :=
  on_case session id st (fun s _ st =>
    {| caseRegistry := map_update id (interaction_case s b now hour) (caseRegistry st);
       dcaProfiles := dcaProfiles st;
       caseIdCounter := caseIdCounter st |}).

(** [content] is [None] when the field is absent or is not a string. *)
Record DocumentBody : Type := mkDocumentBody {
  body_fileName : string;
  body_docType : string;
  body_content : option string
}.

(** The writes of the document handler to [caseData] for the string
    [content]; [newId] is [crypto.randomBytes(8).toString('hex')]. *)
Definition document_case (s : Session) (b : DocumentBody) (content : string)
    (newId : string) (now : Z) (c : Case) : Case :=
  {| caseId := caseId c;
     debtor := debtor c;
     debtAmount := debtAmount c;
     debtAge := debtAge c;
     geoRegion := geoRegion c;
     status := status c;
     riskLevel := riskLevel c;
     recoveryProbability := recoveryProbability c;
     priority := priority c;
     allocatedDCA := allocatedDCA c;
     allocationScore := allocationScore c;
     createdAt := createdAt c;
     slaDeadlines := slaDeadlines c;
     slaBreached := slaBreached c;
     interactions := interactions c;
     documents := documents c ++
       [ mkDocument newId (body_fileName b) (body_docType b) (session_email s) now
           (substring 0 200 content) ];
     disputes := disputes c;
     auditTrail := auditTrail c ++
       [ mkAudit "DOCUMENT_UPLOADED" (session_email s) now
           [Str "Document: "; Str (body_fileName b)] ];
     allocationCandidates := allocationCandidates c;
     allocationChosen := allocationChosen c;
     resolutionType := resolutionType c;
     recoveredAmount := recoveredAmount c;
     resolvedAt := resolvedAt c |}.

(** [POST /api/cases/:caseId/document]. Without a string as [content],
    [content.substring] throws while the document is built: nothing is
    stored and the answer is 500. *)
Definition document (session : option Session) (id : string) (b : DocumentBody)
    (newId : string) (now : Z) (st : State) : Response Case * State :=
  match body_content b with
  | Some content =>
      on_case session id st (fun s _ st =>
        {| caseRegistry :=
             map_update id (document_case s b content newId now) (caseRegistry st);
           dcaProfiles := dcaProfiles st;
           caseIdCounter := caseIdCounter st |})
  | None =>
      match session with
      | None => (Forbidden, st)
      | Some _ =>
          match map_get id (caseRegistry st) with
          | None => (NotFound, st)
          | Some _ => (ServerError, st)
          end
      end
  end.

Record EscalateBody : Type := mkEscalateBody {
  body_reason : string;
  body_targetRole : string
}.

Definition escalate_case (s : Session) (b : EscalateBody) (now : Z) (c : Case) : Case :=
  {| caseId := caseId c;
     debtor := debtor c;
     debtAmount := debtAmount c;
     debtAge := debtAge c;
     geoRegion := geoRegion c;
     status := ESCALATED;
     riskLevel := riskLevel c;
     recoveryProbability := recoveryProbability c;
     priority := priority c;
     allocatedDCA := allocatedDCA c;
     allocationScore := allocationScore c;
     createdAt := createdAt c;
     slaDeadlines := slaDeadlines c;
     slaBreached := slaBreached c;
     interactions := interactions c;
     documents := documents c;
     disputes := disputes c;
     auditTrail := auditTrail c ++
       [ mkAudit "ESCALATION" (session_email s) now
           [Str "Escalated to "; Str (body_targetRole b); Str ": "; Str (body_reason b)] ];
     allocationCandidates := allocationCandidates c;
     allocationChosen := allocationChosen c;
     resolutionType := resolutionType c;
     recoveredAmount := recoveredAmount c;
     resolvedAt := resolvedAt c |}.

(** [POST /api/cases/:caseId/escalate] *)
Definition escalate (session : option Session) (id : string) (b : EscalateBody)
    (now : Z) (st : State) : Response Case * State :=
  on_case session id st (fun s _ st =>
    {| caseRegistry := map_update id (escalate_case s b now) (caseRegistry st);
       dcaProfiles := dcaProfiles st;
       caseIdCounter := caseIdCounter st |}).

Record ResolveBody : Type := mkResolveBody {
  body_resolutionType : string;
  body_recoveredAmount : Json;
  body_notes : string
}.

(** [recoveredAmount || 0] *)
Definition amount_or_zero (a : Json) : Json :=
  if truthy a then a else JNumber 0.

(** [if (recoveredAmount)] *)
Definition truthy_amount (a : Json) : bool := truthy a.

(** [total += v]: the sum of two numbers; a string as soon as one of the two
    is a string, an array or an object. *)
Definition plus_assign (total : Amount) (v : Json) : Amount :=
  match total, v with
  | Sum x, JNumber y => Sum (x + y)
  | Sum x, JBool b => Sum (x + (if b then 1 else 0))
  | Sum x, JNull => Sum (x + 0)
  | Sum x, JUndefined => Sum NaN
  | Sum x, JString s | Sum x, JObject s => Text [NumFrag (JNumber x); Str s]
  | Text l, JString s | Text l, JObject s => Text (l ++ [Str s])
  | Text l, _ => Text (l ++ [NumFrag v])
  end.

Definition resolve_case (s : Session) (b : ResolveBody) (now : Z) (c : Case) : Case :=
  {| caseId := caseId c;
     debtor := debtor c;
     debtAmount := debtAmount c;
     debtAge := debtAge c;
     geoRegion := geoRegion c;
     status := RESOLVED;
     riskLevel := riskLevel c;
     recoveryProbability := recoveryProbability c;
     priority := priority c;
     allocatedDCA := allocatedDCA c;
     allocationScore := allocationScore c;
     createdAt := createdAt c;
     slaDeadlines := slaDeadlines c;
     slaBreached := slaBreached c;
     interactions := interactions c;
     documents := documents c;
     disputes := disputes c;
     auditTrail := auditTrail c ++
       [ mkAudit "CASE_RESOLVED" (session_email s) now
           [Str (body_resolutionType b); Str ": $"; NumFrag (body_recoveredAmount b);
            Str " recovered. "; Str (body_notes b)] ];
     allocationCandidates := allocationCandidates c;
     allocationChosen := allocationChosen c;
     resolutionType := Some (body_resolutionType b);
     recoveredAmount := Some (amount_or_zero (body_recoveredAmount b));
     resolvedAt := Some now |}.

(** [dca.recoveredAmount += recoveredAmount] *)
Definition add_recovered (a : Json) (d : DCA) : DCA :=
  {| dcaId := dcaId d;
     name := name d;
     capacity := capacity d;
     currentLoad := currentLoad d;
     historicalRecoveryRate := historicalRecoveryRate d;
     specialization := specialization d;
     dca_geoRegion := dca_geoRegion d;
     complianceScore := complianceScore d;
     cases := cases d;
     slaBreaches := slaBreaches d;
     dca_recoveredAmount := plus_assign (dca_recoveredAmount d) a;
     averageResolutionDays := averageResolutionDays d |}.

(** [POST /api/cases/:caseId/resolve] *)
Definition resolve (session : option Session) (id : string) (b : ResolveBody)
    (now : Z) (st : State) : Response Case * State :=
  on_case session id st (fun s c st =>
    {| caseRegistry := map_update id (resolve_case s b now) (caseRegistry st);
       dcaProfiles :=
         match allocatedDCA c with
         | Some agent =>
             if truthy_amount (body_recoveredAmount b)
             then map_update agent (add_recovered (body_recoveredAmount b))
                    (dcaProfiles st)
             else dcaProfiles st
         | None => dcaProfiles st
         end;
       caseIdCounter := caseIdCounter st |}).

(** ** SLA status *)

(** An element of the array the SLA status query answers with. *)
Record SlaEntry : Type := mkSlaEntry {
  entry_caseId : string;
  entry_debtor : string;
  entry_priority : Priority;
  entry_allocatedDCA : option string;
  entry_slaDeadlines : SlaDeadlines;
  breached : bool;
  hoursRemaining : Fixed
}.

(** [caseData.slaBreached = true] *)
Definition mark_breached (c : Case) : Case :=
  {| caseId := caseId c;
     debtor := debtor c;
     debtAmount := debtAmount c;
     debtAge := debtAge c;
     geoRegion := geoRegion c;
     status := status c;
     riskLevel := riskLevel c;
     recoveryProbability := recoveryProbability c;
     priority := priority c;
     allocatedDCA := allocatedDCA c;
     allocationScore := allocationScore c;
     createdAt := createdAt c;
     slaDeadlines := slaDeadlines c;
     slaBreached := true;
     interactions := interactions c;
     documents := documents c;
     disputes := disputes c;
     auditTrail := auditTrail c;
     allocationCandidates := allocationCandidates c;
     allocationChosen := allocationChosen c;
     resolutionType := resolutionType c;
     recoveredAmount := recoveredAmount c;
     resolvedAt := resolvedAt c |}.

(** [dca.slaBreaches++] *)
Definition penalize (d : DCA) : DCA :=
  {| dcaId := dcaId d;
     name := name d;
     capacity := capacity d;
     currentLoad := currentLoad d;
     historicalRecoveryRate := historicalRecoveryRate d;
     specialization := specialization d;
     dca_geoRegion := dca_geoRegion d;
     complianceScore := complianceScore d;
     cases := cases d;
     slaBreaches := (slaBreaches d + 1)%Z;
     dca_recoveredAmount := dca_recoveredAmount d;
     averageResolutionDays := averageResolutionDays d |}.

(** [Math.max(0, (new Date(resolution) - now) / 3600000).toFixed(1)]; the
    difference of two time values is an integer far below 2^53 and its
    quotient is finite. *)
Definition hours_remaining (resolution now : Z) : Fixed :=
  toFixed (Math_max 0 (r64 (inject_Z (resolution - now) / 3600000))) 1.

(** What one call of the [forEach] callback over [caseRegistry] does with the
    case it is given: the case after it, the agent table after it, and the
    entry it pushes, if any. *)
Definition sla_visit (now : Z) (c : Case) (dcas : list (string * DCA))
    : Case * list (string * DCA) * option SlaEntry :=
  match Status_eqb (status c) RESOLVED, slaDeadlines c with
  | true, _ => (c, dcas, None)
  | false, None => (c, dcas, None)
  | false, Some dl =>
      let breached := (now >? resolution dl)%Z in
      let c' := if breached then mark_breached c else c in
      let dcas' :=
        if breached then
          match allocatedDCA c with
          | Some agent => map_update agent penalize dcas
          | None => dcas
          end
        else dcas in
      (c', dcas',
       Some {| entry_caseId := caseId c;
               entry_debtor := debtor c;
               entry_priority := priority c;
               entry_allocatedDCA := allocatedDCA c;
               entry_slaDeadlines := dl;
               breached := breached;
               hoursRemaining := hours_remaining (resolution dl) now |})
  end.

(** The [forEach] over the registry: each call touches the case it visits and
    the agent table only. *)
Fixpoint sla_loop (now : Z) (cs : list (string * Case)) (dcas : list (string * DCA))
    : list (string * Case) * list (string * DCA) * list SlaEntry :=
  match cs with
  | [] => ([], dcas, [])
  | (k, c) :: cs' =>
      let '(c', dcas1, e) := sla_visit now c dcas in
      let '(cs'', dcas2, es) := sla_loop now cs' dcas1 in
      ((k, c') :: cs'', dcas2,
       match e with Some x => x :: es | None => es end)
  end.

(** [GET /api/sla/status] *)
Definition slaStatus (session : option Session) (now : Z) (st : State)
    : Response (list SlaEntry) * State :=
  match session with
  | None => (Forbidden, st)
  | Some _ =>
      let '(cs, dcas, es) := sla_loop now (caseRegistry st) (dcaProfiles st) in
      (Okay es,
       {| caseRegistry := cs; dcaProfiles := dcas; caseIdCounter := caseIdCounter st |})
  end.

(** ** Runs of the server *)

(** One request that changes the tables. *)
Inductive step : State -> State -> Prop :=
| step_ingest session b noise now st :
    step st (snd (ingest session b noise now st))
| step_interaction session id b now hour st :
    step st (snd (interaction session id b now hour st))
| step_document session id b newId now st :
    step st (snd (document session id b newId now st))
| step_escalate session id b now st :
    step st (snd (escalate session id b now st))
| step_resolve session id b now st :
    step st (snd (resolve session id b now st))
| step_slaStatus session now st :
    step st (snd (slaStatus session now st)).

(** The tables the server can be in. *)
Inductive reachable : State -> Prop :=
| reachable_initial : reachable initial
| reachable_step st st' : reachable st -> step st st' -> reachable st'.

End DcaApi.

(** * [src/unnamed/part_000]

    The intake of a case, its prioritization, its allocation and the manual
    allocation. [allocatePendingCases], which a timer runs after an intake,
    calls [prioritizeCase] on the first case of the queue when it is RECEIVED
    and [allocateCase] when it is PRIORITIZED; the two are modelled as they
    are called. *)

Module InferenceApi.

Open Scope Q_scope.

(** An entry of [dcaWorkload]. *)
Record Workload : Type := mkWorkload {
  capacity : Z;
  current : Z;
  cases : list string
}.

Record Case : Type := mkCase {
  caseId : string;
  debtor : string;
  debtAmount : Q;
  debtAge : Q;
  status : Status;
  priority : option Priority;
  allocatedDCA : option string;
  allocationScore : option Fixed;
  recoveryProbability : option Q;
  createdAt : Z;
  prioritizedAt : option Z;
  allocatedAt : option Z
}.

Record State : Type := mkState {
  caseRegistry : list (string * Case);
  allocationQueue : list string;
  dcaWorkload : list (string * Workload);
  caseIdCounter : Z
}.

Definition dcaWorkload0 : list (string * Workload) :=
  [ ("DCA-001", mkWorkload 5 2 []);
    ("DCA-002", mkWorkload 5 1 []);
    ("DCA-003", mkWorkload 5 3 []);
    ("DCA-004", mkWorkload 5 0 []) ].

Definition initial : State :=
  {| caseRegistry := []; allocationQueue := []; dcaWorkload := dcaWorkload0;
     caseIdCounter := 1000 |}.

(** The fields of the body of [POST /api/cases/ingest] that are kept; an
    absent field is [None]. *)
Record IngestBody : Type := mkIngestBody {
  body_trackingNumber : option string;
  body_debtor : option string;
  body_debtAmount : option Q;
  body_debtAge : option Q
}.

(** [!x] for a string and for a number of the body. *)
Definition missing_string (x : option string) : bool :=
  match x with
  | Some s => String.eqb s ""
  | None => true
  end.

Definition missing_number (x : option Q) : bool :=
  match x with
  | Some q => Qeq_bool q 0
  | None => true
  end.

(** [POST /api/cases/ingest]: the case is stored as RECEIVED and queued; the
    answer is [None] for the status 400. The allocation of the queue runs
    later, from a timer. *)
Definition ingest (b : IngestBody) (now : Z) (st : State) : option Case * State :=
  match body_trackingNumber b, body_debtor b, body_debtAmount b with
  | Some _, Some who, Some amount =>
      if missing_string (body_trackingNumber b) || missing_string (body_debtor b)
         || missing_number (body_debtAmount b)
      then (None, st)
      else
        let counter := (caseIdCounter st + 1)%Z in
        let id := ("FDX-" ++ digits_of counter)%string in
        let newCase :=
          {| caseId := id;
             debtor := who;
             debtAmount := amount;
             debtAge := match body_debtAge b with Some a => a | None => 0 end;
             status := RECEIVED;
             priority := None;
             allocatedDCA := None;
             allocationScore := None;
             recoveryProbability := None;
             createdAt := now;
             prioritizedAt := None;
             allocatedAt := None |} in
        (Some newCase,
         {| caseRegistry := map_set id newCase (caseRegistry st);
            allocationQueue := allocationQueue st ++ [id];
            dcaWorkload := dcaWorkload st;
            caseIdCounter := counter |})
  | _, _, _ => (None, st)
  end.

(** The tier [prioritizeCase] computes from the amount and the age. *)
Definition prioritize (debtAmount debtAge : Q) : Priority :=
  if Qgtb debtAmount 100000 then CRITICAL
  else if Qgtb debtAmount 50000 || Qgtb debtAge 120 then HIGH
  else if Qgtb debtAmount 20000 || Qgtb debtAge 60 then MEDIUM
  else LOW.

(** The writes of [prioritizeCase] to [caseData]; [rnd] is the draw of
    [Math.random()]. *)
Definition prioritized_case (rnd : Q) (now : Z) (c : Case) : Case :=
  {| caseId := caseId c;
     debtor := debtor c;
     debtAmount := debtAmount c;
     debtAge := debtAge c;
     status := PRIORITIZED;
     priority := Some (prioritize (debtAmount c) (debtAge c));
     allocatedDCA := allocatedDCA c;
     allocationScore := allocationScore c;
     recoveryProbability := Some (Number (toFixed (rnd * 0.4 + 0.5) 4));
     createdAt := createdAt c;
     prioritizedAt := Some now;
     allocatedAt := allocatedAt c |}.

(** [prioritizeCase(caseId)]; [None] where the source throws on an unknown
    case. *)
Definition prioritizeCase (id : string) (rnd : Q) (now : Z) (st : State)
    : option State :=
  match map_get id (caseRegistry st) with
  | None => None
  | Some _ =>
      Some {| caseRegistry := map_update id (prioritized_case rnd now) (caseRegistry st);
              allocationQueue := allocationQueue st;
              dcaWorkload := dcaWorkload st;
              caseIdCounter := caseIdCounter st |}
  end.

(** [{...}[priority] || 1.0] *)
Definition priorityMultiplier (p : option Priority) : Q :=
  match p with
  | Some CRITICAL => 1.5
  | Some HIGH => 1.3
  | Some MEDIUM => 1.0
  | Some LOW => 0.8
  | None => 1.0
  end.

(** The variables of the loop of [allocateCase] over the entries of
    [dcaWorkload], and the number of draws of [Math.random()] so far. *)
Record Scan : Type := mkScan {
  bestDCA : option string;
  bestScore : Q;
  draws : nat
}.

(** The body of the [forEach] callback; [random k] is the [k]-th draw. *)
Definition scan_step (random : nat -> Q) (p : option Priority) (acc : Scan)
    (e : string * Workload) : Scan :=
  let '(dcaId, workload) := e in
  if (current workload >=? capacity workload)%Z then acc
  else
    let capacityScore :=
      inject_Z (capacity workload - current workload) / inject_Z (capacity workload) in
    let finalScore :=
      capacityScore * priorityMultiplier p * (random (draws acc) * 0.2 + 0.9) in
    if Qgtb finalScore (bestScore acc)
    then mkScan (Some dcaId) finalScore (S (draws acc))
    else mkScan (bestDCA acc) (bestScore acc) (S (draws acc)).

(** [dcaWorkload[bestDCA].current++; dcaWorkload[bestDCA].cases.push(caseId)] *)
Definition reserve (id : string) (w : Workload) : Workload :=
  {| capacity := capacity w; current := (current w + 1)%Z; cases := cases w ++ [id] |}.

Definition allocated_case (agent : string) (score : option Fixed) (now : Z)
    (c : Case) : Case :=
  {| caseId := caseId c;
     debtor := debtor c;
     debtAmount := debtAmount c;
     debtAge := debtAge c;
     status := ALLOCATED;
     priority := priority c;
     allocatedDCA := Some agent;
     allocationScore := score;
     recoveryProbability := recoveryProbability c;
     createdAt := createdAt c;
     prioritizedAt := prioritizedAt c;
     allocatedAt := Some now |}.

(** [allocateCase(caseId)]: whether an agent was found, and the tables after
    the call; [None] where the source throws on an unknown case. *)
Definition allocateCase (id : string) (random : nat -> Q) (now : Z) (st : State)
    : option (bool * State) :=
  match map_get id (caseRegistry st) with
  | None => None
  | Some caseData =>
      let r := fold_left (scan_step random (priority caseData)) (dcaWorkload st)
                 (mkScan None 0 0) in
      match bestDCA r with
      | None => Some (false, st)
      | Some best =>
          Some (true,
                {| caseRegistry :=
                     map_update id
                       (allocated_case best (Some (toFixed (bestScore r) 4)) now)
                       (caseRegistry st);
                   allocationQueue := allocationQueue st;
                   dcaWorkload := map_update best (reserve id) (dcaWorkload st);
                   caseIdCounter := caseIdCounter st |})
      end
  end.

(** [cases.indexOf(caseId)] followed by [cases.splice(oldIndex, 1)]: the
    list without the first occurrence, when there is one. *)
Fixpoint remove_first (id : string) (l : list string) : option (list string) :=
  match l with
  | [] => None
  | x :: l' =>
      if String.eqb x id then Some l'
      else match remove_first id l' with
           | Some r => Some (x :: r)
           | None => None
           end
  end.

(** The release of the case by the agent it was allocated to. *)
Definition release (id : string) (w : Workload) : Workload :=
  match remove_first id (cases w) with
  | Some rest => {| capacity := capacity w; current := (current w - 1)%Z; cases := rest |}
  | None => w
  end.

Inductive Response : Type :=
| CaseNotFound              (* 404 *)
| DcaNotFound               (* 404 *)
| ServerError               (* 500: an exception left the handler *)
| Reallocated (c : Case).   (* 200 *)

(** The names that [dcaWorkload], an object literal, inherits from
    [Object.prototype]: [dcaWorkload[name]] is a function or an object for
    them, not [undefined], and has no [cases]. *)
Definition inherited : list string :=
  [ "constructor"; "hasOwnProperty"; "isPrototypeOf"; "propertyIsEnumerable";
    "toLocaleString"; "toString"; "valueOf"; "__proto__";
    "__defineGetter__"; "__defineSetter__"; "__lookupGetter__"; "__lookupSetter__" ].

(** [dcaWorkload[name]] *)
Inductive Property : Type :=
| Own (w : Workload)
| Inherited
| Undefined.

Definition property (name : string) (t : list (string * Workload)) : Property :=
  match map_get name t with
  | Some w => Own w
  | None => if includes inherited name then Inherited else Undefined
  end.

(** [POST /api/cases/:caseId/allocate/:dcaId]. For a name of [inherited] the
    handler goes on as for an agent and throws where it reads [cases] of it:
    on the release of a case that is on such a name, before any write; on the
    reservation on such a name, after the release and the writes to the
    case. *)
Definition manualAllocate (id agent : string) (now : Z) (st : State)
    : Response * State :=
  match map_get id (caseRegistry st) with
  | None => (CaseNotFound, st)
  | Some caseData =>
      match property agent (dcaWorkload st) with
      | Undefined => (DcaNotFound, st)
      | workload =>
          (* Remove from old allocation if exists *)
          let released :=
            match allocatedDCA caseData with
            | None => Some (dcaWorkload st)
            | Some old =>
                if String.eqb old "" then Some (dcaWorkload st)
                else
                  match property old (dcaWorkload st) with
                  | Undefined => Some (dcaWorkload st)
                  | Inherited => None
                  | Own _ => Some (map_update old (release id) (dcaWorkload st))
                  end
            end in
          match released with
          | None => (ServerError, st)
          | Some released =>
              (* Allocate to new DCA *)
              let caseData' :=
                allocated_case agent (allocationScore caseData) now caseData in
              match workload with
              | Own _ =>
                  (Reallocated caseData',
                   {| caseRegistry := map_update id (fun _ => caseData') (caseRegistry st);
                      allocationQueue := allocationQueue st;
                      dcaWorkload := map_update agent (reserve id) released;
                      caseIdCounter := caseIdCounter st |})
              | _ =>
                  (ServerError,
                   {| caseRegistry := map_update id (fun _ => caseData') (caseRegistry st);
                      allocationQueue := allocationQueue st;
                      dcaWorkload := released;
                      caseIdCounter := caseIdCounter st |})
              end
          end
      end
  end.

End InferenceApi.

(** * The specification's wording

    The definitions below follow the words of the specification; the theorems
    compare them with the definitions taken from the source. *)

Module Spec.

Open Scope Q_scope.

(** §4.1: the tier thresholds, first match wins. *)
Definition tier (amount age : JsNum) : Priority :=
  if Js.gt amount 100000 || Js.gt age 180 then CRITICAL
  else if Js.gt amount 50000 || Js.gt age 120 then HIGH
  else if Js.gt amount 20000 || Js.gt age 60 then MEDIUM
  else LOW.

(** §4.3 step 2: the suitability score from its five ingredients, in
    binary64 arithmetic from left to right. *)
Definition score (historicalRecoveryRate specializationMatch geoMatch
    loadPenalty complianceRisk : JsNum) : JsNum :=
  (lit 0.30 * historicalRecoveryRate + lit 0.25 * specializationMatch
   + lit 0.20 * geoMatch - lit 0.15 * loadPenalty - lit 0.10 * complianceRisk)%js.

(** §4.3 step 3: the priority factor of a tier. *)
Definition priorityFactor (t : Priority) : JsNum :=
  match t with
  | CRITICAL => lit 1.5
  | HIGH => lit 1.3
  | MEDIUM => lit 1.0
  | LOW => lit 0.8
  end.

Definition hour : Z := 3600000.
Definition day : Z := 24 * 3600000.

(** §4.5: the offsets of the three deadlines of a tier, in milliseconds. *)
Definition firstActionOffset (t : Priority) : Z :=
  match t with
  | CRITICAL => 24 * hour
  | HIGH => 48 * hour
  | MEDIUM => 72 * hour
  | LOW => 96 * hour
  end.

Definition followUpOffset (t : Priority) : Z :=
  match t with
  | CRITICAL => 2 * day
  | HIGH => 3 * day
  | MEDIUM => 4 * day
  | LOW => 7 * day
  end.

Definition resolutionOffset (t : Priority) : Z :=
  match t with
  | CRITICAL => 7 * day
  | HIGH => 15 * day
  | MEDIUM => 20 * day
  | LOW => 30 * day
  end.

End Spec.

(** * Properties of the tables of [src/dca-api.js] *)

Module DcaProps.

Import DcaApi.
Open Scope Q_scope.

(** The agent has capacity remaining. *)
Definition eligible (d : DCA) : Prop := (currentLoad d < capacity d)%Z.

(** The agents are visited in ascending order of their identifiers. *)
Definition id_before (a b : string * DCA) : Prop :=
  String.ltb (dcaId (snd a)) (dcaId (snd b)) = true.

Definition ids_ascending (dcas : list (string * DCA)) : Prop :=
  StronglySorted id_before dcas.

(** The table has the keys and the identifiers of the table the server
    starts with, in the same order. *)
Definition same_agents (dcas : list (string * DCA)) : Prop :=
  map (fun e => (fst e, dcaId (snd e))) dcas
  = map (fun e => (fst e, dcaId (snd e))) dcaProfiles0.

(** The load of the agent is the length of its list of cases. *)
Definition load_matches (d : DCA) : Prop :=
  currentLoad d = Z.of_nat (List.length (cases d)).

(** The final score of the agent is a number above [-Infinity]: it passes
    the first test [finalScore > bestScore] of the loop. *)
Definition scores (c : Case) (d : DCA) : Prop :=
  Js.gt (finalScore c d) (Infinity true) = true.

(** What the loop of the allocation has found after the agents of [l]:
    nothing when no eligible agent scores; otherwise an eligible agent of [l]
    that scores, whose [finalScore] is the best score, no eligible agent of
    [l] has a greater [finalScore], and one with the same [finalScore] is the
    agent itself or has a greater identifier. *)
Definition scanned (c : Case) (l : list (string * DCA)) (r : Scan) : Prop :=
  match bestDCA r with
  | None =>
      bestScore r = Infinity true /\
      (forall e, In e l -> eligible (snd e) -> ~ scores c (snd e))
  | Some b =>
      In b l /\ eligible (snd b) /\ scores c (snd b) /\
      bestScore r = finalScore c (snd b) /\
      forall e, In e l -> eligible (snd e) ->
        Js.gt (finalScore c (snd e)) (finalScore c (snd b)) = false /\
        (Js.same (finalScore c (snd e)) (finalScore c (snd b)) ->
         e = b \/ id_before b e)
  end.

(** The test of the loop that lets an agent through. *)
Definition has_room (e : string * DCA) : bool :=
  negb (currentLoad (snd e) >=? capacity (snd e))%Z.

(** The rates, the tags and the region of the agent are those of an agent of
    the table the server starts with, and its capacity is 5. *)
Definition profiled (d : DCA) : Prop :=
  exists d0,
    In d0 (map snd dcaProfiles0) /\
    historicalRecoveryRate d = historicalRecoveryRate d0 /\
    specialization d = specialization d0 /\
    dca_geoRegion d = dca_geoRegion d0 /\
    complianceScore d = complianceScore d0 /\
    capacity d = 5%Z.

(** The writes the handlers make to an agent of the table. *)
Inductive agent_write : (DCA -> DCA) -> Prop :=
| write_reserve id : agent_write (reserve id)
| write_add_recovered a : agent_write (add_recovered a)
| write_penalize : agent_write penalize.

(** The agent table [l'] comes from [l] by such writes. *)
Inductive evolves (l : list (string * DCA)) : list (string * DCA) -> Prop :=
| evolves_refl : evolves l l
| evolves_write l' k f :
    evolves l l' -> agent_write f -> evolves l (map_update k f l').

(** The candidate list [cands] has an element for the agent [d] that holds
    the score, the priority factor and the final score of [d] for the case
    [c], as computed. *)
Definition records_exactly (c : Case) (d : DCA) (cands : list Candidate) : Prop :=
  exists cand,
    In cand cands /\ cand_dcaId cand = dcaId d /\
    Js.same (cand_dcaScore cand) (dcaScore c d) /\
    Js.same (cand_priorityFactor cand) (priorityFactor (priority c)) /\
    Js.same (cand_finalScore cand) (finalScore c d).

(** The request was refused and the case [id] is still RESOLVED. *)
Definition refused (id : string) (r : Response Case * State) : Prop :=
  (forall c, fst r <> Okay c) /\
  exists c, map_get id (caseRegistry (snd r)) = Some c /\ status c = RESOLVED.

(** The case [id] of [st] is terminal: whatever the request, logging an
    interaction, escalating and resolving are refused and leave it RESOLVED. *)
Definition terminal (st : State) (id : string) : Prop :=
  forall s now hour bi be br,
    refused id (interaction (Some s) id bi now hour st) /\
    refused id (escalate (Some s) id be now st) /\
    refused id (resolve (Some s) id br now st).

(** What the allocation decided for a case, as stored on the case. *)
Definition decision (c : Case) : option string * option Printed * option Chosen :=
  (allocatedDCA c, allocationScore c, allocationChosen c).

End DcaProps.

(** * Example requests and tables *)

Module DcaExamples.

Import DcaApi.
Open Scope Q_scope.

Definition fedex : Session := mkSession "fedex@company.com" FEDEX.
Definition agent1 : Session := mkSession "dca1@company.com" ROLE_DCA.

(** A case of 150000 that is 10 days old, from the region of DCA-001. *)
Definition acme : IngestBody := mkIngestBody "Acme Ltd" 150000 10 (Some "North-East").

(** A case of 30000 that is 65 days old, without a region. *)
Definition bolt : IngestBody := mkIngestBody "Bolt Inc" 30000 65 None.

(** The server after the first request, the ingestion of [acme] at time 0
    with a draw of 0.5. *)
Definition registered_acme : State :=
  ingest_registered (session_email fedex) acme 0.5 0 initial.

Definition after_acme : State := snd (ingest (Some fedex) acme 0.5 0 initial).

(** The server after the ingestion of [bolt] as its first request. *)
Definition after_bolt : State := snd (ingest (Some fedex) bolt 0.5 0 initial).

(** [n] ingestions of [acme] in a row. *)
Fixpoint ingest_times (n : nat) (st : State) : State :=
  match n with
  | O => st
  | S n' => ingest_times n' (snd (ingest (Some fedex) acme 0.5 0 st))
  end.

(** After twenty ingestions every agent has five cases. *)
Definition saturated : State := ingest_times 20 initial.

(** A time after the resolution deadline of the case of [after_acme]:
    eight days after its allocation. *)
Definition eight_days : Z := 8 * 24 * 3600000.

(** A case of 1000 that is 90 days old, from the region of DCA-001, as the
    first request with a draw of 0.5. *)
Definition small : IngestBody := mkIngestBody "Small Co" 1000 90 (Some "North-East").
Definition small_case : Case := newCase "FDX-1001" "fedex@company.com" small 0.5 0.
Definition registered_small : State :=
  ingest_registered (session_email fedex) small 0.5 0 initial.

(** The request of [acme] without its [debtAge]. *)
Definition ageless : IngestBody :=
  mkIngestBody "Acme Ltd" 150000 NaN (Some "North-East").

(** A payment of 5000. *)
Definition paid : ResolveBody := mkResolveBody "RECOVERED" (JNumber 5000) "paid".

(** The case of [after_acme], resolved at time 1000. *)
Definition resolved_acme : State :=
  snd (resolve (Some agent1) "FDX-1001" paid 1000 after_acme).

(** The case of [registered_acme] and the first agent of the table. *)
Definition acme_case : Case := newCase "FDX-1001" "fedex@company.com" acme 0.5 0.

Definition john_smith : DCA :=
  mkDCA "DCA-001" "John Smith" 5 0 0.82 ["High-Value"; "Corporate"] "North-East"
    0.95 [] 0 450000 22.

(** The entry of the SLA status for the case of [after_acme], eight days
    after its allocation. *)
Definition acme_entry : SlaEntry :=
  {| entry_caseId := "FDX-1001";
     entry_debtor := "Acme Ltd";
     entry_priority := CRITICAL;
     entry_allocatedDCA := Some "DCA-001";
     entry_slaDeadlines := mkDeadlines 86400000 172800000 604800000;
     breached := true;
     hoursRemaining := mkFixed false 0 1 |}.

End DcaExamples.

(** * Properties of the tables of [src/unnamed/part_000] *)

Module InferenceProps.

Import InferenceApi.

(** The load of the agent is the length of its list of cases. *)
Definition load_matches (w : Workload) : Prop :=
  current w = Z.of_nat (List.length (cases w)).

(** How far the load counter of the agent is ahead of its list of cases. *)
Definition surplus (w : Workload) : Z :=
  current w - Z.of_nat (List.length (cases w)).

Definition surpluses (t : list (string * Workload)) : list (string * Z) :=
  map (fun e => (fst e, surplus (snd e))) t.

End InferenceProps.

Module InferenceExamples.

Import InferenceApi.
Open Scope Q_scope.

(** A debt of 1000 that is 200 days old. *)
Definition old_debt : IngestBody :=
  mkIngestBody (Some "TRK-1") (Some "Old Debt Co") (Some 1000) (Some 200).

(** The server after the ingestion of [old_debt] as its first request, and
    after the prioritization of the case with a draw of 0.5 at time 100. *)
Definition received : State := snd (ingest old_debt 0 initial).
Definition prioritized : State :=
  match prioritizeCase "FDX-1001" 0.5 100 received with
  | Some st => st
  | None => received
  end.

(** The draws of [Math.random()] are all 0.5. *)
Definition coin : nat -> Q := fun _ => 0.5.

(** The case of [received], allocated by hand to DCA-004 at time 50 while
    it is still in the queue. *)
Definition allocated_by_hand : State :=
  snd (manualAllocate "FDX-1001" "DCA-004" 50 received).

End InferenceExamples.

(** * More of [src/dca-api.js]: login, listings *)

Module DcaMore.

Import DcaApi.
Open Scope Q_scope.

(** A value of the [users] table with all its fields. *)
Record Account : Type := mkAccount {
  password : string;
  role : Role;
  account_name : string;
  company : string;
  account_dcaId : option string
}.

Definition accounts : list (string * Account) :=
  [ ("admin@fedex.com", mkAccount "admin123" ADMIN "Admin User" "FedEx" None);
    ("dca1@company.com",
     mkAccount "dca123" ROLE_DCA "DCA Agent 1" "DCA Corp" (Some "DCA-001"));
    ("dca2@company.com",
     mkAccount "dca123" ROLE_DCA "DCA Agent 2" "DCA Corp" (Some "DCA-002"));
    ("fedex@company.com",
     mkAccount "fedex123" FEDEX "FedEx Case Manager" "FedEx" None) ].

(** A value of the [sessions] table. *)
Record StoredSession : Type := mkStored {
  stored_email : string;
  stored_role : Role;
  stored_name : string;
  stored_timestamp : Z
}.

(** The [user] object of the answer of a login. *)
Record LoginUser : Type := mkLoginUser {
  login_email : string;
  login_role : Role;
  login_name : string;
  login_company : string;
  login_dcaId : option string
}.

Inductive LoginResponse : Type :=
| Unauthorized                                   (* 401 *)
| LoggedIn (sessionId : string) (u : LoginUser).  (* 200 *)

(** [POST /auth/login]; [sessionId] is
    [crypto.randomBytes(16).toString('hex')] and [now] is [Date.now()]. *)
Definition login (email pass sessionId : string) (now : Z)
    (sessions : list (string * StoredSession))
    : LoginResponse * list (string * StoredSession) :=
  match map_get email accounts with
  | None => (Unauthorized, sessions)
  | Some u =>
      if negb (String.eqb (password u) pass) then (Unauthorized, sessions)
      else
        (LoggedIn sessionId
           (mkLoginUser email (role u) (account_name u) (company u) (account_dcaId u)),
         map_set sessionId (mkStored email (role u) (account_name u) now) sessions)
  end.

(** [verifySession(req)]; [header] is [req.headers['x-session-id']], [None]
    when the header is absent. *)
Definition verifySession (header : option string)
    (sessions : list (string * StoredSession)) : option StoredSession :=
  match header with
  | None => None
  | Some sessionId =>
      if String.eqb sessionId "" then None else map_get sessionId sessions
  end.

(** The two fields of a session that the handlers read. *)
Definition session_of (s : StoredSession) : Session :=
  mkSession (stored_email s) (stored_role s).

(** [c.allocatedDCA === userDCA]: [null] on the left is not [undefined] on the
    right. *)
Definition same_agent (allocated userDCA : option string) : bool :=
  match allocated, userDCA with
  | Some a, Some u => String.eqb a u
  | _, _ => false
  end.

(** The [stats] object of [GET /api/cases]. *)
Record Stats : Type := mkStats {
  stats_total : nat;
  stats_critical : nat;
  stats_breached : nat;
  stats_resolved : nat
}.

(** The cases [GET /api/cases] answers with for a session. *)
Definition visible_cases (s : Session) (st : State) : list Case :=
  let cases := map snd (caseRegistry st) in
  match session_role s with
  | ROLE_DCA => filter (fun c => same_agent (allocatedDCA c) (session_dcaId s)) cases
  | _ => cases
  end.

(** [GET /api/cases] *)
Definition listCases (session : option Session) (st : State)
    : Response (Stats * list Case) :=
  match session with
  | None => Forbidden
  | Some s =>
      let cases := visible_cases s st in
      Okay ({| stats_total := List.length cases;
               stats_critical :=
                 List.length (filter (fun c => Priority_eqb (priority c) CRITICAL) cases);
               stats_breached := List.length (filter slaBreached cases);
               stats_resolved :=
                 List.length (filter (fun c => Status_eqb (status c) RESOLVED) cases) |},
            cases)
  end.

(** [GET /api/cases/:caseId] *)
Definition getCase (session : option Session) (id : string) (st : State)
    : Response Case :=
  match session with
  | None => Forbidden
  | Some _ =>
      match map_get id (caseRegistry st) with
      | None => NotFound
      | Some c => Okay c
      end
  end.

(** [GET /api/audit/:caseId] *)
Definition getAudit (session : option Session) (id : string) (st : State)
    : Response (string * list AuditEntry) :=
  match session with
  | None => Forbidden
  | Some _ =>
      match map_get id (caseRegistry st) with
      | None => NotFound
      | Some c => Okay (id, auditTrail c)
      end
  end.

(** An element of the answer of [GET /api/dcas]; the three rates are the
    digits in front of the ['%']. The capacity of an agent is never zero and
    the quotients are finite: the agents are those of [dcaProfiles0], each
    with the capacity 5. *)
Record DcaSummary : Type := mkSummary {
  summary_dcaId : string;
  summary_name : string;
  summary_capacity : Z;
  summary_currentLoad : Z;
  utilizationRate : Fixed;
  summary_historicalRecoveryRate : Fixed;
  summary_complianceScore : Fixed;
  summary_slaBreaches : Z;
  summary_recoveredAmount : Amount;
  summary_averageResolutionDays : Z
}.

Definition summary (d : DCA) : DcaSummary :=
  {| summary_dcaId := dcaId d;
     summary_name := name d;
     summary_capacity := capacity d;
     summary_currentLoad := currentLoad d;
     utilizationRate :=
       toFixed (r64 (r64 (inject_Z (currentLoad d) / inject_Z (capacity d)) * 100)) 1;
     summary_historicalRecoveryRate :=
       toFixed (r64 (r64 (historicalRecoveryRate d) * 100)) 1;
     summary_complianceScore := toFixed (r64 (r64 (complianceScore d) * 100)) 1;
     summary_slaBreaches := slaBreaches d;
     summary_recoveredAmount := dca_recoveredAmount d;
     summary_averageResolutionDays := averageResolutionDays d |}.

(** [GET /api/dcas] *)
Definition listDcas (session : option Session) (st : State)
    : Response (list DcaSummary) :=
  match session with
  | None => Forbidden
  | Some _ => Okay (map (fun e => summary (snd e)) (dcaProfiles st))
  end.

End DcaMore.

(** * More of [src/unnamed/part_000]: the queue, the priority endpoint *)

Module InferenceMore.

Import InferenceApi.
Open Scope Q_scope.

(** The test of the loop of [allocateCase] that lets an agent through. *)
Definition has_room (e : string * Workload) : bool :=
  negb (current (snd e) >=? capacity (snd e))%Z.

(** The number of draws of [Math.random()] in one call of [allocateCase]:
    one for each agent with room. *)
Definition draws_of (st : State) : nat :=
  List.length (filter has_room (dcaWorkload st)).

(** [allocationQueue.shift()] *)
Definition shift (st : State) : State :=
  {| caseRegistry := caseRegistry st;
     allocationQueue := tl (allocationQueue st);
     dcaWorkload := dcaWorkload st;
     caseIdCounter := caseIdCounter st |}.

(** How a run of the [while] loop ends: it is still running when the fuel is
    used up, an exception leaves it, or it ends with the tables it leaves. *)
Inductive Run : Type :=
| OutOfFuel
| Threw
| Finished (st : State).

(** [allocatePendingCases()]; each turn of the [while] loop takes one unit of
    fuel, and [random k] is the [k]-th draw of [Math.random()] from now on. *)
Fixpoint allocatePendingCases (fuel : nat) (random : nat -> Q) (now : Z)
    (st : State) : Run :=
  match fuel with
  | O => OutOfFuel
  | S fuel' =>
      match allocationQueue st with
      | [] => Finished st
      | caseId :: _ =>
          match map_get caseId (caseRegistry st) with
          | None => allocatePendingCases fuel' random now (shift st)
          | Some caseData =>
              (* Step 1: prioritize the case *)
              let step1 :=
                if Status_eqb (status caseData) RECEIVED then
                  match prioritizeCase caseId (random 0%nat) now st with
                  | Some st1 => Some (st1, fun k => random (S k))
                  | None => None
                  end
                else Some (st, random) in
              match step1 with
              | None => Threw
              | Some (st1, random1) =>
                  (* Step 2: allocate to a DCA; the status is read again *)
                  match map_get caseId (caseRegistry st1) with
                  | None => Threw
                  | Some caseData1 =>
                      if Status_eqb (status caseData1) PRIORITIZED then
                        match allocateCase caseId random1 now st1 with
                        | None => Threw
                        | Some (true, st2) =>
                            allocatePendingCases fuel'
                              (fun k => random1 (draws_of st1 + k)%nat) now (shift st2)
                        | Some (false, st2) => Finished st2
                        end
                      else allocatePendingCases fuel' random1 now st1
                  end
              end
          end
      end
  end.


(** ** Runs of the server *)

(** One request, or one run of the timer, that changes the tables. *)
Inductive step (st : State) : State -> Prop :=
| step_intake b now : step st (snd (ingest b now st))
| step_timer fuel random now st' :
    allocatePendingCases fuel random now st = Finished st' -> step st st'
| step_manual id agent now : step st (snd (manualAllocate id agent now st)).

(** The tables the server can be in. *)
Inductive reachable : State -> Prop :=
| reachable_start : reachable initial
| reachable_next st st' : reachable st -> step st st' -> reachable st'.

End InferenceMore.

(** * Properties of the runs of [src/dca-api.js] *)

Module DcaMoreProps.

Import DcaApi DcaProps DcaMore.
Open Scope Q_scope.

(** Two tables with the same keys in the same order, the values under each
    key related by [R]. *)
Definition table_rel {V : Type} (R : V -> V -> Prop) (l l' : list (string * V)) : Prop :=
  Forall2 (fun a b => fst a = fst b /\ R (snd a) (snd b)) l l'.

(** The load of the agent is between zero and its capacity. *)
Definition within_capacity (d : DCA) : Prop :=
  (0 <= currentLoad d <= capacity d)%Z.

(** The agent [d'] is [d] some requests later: the same agent with the same
    capacity, a load that is not smaller, the list of cases of [d] followed
    by more, and not fewer breaches. *)
Definition agent_later (d d' : DCA) : Prop :=
  dcaId d' = dcaId d /\ capacity d' = capacity d /\
  (currentLoad d <= currentLoad d')%Z /\
  (exists more, cases d' = cases d ++ more) /\
  (slaBreaches d <= slaBreaches d')%Z.

(** The agent [d'] is [d] with a breach counter that is not smaller, and
    nothing else changed. *)
Definition only_penalized (d d' : DCA) : Prop :=
  (slaBreaches d <= slaBreaches d')%Z /\
  d' = {| dcaId := dcaId d;
          name := name d;
          capacity := capacity d;
          currentLoad := currentLoad d;
          historicalRecoveryRate := historicalRecoveryRate d;
          specialization := specialization d;
          dca_geoRegion := dca_geoRegion d;
          complianceScore := complianceScore d;
          cases := cases d;
          slaBreaches := slaBreaches d';
          dca_recoveredAmount := dca_recoveredAmount d;
          averageResolutionDays := averageResolutionDays d |}.

(** The allocation data of a case hang together: the agent, the deadlines and
    the allocation score are all set or all absent; a case with an agent is
    no longer RECEIVED; no case is PRIORITIZED. *)
Definition allocation_consistent (c : Case) : Prop :=
  (allocatedDCA c = None <-> slaDeadlines c = None) /\
  (allocatedDCA c = None <-> allocationScore c = None) /\
  (allocatedDCA c <> None -> status c <> RECEIVED) /\
  status c <> PRIORITIZED.

(** The case [c'] carries on the case [c]: the same case with the same
    amount, age, tier, probability, agent, deadlines and allocation score;
    the audit trail, the interactions, the documents and the disputes of [c]
    followed by more; a breach flag that stays once set. *)
Definition carries_on (c c' : Case) : Prop :=
  caseId c' = caseId c /\
  debtAmount c' = debtAmount c /\ debtAge c' = debtAge c /\
  priority c' = priority c /\ recoveryProbability c' = recoveryProbability c /\
  allocatedDCA c' = allocatedDCA c /\ slaDeadlines c' = slaDeadlines c /\
  allocationScore c' = allocationScore c /\
  (exists more, auditTrail c' = auditTrail c ++ more) /\
  (exists more, interactions c' = interactions c ++ more) /\
  (exists more, documents c' = documents c ++ more) /\
  (exists more, disputes c' = disputes c ++ more) /\
  (slaBreached c = true -> slaBreached c' = true).

(** The identifiers of the cases are those handed out so far. *)
Definition issued (st : State) : Prop :=
  (1000 <= caseIdCounter st)%Z /\
  forall id, In id (map fst (caseRegistry st)) ->
    exists n, (1000 < n <= caseIdCounter st)%Z /\ id = new_caseId n.

(** The agent of every case is in the agent table, under its identifier, and
    has the case in its list. *)
Definition agents_hold_cases (st : State) : Prop :=
  forall id c a,
    map_get id (caseRegistry st) = Some c -> allocatedDCA c = Some a ->
    exists d, map_get a (dcaProfiles st) = Some d /\ dcaId d = a /\ In id (cases d).

(** What holds of the tables in every state of the server. *)
Definition invariant (st : State) : Prop :=
  same_agents (dcaProfiles st) /\
  issued st /\
  Forall (fun e => within_capacity (snd e)) (dcaProfiles st) /\
  (forall id c, map_get id (caseRegistry st) = Some c ->
     caseId c = id /\ allocation_consistent c) /\
  agents_hold_cases st.

(** The writes of the interaction, document, escalate and resolve handlers to
    a case. *)
Inductive case_write : (Case -> Case) -> Prop :=
| write_interaction s b now hour : case_write (interaction_case s b now hour)
| write_document s b content newId now :
    case_write (document_case s b content newId now)
| write_escalate s b now : case_write (escalate_case s b now)
| write_resolve s b now : case_write (resolve_case s b now).

(** What the visit of the SLA status does to the case it visits. *)
Definition sla_case (now : Z) (c : Case) : Case :=
  fst (fst (sla_visit now c [])).

(** The shapes of the tables after one request. *)
Inductive transition (st : State) : State -> Prop :=
| tr_none : transition st st
| tr_ingest_unallocated email b noise now :
    bestDCA (scan (newCase (new_caseId (caseIdCounter st + 1)) email b noise now)
               (dcaProfiles st)) = None ->
    transition st (ingest_registered email b noise now st)
| tr_ingest_allocated email b noise now key best :
    bestDCA (scan (newCase (new_caseId (caseIdCounter st + 1)) email b noise now)
               (dcaProfiles st)) = Some (key, best) ->
    transition st
      {| caseRegistry :=
           map_update (new_caseId (caseIdCounter st + 1))
             (allocated_case best
                (finalScore (newCase (new_caseId (caseIdCounter st + 1))
                               email b noise now) best)
                (candidateDetails
                   (scan (newCase (new_caseId (caseIdCounter st + 1))
                            email b noise now) (dcaProfiles st))) now)
             (caseRegistry (ingest_registered email b noise now st));
         dcaProfiles :=
           map_update key (reserve (new_caseId (caseIdCounter st + 1))) (dcaProfiles st);
         caseIdCounter := (caseIdCounter st + 1)%Z |}
| tr_case id c f dcas :
    map_get id (caseRegistry st) = Some c ->
    case_write f ->
    dcas = dcaProfiles st \/
    (exists agent q,
       allocatedDCA c = Some agent /\
       dcas = map_update agent (add_recovered q) (dcaProfiles st)) ->
    transition st
      {| caseRegistry := map_update id f (caseRegistry st);
         dcaProfiles := dcas;
         caseIdCounter := caseIdCounter st |}
| tr_sla now :
    transition st
      {| caseRegistry := map (fun e => (fst e, sla_case now (snd e))) (caseRegistry st);
         dcaProfiles := snd (fst (sla_loop now (caseRegistry st) (dcaProfiles st)));
         caseIdCounter := caseIdCounter st |}.

(** The case is not due at [now]: it is RESOLVED, it has no deadlines, or its
    resolution deadline is not past. *)
Definition not_due (now : Z) (c : Case) : Prop :=
  status c = RESOLVED \/
  match slaDeadlines c with
  | None => True
  | Some dl => (now <= resolution dl)%Z
  end.

End DcaMoreProps.

Module DcaMoreExamples.

Import DcaApi DcaExamples DcaMore.
Open Scope Q_scope.

(** The steps that lead to [after_acme] and [resolved_acme]. *)
Definition sessions_after_login : list (string * StoredSession) :=
  snd (login "dca1@company.com" "dca123" "0a1b2c" 500 []).

(** A call at eight in the evening that ends in a dispute. *)
Definition late_call : InteractionBody := mkInteractionBody "CALL" "wrong invoice" "DISPUTE".

(** The upload of a note. *)
Definition note : DocumentBody :=
  mkDocumentBody "note.txt" "NOTE" (Some "called twice").

(** The same upload without its [content]. *)
Definition empty_note : DocumentBody := mkDocumentBody "note.txt" "NOTE" None.

End DcaMoreExamples.

(** * Facts about numbers and tables *)

Lemma Qgtb_true (x y : Q) : Qgtb x y = true <-> (y < x)%Q.
Proof.
  unfold Qgtb. rewrite negb_true_iff. split; intro H.
  - apply Qnot_le_lt. intro Hle. apply Qle_bool_iff in Hle. congruence.
  - destruct (Qle_bool x y) eqn:E; [|reflexivity].
    apply Qle_bool_iff in E. exfalso. exact (Qlt_not_le _ _ H E).
Qed.

Lemma Qgtb_false (x y : Q) : Qgtb x y = false <-> (x <= y)%Q.
Proof.
  unfold Qgtb. rewrite negb_false_iff. apply Qle_bool_iff.
Qed.

(** *** Rounding *)

Lemma pow2_pos k : (0 < pow2 k)%Q.
Proof. unfold pow2. apply Qpower_0_lt. reflexivity. Qed.

Lemma round_half_even_nonneg x : (0 <= x)%Q -> 0 <= round_half_even x.
Proof.
  intro H. unfold round_half_even.
  assert (Hf : 0 <= Qfloor x).
  { change 0 with (Qfloor 0). now apply Qfloor_resp_le. }
  destruct (Qcompare _ _); [destruct (Z.even _)| |]; lia.
Qed.

(** The significand of the nearest binary64 number times its unit. *)
Lemma r64_magnitude_nonneg a e :
  (0 <= inject_Z (round_half_even (Qabs a / pow2 e)) * pow2 e)%Q.
Proof.
  apply Qmult_le_0_compat.
  - change 0%Q with (inject_Z 0). rewrite <- Zle_Qle.
    apply round_half_even_nonneg. apply Qle_shift_div_l; [apply pow2_pos|].
    rewrite Qmult_0_l. apply Qabs_nonneg.
  - apply Qlt_le_weak, pow2_pos.
Qed.

(** Rounding keeps the sign. *)
Lemma r64_nonneg x : (0 <= x)%Q -> (0 <= r64 x)%Q.
Proof.
  intro H. unfold r64.
  assert (Hx : (0 <= Qred x)%Q) by now rewrite Qred_correct.
  destruct (Qeq_bool (Qred x) 0); [apply Qle_refl|].
  assert (E : Qgtb 0 (Qred x) = false) by now apply Qgtb_false.
  rewrite E, Qred_correct. apply r64_magnitude_nonneg.
Qed.

Lemma r64_nonpos x : (x <= 0)%Q -> (r64 x <= 0)%Q.
Proof.
  intro H. unfold r64.
  assert (Hx : (Qred x <= 0)%Q) by now rewrite Qred_correct.
  destruct (Qeq_bool (Qred x) 0) eqn:E0; [apply Qle_refl|].
  apply Qeq_bool_neq in E0.
  assert (E : Qgtb 0 (Qred x) = true).
  { apply Qgtb_true. apply Qle_lt_or_eq in Hx. destruct Hx; [assumption|contradiction]. }
  rewrite E, Qred_correct.
  pose proof (r64_magnitude_nonneg (Qred x)
                (Z.max (binade (Qabs (Qred x)) - 52) (-1074))) as Hm.
  set (r := (inject_Z _ * pow2 _)%Q) in *. lra.
Qed.

(** An integer of at most 53 bits is a binary64 number. *)
Lemma round_half_even_integer n : round_half_even (inject_Z n) = n.
Proof.
  unfold round_half_even. rewrite Qfloor_Z.
  assert (E : (inject_Z n - inject_Z n ?= 1 # 2)%Q = Lt).
  { rewrite <- Qlt_alt. ring_simplify. reflexivity. }
  now rewrite E.
Qed.

Lemma pow2_nonneg_power k : 0 <= k -> (pow2 k == inject_Z (2 ^ k))%Q.
Proof. intro H. unfold pow2. now rewrite (Zpower_Qpower 2 k H). Qed.

Lemma r64_integer z : Z.abs z <= 2 ^ 53 -> r64 (inject_Z z) = inject_Z z.
Proof.
  intro Hz. unfold r64.
  assert (Hred : Qred (inject_Z z) = inject_Z z).
  { apply Qred_identity. simpl. apply Z.gcd_1_r. }
  rewrite Hred.
  destruct (Qeq_bool (inject_Z z) 0) eqn:E0.
  - apply Qeq_bool_iff in E0. unfold Qeq in E0. simpl in E0.
    rewrite Z.mul_1_r in E0. now subst z.
  - apply Qeq_bool_neq in E0.
    assert (Hz0 : z <> 0) by (intros ->; apply E0; reflexivity).
    set (a := Z.abs z).
    assert (Ha : 0 < a) by (unfold a; lia).
    assert (Habs : Qabs (inject_Z z) = inject_Z a) by reflexivity.
    rewrite Habs.
    assert (Hb : binade (inject_Z a) = Z.log2 a).
    { unfold binade. cbn [Qnum Qden inject_Z]. change (Z.log2 1) with 0.
      rewrite Z.sub_0_r.
      assert (Hl : 0 <= Z.log2 a) by apply Z.log2_nonneg.
      assert (E : Qle_bool (pow2 (Z.log2 a)) (inject_Z a) = true).
      { apply Qle_bool_iff. rewrite (pow2_nonneg_power _ Hl), <- Zle_Qle.
        apply Z.log2_spec. exact Ha. }
      now rewrite E. }
    rewrite Hb.
    assert (Hl53 : Z.log2 a <= 53).
    { apply Z.log2_le_mono in Hz. rewrite Z.log2_pow2 in Hz by lia. exact Hz. }
    assert (Hl0 : 0 <= Z.log2 a) by apply Z.log2_nonneg.
    rewrite Z.max_l by lia.
    set (e := Z.log2 a - 52).
    assert (Hq : exists n, (inject_Z a / pow2 e == inject_Z n)%Q /\
                           (inject_Z n * pow2 e == inject_Z a)%Q).
    { destruct (Z.le_gt_cases e 0) as [He|He].
      - exists (a * 2 ^ (- e)).
        assert (Hp : (pow2 e == / inject_Z (2 ^ (- e)))%Q).
        { unfold pow2. replace e with (- (- e)) at 1 by lia.
          rewrite Qpower_opp. apply Qinv_comp.
          apply pow2_nonneg_power. lia. }
        assert (Hn0 : ~ (inject_Z (2 ^ (- e)) == 0)%Q).
        { unfold Qeq. simpl. rewrite Z.mul_1_r.
          pose proof (Z.pow_pos_nonneg 2 (- e)). lia. }
        split.
        + rewrite Hp, inject_Z_mult. field. exact Hn0.
        + rewrite Hp, inject_Z_mult. field. exact Hn0.
      - (* the only integer with 54 bits: 2^53 *)
        assert (He1 : e = 1) by (unfold e in *; lia).
        assert (Ha53 : a = 2 ^ 53).
        { assert (Hlog : Z.log2 a = 53) by (unfold e in *; lia).
          pose proof (Z.log2_spec a Ha) as Hs. rewrite Hlog in Hs. unfold a in *. lia. }
        exists (2 ^ 52). rewrite He1, Ha53. split; reflexivity. }
    destruct Hq as (n & Hn & Hback).
    assert (Hround : round_half_even (inject_Z a / pow2 e) = n).
    { assert (Hfl : Qfloor (inject_Z a / pow2 e) = n)
        by (rewrite (Qfloor_comp _ _ Hn); apply Qfloor_Z).
      unfold round_half_even. cbv zeta. rewrite Hfl.
      assert (E : (inject_Z a / pow2 e - inject_Z n ?= 1 # 2)%Q = Lt).
      { rewrite <- Qlt_alt. rewrite Hn. ring_simplify. reflexivity. }
      now rewrite E. }
    rewrite Hround.
    destruct (Qgtb 0 (inject_Z z)) eqn:Es.
    + apply Qgtb_true in Es.
      assert (Hzneg : z < 0).
      { unfold Qlt in Es. simpl in Es. lia. }
      assert (Heq : (- (inject_Z n * pow2 e) == inject_Z z)%Q).
      { rewrite Hback. unfold a. rewrite Z.abs_neq by lia.
        unfold Qeq. simpl. lia. }
      rewrite (Qred_complete _ _ Heq). exact Hred.
    + apply Qgtb_false in Es.
      assert (Hzpos : 0 <= z).
      { unfold Qle in Es. simpl in Es. lia. }
      assert (Heq : (inject_Z n * pow2 e == inject_Z z)%Q).
      { rewrite Hback. unfold a. now rewrite Z.abs_eq by lia. }
      rewrite (Qred_complete _ _ Heq). exact Hred.
Qed.

(** Rounding respects the equality of the rationals. *)
Lemma r64_comp x y : (x == y)%Q -> r64 x = r64 y.
Proof. intro H. unfold r64. now rewrite (Qred_complete _ _ H). Qed.

Lemma R64_comp x y : (x == y)%Q -> R64 x = R64 y.
Proof.
  intro H. unfold R64. rewrite (r64_comp _ _ H).
  assert (E : Qgtb 0 x = Qgtb 0 y) by (unfold Qgtb; now rewrite H).
  now rewrite E.
Qed.

Lemma R64_integer z : Z.abs z <= 2 ^ 53 -> R64 (inject_Z z) = Num (inject_Z z).
Proof.
  intro Hz. unfold R64. rewrite (r64_integer z Hz).
  assert (E : Qgtb (Qabs (inject_Z z)) max64 = false).
  { apply Qgtb_false. change (Qabs (inject_Z z)) with (inject_Z (Z.abs z)).
    unfold max64. rewrite <- Zle_Qle.
    apply Z.le_trans with (2 ^ 53); [exact Hz|]. vm_compute. discriminate. }
  now rewrite E.
Qed.

(** *** The magnitude of a rounded number *)

Lemma round_half_even_upper x : (inject_Z (round_half_even x) <= x + 1)%Q.
Proof.
  unfold round_half_even.
  pose proof (Qfloor_le x) as Hf.
  destruct (Qcompare _ _); [destruct (Z.even _)| |];
    rewrite ?inject_Z_plus; change (inject_Z 1) with 1%Q; lra.
Qed.

Lemma binade_lower a : (0 < a)%Q -> (pow2 (binade a) <= a)%Q.
Proof.
  intro Ha. unfold binade.
  set (k := Z.log2 (Qnum a) - Z.log2 (Zpos (Qden a))).
  destruct (Qle_bool (pow2 k) a) eqn:E; [now apply Qle_bool_iff|].
  destruct a as [n d]. cbn [Qnum Qden] in *.
  assert (Hn : 0 < n) by (unfold Qlt in Ha; simpl in Ha; lia).
  pose proof (Z.log2_spec n Hn) as [Hn1 _].
  pose proof (Z.log2_spec (Zpos d) (Pos2Z.is_pos d)) as [_ Hd2].
  pose proof (Z.log2_nonneg n) as Hln.
  pose proof (Z.log2_nonneg (Zpos d)) as Hld.
  assert (Hk : (pow2 (k - 1) ==
                inject_Z (2 ^ Z.log2 n) / inject_Z (2 ^ (Z.log2 (Zpos d) + 1)))%Q).
  { unfold pow2. replace (k - 1) with (Z.log2 n - (Z.log2 (Zpos d) + 1)) by (unfold k; lia).
    rewrite Qpower_minus by discriminate.
    rewrite <- !pow2_nonneg_power by lia. reflexivity. }
  rewrite Hk.
  assert (Hp : (0 < inject_Z (2 ^ (Z.log2 (Zpos d) + 1)))%Q).
  { change 0%Q with (inject_Z 0). rewrite <- Zlt_Qlt. lia. }
  apply Qle_shift_div_r; [exact Hp|].
  unfold Qle, Qmult, inject_Z. cbn [Qnum Qden].
  set (A := 2 ^ Z.log2 n) in *. set (B := 2 ^ (Z.log2 (Zpos d) + 1)) in *.
  rewrite Pos.mul_1_r, Z.mul_1_r.
  assert (0 < A) by (unfold A; apply Z.pow_pos_nonneg; lia).
  nia.
Qed.

(** Rounding at most doubles a magnitude, up to one. *)
Lemma r64_bound x : (Qabs (r64 x) <= 2 * Qabs x + 1)%Q.
Proof.
  unfold r64.
  assert (Hx : (Qabs (Qred x) == Qabs x)%Q) by (apply Qabs_wd, Qred_correct).
  rewrite <- Hx. set (y := Qred x).
  destruct (Qeq_bool y 0) eqn:E0.
  - pose proof (Qabs_nonneg y). change (Qabs 0) with 0%Q. lra.
  - apply Qeq_bool_neq in E0.
    set (a := Qabs y).
    assert (Ha : (0 < a)%Q).
    { pose proof (Qabs_nonneg y) as Hn. apply Qle_lt_or_eq in Hn.
      destruct Hn as [Hn|Hn]; [exact Hn|].
      exfalso. apply E0. symmetry in Hn. unfold a in Hn.
      pose proof (Qle_Qabs y) as H1. pose proof (Qle_Qabs (- y)) as H2.
      rewrite Qabs_opp in H2. lra. }
    set (e := Z.max (binade a - 52) (-1074)).
    pose proof (r64_magnitude_nonneg y e) as Hm. fold a in Hm.
    set (m := round_half_even (a / pow2 e)) in *.
    assert (Habs : (Qabs (Qred (if Qgtb 0 y then - (inject_Z m * pow2 e)
                                else inject_Z m * pow2 e)) ==
                    inject_Z m * pow2 e)%Q).
    { rewrite (Qabs_wd _ _ (Qred_correct _)).
      destruct (Qgtb 0 y); [rewrite Qabs_opp|]; now apply Qabs_pos. }
    rewrite Habs.
    pose proof (pow2_pos e) as He.
    assert (Hup : (inject_Z m * pow2 e <= a + pow2 e)%Q).
    { pose proof (round_half_even_upper (a / pow2 e)) as Hr. fold m in Hr.
      apply Qle_trans with ((a / pow2 e + 1) * pow2 e)%Q.
      - apply Qmult_le_compat_r; [exact Hr|lra].
      - apply Qle_lteq. right. field. lra. }
    assert (Hpe : (pow2 e <= a + 1)%Q).
    { unfold e. destruct (Z.max_spec (binade a - 52) (-1074)) as [[_ ->]|[_ ->]].
      - apply Qle_trans with 1%Q; [discriminate|lra].
      - apply Qle_trans with (pow2 (binade a)).
        + unfold pow2. apply Qpower_le_compat_l; [lia|discriminate].
        + pose proof (binade_lower a Ha). lra. }
    lra.
Qed.

Open Scope Q_scope.

Lemma R64_finite x : Qabs x <= 1000 -> R64 x = Num (r64 x).
Proof.
  intro H. unfold R64. cbv zeta.
  assert (E : Qgtb (Qabs (r64 x)) max64 = false).
  { apply Qgtb_false. pose proof (r64_bound x).
    apply Qle_trans with 2001; [lra|]. unfold Qle. vm_compute. discriminate. }
  now rewrite E.
Qed.

Lemma R64_within x b : Qabs x <= b -> b <= 1000 -> within (2 * b + 1) (R64 x).
Proof.
  intros H Hb. rewrite R64_finite by lra. simpl.
  pose proof (r64_bound x). lra.
Qed.

Lemma add_within x y a b :
  within a x -> within b y -> a + b <= 1000 -> within (2 * (a + b) + 1) (x + y)%js.
Proof.
  destruct x as [| |p], y as [| |q]; simpl; try tauto. intros Hp Hq Hb.
  unfold Js.add. apply R64_within; [|exact Hb].
  eapply Qle_trans; [apply Qabs_triangle|]. lra.
Qed.

Lemma sub_within x y a b :
  within a x -> within b y -> a + b <= 1000 -> within (2 * (a + b) + 1) (x - y)%js.
Proof.
  intros Hx Hy. unfold Js.sub. apply add_within; [exact Hx|].
  destruct y; cbn [within Js.opp] in *; try tauto. now rewrite Qabs_opp.
Qed.

Lemma mul_within x y a b :
  within a x -> within b y -> a * b <= 1000 -> within (2 * (a * b) + 1) (x * y)%js.
Proof.
  destruct x as [| |p], y as [| |q]; simpl; try tauto. intros Hp Hq Hb.
  unfold Js.mul. apply R64_within; [|exact Hb].
  rewrite Qabs_Qmult.
  apply Qle_trans with (a * Qabs q).
  - apply Qmult_le_compat_r; [exact Hp|apply Qabs_nonneg].
  - pose proof (Qabs_nonneg p) as H0.
    assert (0 <= a) by lra.
    rewrite !(Qmult_comm a). apply Qmult_le_compat_r; assumption.
Qed.

Lemma lit_finite c : Qabs c <= 1000 -> lit c = Num (r64 c).
Proof. apply R64_finite. Qed.

Lemma lit_within c : 0 <= c <= 1 -> within 3 (lit c).
Proof.
  intros [H0 H1]. rewrite lit_finite by (rewrite Qabs_pos; lra).
  cbn [within]. pose proof (r64_bound c) as H. rewrite (Qabs_pos c) in H; lra.
Qed.

Lemma within_number b x : within b x -> exists q, x = Num q.
Proof. destruct x; simpl; try tauto. eauto. Qed.

Lemma mul_NaN_r x : (x * NaN)%js = NaN.
Proof. now destruct x. Qed.

Lemma max_NaN_r x : Js.max x NaN = NaN.
Proof. now destruct x. Qed.


(** *** Factors and clamps *)

(** The factor [Math.min(x / c, cap)] of a number that is not negative. *)
Lemma factor_within (x c cap : Q) :
  0 <= x -> 0 < c -> 0 <= cap ->
  exists f, Js.min (Num x / Num c) (Num cap) = Num f /\ 0 <= f <= cap.
Proof.
  intros Hx Hc Hcap. unfold Js.div.
  assert (E : Qeq_bool c 0 = false).
  { destruct (Qeq_bool c 0) eqn:E; [|reflexivity].
    apply Qeq_bool_iff in E. lra. }
  rewrite E. unfold R64. cbv zeta.
  assert (Hd : 0 <= x / c) by (apply Qle_shift_div_l; lra).
  pose proof (r64_nonneg _ Hd) as Hr.
  destruct (Qgtb (Qabs (r64 (x / c))) max64).
  - assert (Es : Qgtb 0 (x / c) = false) by now apply Qgtb_false.
    rewrite Es. exists cap. split; [reflexivity|]. split; [exact Hcap|apply Qle_refl].
  - cbn [Js.min Js.gt]. destruct (Qgtb (r64 (x / c)) cap) eqn:Eg.
    + exists cap. split; [reflexivity|]. split; [exact Hcap|apply Qle_refl].
    + exists (r64 (x / c)). split; [reflexivity|]. split; [exact Hr|].
      now apply Qgtb_false.
Qed.

Lemma clamp_range (x : JsNum) (lo : Q) :
  lo <= 1 ->
  Js.max (Num lo) (Js.min 1 x) = NaN \/
  exists q, Js.max (Num lo) (Js.min 1 x) = Num q /\ lo <= q <= 1.
Proof.
  intro Hlo. destruct x as [|[|]|s]; cbn [Js.min Js.max Js.gt negb andb].
  - now left.
  - right. exists lo. split; [reflexivity|]. split; [apply Qle_refl|exact Hlo].
  - right. destruct (Qgtb 1 lo) eqn:E.
    + exists 1. split; [reflexivity|]. split; [exact Hlo|apply Qle_refl].
    + exists lo. split; [reflexivity|]. split; [apply Qle_refl|exact Hlo].
  - right. destruct (Qgtb 1 s) eqn:E1; cbn [Js.gt].
    + destruct (Qgtb s lo) eqn:E2.
      * exists s. split; [reflexivity|]. apply Qgtb_true in E1, E2. lra.
      * exists lo. split; [reflexivity|]. split; [apply Qle_refl|exact Hlo].
    + destruct (Qgtb 1 lo) eqn:E2.
      * exists 1. split; [reflexivity|]. split; [exact Hlo|apply Qle_refl].
      * exists lo. split; [reflexivity|]. split; [apply Qle_refl|exact Hlo].
Qed.

Lemma clamp_number (s lo : Q) :
  lo <= 1 -> exists q, Js.max (Num lo) (Js.min 1 (Num s)) = Num q /\ lo <= q <= 1.
Proof.
  intro Hlo. destruct (clamp_range (Num s) lo Hlo) as [H|H]; [|exact H].
  exfalso. revert H. cbn [Js.min Js.max Js.gt].
  destruct (Qgtb 1 s); cbn [Js.gt]; destruct (Qgtb _ _); discriminate.
Qed.


Close Scope Q_scope.

(** *** The order of the numbers *)

(** A number that is greater than some number is above [-Infinity]. *)
Lemma gt_above x b : Js.gt x b = true -> Js.gt x (Infinity true) = true.
Proof. destruct x as [|[|]|p], b as [|[|]|q]; simpl; auto. Qed.

(** What is not greater than [b] is not greater than what is greater than
    [b], and is not the same number. *)
Lemma gt_not_gt x b e :
  Js.gt x b = true -> Js.gt e b = false -> Js.gt e x = false.
Proof.
  destruct x as [|[|]|p], b as [|[|]|q], e as [|[|]|r]; simpl; auto;
    try discriminate.
  rewrite Qgtb_true, !Qgtb_false. intros. lra.
Qed.

Lemma gt_not_same x b e :
  Js.gt x b = true -> Js.gt e b = false -> ~ Js.same e x.
Proof.
  destruct x as [|[|]|p], b as [|[|]|q], e as [|[|]|r]; simpl; auto;
    try discriminate.
  rewrite Qgtb_true, Qgtb_false. intros. lra.
Qed.

Lemma same_refl x : Js.same x x.
Proof. destruct x; simpl; auto. reflexivity. Qed.

Lemma gt_irrefl x : Js.gt x x = false.
Proof.
  destruct x as [|[|]|p]; simpl; auto. apply Qgtb_false. apply Qle_refl.
Qed.


(** *** Finite numbers and their numerals *)

Lemma Math_max_lower (x y : Q) : (x <= Math_max x y)%Q.
Proof.
  unfold Math_max. destruct (Qle_bool x y) eqn:E.
  - now apply Qle_bool_iff.
  - apply Qle_refl.
Qed.

Lemma Math_max_of_le (x y : Q) : (y <= x)%Q -> (Math_max x y == x)%Q.
Proof.
  intro H. unfold Math_max. destruct (Qle_bool x y) eqn:E.
  - apply Qle_bool_iff in E. now apply Qle_antisym.
  - reflexivity.
Qed.

Lemma pow10_pos (d : nat) : 0 < pow10 d.
Proof. unfold pow10. apply Z.pow_pos_nonneg; lia. Qed.

Lemma toFixed_units_nonneg (x : Q) (d : nat) : 0 <= f_units (toFixed x d).
Proof.
  unfold toFixed; simpl.
  assert (H : (0 <= Qabs x * inject_Z (pow10 d) + (1 # 2))%Q).
  { apply Qle_trans with (Qabs x * inject_Z (pow10 d) + 0)%Q.
    - rewrite Qplus_0_r. apply Qmult_le_0_compat.
      + apply Qabs_nonneg.
      + change 0%Q with (inject_Z 0). rewrite <- Zle_Qle.
        pose proof (pow10_pos d). lia.
    - apply Qplus_le_r. discriminate. }
  apply Qfloor_resp_le in H. exact H.
Qed.

Section TableFacts.
Context {V : Type}.
Implicit Types (m : list (string * V)) (k : string).

Lemma map_get_update k f m :
  map_get k (map_update k f m) = option_map f (map_get k m).
Proof.
  induction m as [|[k' v] m IH]; simpl; [reflexivity|].
  destruct (String.eqb k k') eqn:E; simpl; rewrite E; auto.
Qed.

Lemma map_get_update_other k k' f m :
  k <> k' -> map_get k (map_update k' f m) = map_get k m.
Proof.
  intro Hne. induction m as [|[k'' v] m IH]; simpl; [reflexivity|].
  destruct (String.eqb k' k'') eqn:E; simpl.
  - apply String.eqb_eq in E; subst k''.
    destruct (String.eqb k k') eqn:E'; [|reflexivity].
    apply String.eqb_eq in E'. contradiction.
  - destruct (String.eqb k k''); auto.
Qed.

Lemma map_get_set k v m : map_get k (map_set k v m) = Some v.
Proof.
  induction m as [|[k' v'] m IH]; simpl.
  - now rewrite String.eqb_refl.
  - destruct (String.eqb k k') eqn:E; simpl; rewrite E; auto.
Qed.

Lemma map_update_keys k f m : map fst (map_update k f m) = map fst m.
Proof.
  induction m as [|[k' v] m IH]; simpl; [reflexivity|].
  destruct (String.eqb k k'); simpl; congruence.
Qed.

Lemma map_get_In k v m : map_get k m = Some v -> In (k, v) m.
Proof.
  induction m as [|[k' v'] m IH]; simpl; [discriminate|].
  destruct (String.eqb k k') eqn:E.
  - apply String.eqb_eq in E. subst. intros [= ->]. now left.
  - intro H. right. auto.
Qed.

(** Every entry after an update is an old entry, or the image of one. *)
Lemma In_map_update k f m e :
  In e (map_update k f m) ->
  In e m \/ exists v, In (fst e, v) m /\ snd e = f v /\ fst e = k.
Proof.
  induction m as [|[k' v] m IH]; simpl; [tauto|].
  destruct (String.eqb k k') eqn:E; simpl.
  - apply String.eqb_eq in E. subst k'. intros [<-|H]; [|tauto].
    right. exists v. simpl. auto.
  - intros [<-|H]; [tauto|].
    destruct (IH H) as [H'|(v' & H1 & H2 & H3)]; [tauto|].
    right. exists v'. auto.
Qed.

(** A property all entries have is kept by an update that keeps it. *)
Lemma Forall_map_update (P : string * V -> Prop) k f m :
  (forall k' v, P (k', v) -> P (k', f v)) ->
  Forall P m -> Forall P (map_update k f m).
Proof.
  intros Hf. induction 1 as [|[k' v] m Hx Hm IH]; simpl; [constructor|].
  destruct (String.eqb k k'); constructor; auto.
Qed.
End TableFacts.

Lemma Number_scaled n d :
  (Qmake n (Z.to_pos (pow10 d)) * inject_Z (pow10 d) == inject_Z n)%Q.
Proof.
  pose proof (pow10_pos d) as Hp.
  unfold Qeq, Qmult, inject_Z. cbn [Qnum Qden].
  rewrite Pos.mul_1_r, Z.mul_1_r. rewrite Z2Pos.id by exact Hp. ring.
Qed.

(** The number read back from [x.toFixed(d)] is within half a unit of the
    last digit of [x]. *)
Lemma toFixed_close x d :
  (Qabs (Number (toFixed x d) - x) * inject_Z (pow10 d) <= 1 # 2)%Q.
Proof.
  pose proof (pow10_pos d) as Hp.
  assert (HP : (0 < inject_Z (pow10 d))%Q).
  { change 0%Q with (inject_Z 0). now rewrite <- Zlt_Qlt. }
  set (P := inject_Z (pow10 d)) in *.
  set (n := Qfloor (Qabs x * P + (1 # 2))).
  assert (Hlo : (inject_Z n <= Qabs x * P + (1 # 2))%Q) by apply Qfloor_le.
  assert (Hhi : (Qabs x * P + (1 # 2) < inject_Z (n + 1))%Q) by apply Qlt_floor.
  rewrite inject_Z_plus in Hhi.
  assert (Hv : (Qmake n (Z.to_pos (pow10 d)) * P == inject_Z n)%Q)
    by apply Number_scaled.
  set (v := Qmake n (Z.to_pos (pow10 d))) in *.
  assert (Habs : (Qabs (Number (toFixed x d) - x) == Qabs (v - Qabs x))%Q).
  { assert (Hnum : Number (toFixed x d) = if Qgtb 0 x then Qopp v else v)
      by reflexivity.
    rewrite Hnum. destruct (Qgtb 0 x) eqn:E.
    - apply Qgtb_true in E.
      assert (Hx : (Qabs x == - x)%Q) by (apply Qabs_neg; now apply Qlt_le_weak).
      apply Qeq_trans with (Qabs (v - - x)).
      + rewrite <- (Qabs_opp (v - - x)). apply Qabs_wd. ring.
      + apply Qabs_wd. rewrite Hx. reflexivity.
    - apply Qgtb_false in E.
      assert (Hx : (Qabs x == x)%Q) by (apply Qabs_pos; exact E).
      apply Qabs_wd. rewrite Hx. reflexivity. }
  rewrite Habs.
  assert (HPabs : (Qabs P == P)%Q) by (apply Qabs_pos; now apply Qlt_le_weak).
  apply Qle_trans with (Qabs ((v - Qabs x) * P)).
  { rewrite Qabs_Qmult, HPabs. apply Qle_refl. }
  apply Qabs_Qle_condition.
  assert (E : ((v - Qabs x) * P == inject_Z n - Qabs x * P)%Q)
    by (rewrite <- Hv; ring).
  rewrite E. change (inject_Z 1) with 1%Q in Hhi.
  set (y := (Qabs x * P)%Q) in *. set (z := inject_Z n) in *.
  split; lra.
Qed.

(** * Facts about [src/dca-api.js] *)

Module DcaFacts.

Import DcaApi DcaProps.
Open Scope Q_scope.

Lemma scan_snoc c l x : scan c (l ++ [x]) = scan_step c (scan c l) x.
Proof. unfold scan. now rewrite fold_left_app. Qed.

Lemma sorted_snoc (l : list (string * DCA)) x :
  ids_ascending (l ++ [x]) -> ids_ascending l /\ Forall (fun e => id_before e x) l.
Proof.
  unfold ids_ascending. induction l as [|a l IH]; simpl; intro H.
  - split; constructor.
  - inversion H as [|? ? Hs Hf]; subst.
    destruct (IH Hs) as [Hl Hx]. split.
    + constructor; [exact Hl|].
      apply Forall_app in Hf. tauto.
    + constructor; [|exact Hx].
      apply Forall_app in Hf. destruct Hf as [_ Hf]. now inversion Hf.
Qed.

Lemma eligible_dec d : (currentLoad d >=? capacity d)%Z = false <-> eligible d.
Proof. unfold eligible. rewrite Z.geb_leb, Z.leb_gt. tauto. Qed.

Lemma scan_scanned c l : ids_ascending l -> scanned c l (scan c l).
Proof.
  induction l as [|x l IH] using rev_ind; intro Hs.
  - simpl. split; [reflexivity|]. intros e [].
  - apply sorted_snoc in Hs. destruct Hs as [Hl Hx].
    specialize (IH Hl). rewrite scan_snoc. unfold scan_step.
    rewrite Forall_forall in Hx.
    destruct (currentLoad (snd x) >=? capacity (snd x))%Z eqn:Hcap.
    + (* [x] is at capacity: skipped *)
      assert (Hne : ~ eligible (snd x)).
      { intro He. apply eligible_dec in He. congruence. }
      unfold scanned in *. destruct (bestDCA (scan c l)) as [b|].
      * destruct IH as (Hin & Hel & Hsc & Hbs & Hall).
        split; [apply in_or_app; now left|]. split; [exact Hel|].
        split; [exact Hsc|]. split; [exact Hbs|].
        intros e He Hee. apply in_app_or in He. destruct He as [He|[<-|[]]].
        -- now apply Hall.
        -- contradiction.
      * destruct IH as (Hbs & Hall). split; [exact Hbs|].
        intros e He Hee. apply in_app_or in He. destruct He as [He|[<-|[]]].
        -- now apply Hall.
        -- contradiction.
    + apply eligible_dec in Hcap.
      destruct (Js.gt (finalScore c (snd x)) (bestScore (scan c l))) eqn:Hgt.
      * (* [x] scores strictly more than the best so far *)
        unfold scanned; simpl.
        split; [apply in_or_app; right; now left|].
        split; [exact Hcap|]. split; [exact (gt_above _ _ Hgt)|].
        split; [reflexivity|].
        intros e He Hee. apply in_app_or in He. destruct He as [He|[<-|[]]].
        -- assert (Hnot : Js.gt (finalScore c (snd e)) (bestScore (scan c l)) = false).
           { unfold scanned in IH. destruct (bestDCA (scan c l)) as [b|].
             - destruct IH as (_ & _ & _ & Hbs & Hall). rewrite Hbs. now apply Hall.
             - destruct IH as (Hbs & Hall). rewrite Hbs.
               specialize (Hall e He Hee). unfold scores in Hall.
               now destruct (Js.gt _ _). }
           split; [exact (gt_not_gt _ _ _ Hgt Hnot)|].
           intro Hsame. exfalso. exact (gt_not_same _ _ _ Hgt Hnot Hsame).
        -- split; [apply gt_irrefl|]. intros _. now left.
      * (* the best so far stays *)
        unfold scanned in *; simpl.
        destruct (bestDCA (scan c l)) as [b|].
        -- destruct IH as (Hin & Hel & Hsc & Hbs & Hall).
           split; [apply in_or_app; now left|]. split; [exact Hel|].
           split; [exact Hsc|]. split; [exact Hbs|].
           intros e He Hee. apply in_app_or in He. destruct He as [He|[<-|[]]].
           ++ now apply Hall.
           ++ rewrite Hbs in Hgt. split; [exact Hgt|]. intros _. right. now apply Hx.
        -- destruct IH as (Hbs & Hall). split; [exact Hbs|].
           intros e He Hee. apply in_app_or in He. destruct He as [He|[<-|[]]].
           ++ now apply Hall.
           ++ unfold scores. rewrite Hbs in Hgt. rewrite Hgt. discriminate.
Qed.

(** The best score is the final score of the best agent. *)
Lemma scan_best_score c l e :
  bestDCA (scan c l) = Some e -> bestScore (scan c l) = finalScore c (snd e).
Proof.
  induction l as [|x l IH] using rev_ind; [discriminate|].
  rewrite scan_snoc. unfold scan_step.
  destruct (currentLoad (snd x) >=? capacity (snd x))%Z; [exact IH|].
  destruct (Js.gt _ _); simpl.
  - now intros [= <-].
  - exact IH.
Qed.

(** The candidate list has one element for each agent with room, in the
    order of the table. *)
Lemma scan_candidates c l :
  candidateDetails (scan c l) = map (fun e => candidate c (snd e)) (filter has_room l).
Proof.
  induction l as [|x l IH] using rev_ind; [reflexivity|].
  rewrite scan_snoc, filter_app, map_app. unfold scan_step. simpl. unfold has_room at 2.
  destruct (currentLoad (snd x) >=? capacity (snd x))%Z; simpl.
  - now rewrite app_nil_r.
  - destruct (Js.gt _ _); simpl; now rewrite IH.
Qed.

(** *** What [allocateCaseIntelligently] does in each case *)

Lemma allocate_found id now st c key best :
  map_get id (caseRegistry st) = Some c ->
  bestDCA (scan c (dcaProfiles st)) = Some (key, best) ->
  allocateCaseIntelligently id now st =
  Some {| caseRegistry :=
            map_update id
              (allocated_case best (finalScore c best)
                 (candidateDetails (scan c (dcaProfiles st))) now)
              (caseRegistry st);
          dcaProfiles := map_update key (reserve id) (dcaProfiles st);
          caseIdCounter := caseIdCounter st |}.
Proof.
  intros Hc Hb. unfold allocateCaseIntelligently. rewrite Hc. cbv zeta.
  rewrite (scan_best_score _ _ _ Hb), Hb. reflexivity.
Qed.

Lemma allocate_not_found id now st c :
  map_get id (caseRegistry st) = Some c ->
  bestDCA (scan c (dcaProfiles st)) = None ->
  allocateCaseIntelligently id now st = Some st.
Proof.
  intros Hc Hb. unfold allocateCaseIntelligently. rewrite Hc. simpl.
  now rewrite Hb.
Qed.

(** Without a best agent the best score is still [-Infinity]. *)
Lemma scan_none_score c l :
  bestDCA (scan c l) = None -> bestScore (scan c l) = Infinity true.
Proof.
  induction l as [|y l IH] using rev_ind; [reflexivity|].
  rewrite scan_snoc. unfold scan_step.
  destruct (currentLoad (snd y) >=? capacity (snd y))%Z; [exact IH|].
  destruct (Js.gt _ _); simpl; [discriminate|exact IH].
Qed.

(** No agent is found exactly when no agent with room scores. *)
Lemma scan_none c l :
  bestDCA (scan c l) = None <->
  (forall e, In e l -> eligible (snd e) -> ~ scores c (snd e)).
Proof.
  split.
  - induction l as [|x l IH] using rev_ind; intros Hn e He Hel; [destruct He|].
    rewrite scan_snoc in Hn. unfold scan_step in Hn.
    destruct (currentLoad (snd x) >=? capacity (snd x))%Z eqn:Hcap.
    + apply in_app_or in He. destruct He as [He|[<-|[]]]; [now apply IH|].
      apply eligible_dec in Hel. congruence.
    + destruct (Js.gt _ _) eqn:Hgt; simpl in Hn; [discriminate|].
      apply in_app_or in He. destruct He as [He|[<-|[]]]; [now apply IH|].
      unfold scores. rewrite (scan_none_score c l Hn) in Hgt.
      rewrite Hgt. discriminate.
  - intro H. induction l as [|x l IH] using rev_ind; [reflexivity|].
    assert (Hl : bestDCA (scan c l) = None).
    { apply IH. intros e He. apply H, in_or_app. now left. }
    pose proof (scan_none_score c l Hl) as Hb.
    rewrite scan_snoc. unfold scan_step.
    destruct (currentLoad (snd x) >=? capacity (snd x))%Z eqn:Hcap; [exact Hl|].
    apply eligible_dec in Hcap. rewrite Hb.
    destruct (Js.gt _ _) eqn:Hgt; simpl; [|exact Hl].
    exfalso. apply (H x); [apply in_or_app; right; now left|exact Hcap|exact Hgt].
Qed.

(** *** The agents of the table never change *)

Lemma agent_write_dcaId f d : agent_write f -> dcaId (f d) = dcaId d.
Proof. now destruct 1. Qed.

Lemma evolves_same_agents l l' : evolves l l' -> same_agents l -> same_agents l'.
Proof.
  unfold same_agents. induction 1 as [|l' k f Hev IH Hw]; intro Hs; [exact Hs|].
  rewrite <- (IH Hs). clear - Hw.
  induction l' as [|[k' d] l' IHl]; simpl; [reflexivity|].
  destruct (String.eqb k k'); simpl; [|now rewrite IHl].
  now rewrite (agent_write_dcaId _ _ Hw).
Qed.

Lemma same_agents_ascending l : same_agents l -> ids_ascending l.
Proof.
  unfold same_agents, dcaProfiles0. intro H.
  destruct l as [|[k1 d1] [|[k2 d2] [|[k3 d3] [|[k4 d4] [|? ?]]]]]; try discriminate H.
  simpl in H. injection H as -> E1 -> E2 -> E3 -> E4.
  unfold ids_ascending, id_before.
  repeat (constructor; simpl; rewrite ?E1, ?E2, ?E3, ?E4; try reflexivity).
Qed.

Lemma evolves_trans l1 l2 l3 : evolves l1 l2 -> evolves l2 l3 -> evolves l1 l3.
Proof. induction 2; [assumption|]. now constructor. Qed.

Lemma sla_visit_evolves now c dcas :
  evolves dcas (snd (fst (sla_visit now c dcas))).
Proof.
  unfold sla_visit. destruct (Status_eqb _ _); [constructor|].
  destruct (slaDeadlines c); [|constructor]. simpl.
  destruct (now >? _)%Z; [|constructor].
  destruct (allocatedDCA c); repeat constructor.
Qed.

Lemma sla_loop_evolves now cs dcas :
  evolves dcas (snd (fst (sla_loop now cs dcas))).
Proof.
  revert dcas. induction cs as [|[k c] cs IH]; intro dcas; simpl; [constructor|].
  pose proof (sla_visit_evolves now c dcas) as Hv.
  destruct (sla_visit now c dcas) as [[c' dcas1] e]. simpl in Hv.
  specialize (IH dcas1).
  destruct (sla_loop now cs dcas1) as [[cs'' dcas2] es]. simpl in *.
  eapply evolves_trans; eauto.
Qed.

Lemma on_case_dcas session id st f (P : list (string * DCA) -> Prop) :
  P (dcaProfiles st) ->
  (forall s c, map_get id (caseRegistry st) = Some c -> P (dcaProfiles (f s c st))) ->
  P (dcaProfiles (snd (on_case session id st f))).
Proof.
  intros H0 Hf. unfold on_case. destruct session as [s|]; [|exact H0].
  destruct (map_get id (caseRegistry st)) as [c|] eqn:Hc; [|exact H0].
  specialize (Hf s c eq_refl).
  destruct (map_get id (caseRegistry (f s c st))); exact Hf.
Qed.

Lemma allocate_evolves id now st st' :
  allocateCaseIntelligently id now st = Some st' ->
  evolves (dcaProfiles st) (dcaProfiles st').
Proof.
  unfold allocateCaseIntelligently.
  destruct (map_get id (caseRegistry st)) as [c|]; [|discriminate]. simpl.
  destruct (bestDCA _) as [[key best]|]; intros [= <-]; simpl; repeat constructor.
Qed.

Lemma step_evolves st st' : step st st' -> evolves (dcaProfiles st) (dcaProfiles st').
Proof.
  destruct 1.
  - unfold ingest. destruct session as [s|]; [|constructor].
    destruct (session_role s); try constructor.
    destruct (allocateCaseIntelligently _ _ _) as [st2|] eqn:Ha; simpl; [|constructor].
    apply allocate_evolves in Ha. exact Ha.
  - unfold interaction.
    apply (on_case_dcas _ _ _ _ (evolves (dcaProfiles st))); intros; constructor.
  - unfold document. destruct (body_content b) as [content|].
    + apply (on_case_dcas _ _ _ _ (evolves (dcaProfiles st))); intros; constructor.
    + destruct session; [|constructor].
      destruct (map_get id (caseRegistry st)); constructor.
  - unfold escalate.
    apply (on_case_dcas _ _ _ _ (evolves (dcaProfiles st))); intros; constructor.
  - unfold resolve.
    apply (on_case_dcas _ _ _ _ (evolves (dcaProfiles st))); [constructor|].
    intros s c Hc. simpl.
    destruct (allocatedDCA c); [|constructor].
    destruct (truthy_amount _); repeat constructor.
  - unfold slaStatus. destruct session; [|constructor].
    pose proof (sla_loop_evolves now (caseRegistry st) (dcaProfiles st)) as H.
    destruct (sla_loop _ _ _) as [[cs dcas] es]. exact H.
Qed.

Lemma reachable_evolves st : reachable st -> evolves dcaProfiles0 (dcaProfiles st).
Proof.
  induction 1 as [|st st' _ IH Hs]; [constructor|].
  eapply evolves_trans; [exact IH|]. now apply step_evolves.
Qed.

(** In every state of the server the agents are visited in ascending order of
    their identifiers. *)
Lemma reachable_ascending st : reachable st -> ids_ascending (dcaProfiles st).
Proof.
  intro H. apply same_agents_ascending.
  apply (evolves_same_agents dcaProfiles0); [now apply reachable_evolves|reflexivity].
Qed.

(** *** The agent that is found has room *)

Lemma scan_best_has_room c l e :
  bestDCA (scan c l) = Some e -> In e l /\ eligible (snd e).
Proof.
  induction l as [|x l IH] using rev_ind; [discriminate|].
  rewrite scan_snoc. unfold scan_step.
  destruct (currentLoad (snd x) >=? capacity (snd x))%Z eqn:Hcap.
  - intro H. destruct (IH H). split; [apply in_or_app; now left|assumption].
  - apply eligible_dec in Hcap. destruct (Js.gt _ _); simpl.
    + intros [= <-]. split; [apply in_or_app; right; now left|exact Hcap].
    + intro H. destruct (IH H). split; [apply in_or_app; now left|assumption].
Qed.

Lemma has_room_eligible e : has_room e = true <-> eligible (snd e).
Proof. unfold has_room. rewrite negb_true_iff. apply eligible_dec. Qed.

(** *** The classifier *)

Lemma assessRisk_tier amount age : riskKey (assessRisk amount age) = Spec.tier amount age.
Proof.
  unfold assessRisk, Spec.tier.
  destruct (Js.gt amount 100000 || Js.gt age 180); [reflexivity|].
  destruct (Js.gt amount 50000 || Js.gt age 120); [reflexivity|].
  destruct (Js.gt amount 20000 || Js.gt age 60); reflexivity.
Qed.

Lemma assessRisk_range amount age : (assessRisk amount age < 4)%nat.
Proof.
  unfold assessRisk.
  destruct (Js.gt amount 100000 || Js.gt age 180); [lia|].
  destruct (Js.gt amount 50000 || Js.gt age 120); [lia|].
  destruct (Js.gt amount 20000 || Js.gt age 60); lia.
Qed.

(** *** Ingestion *)

Lemma ingest_registered_case email b noise now st :
  map_get (new_caseId (caseIdCounter st + 1))
    (caseRegistry (ingest_registered email b noise now st))
  = Some (newCase (new_caseId (caseIdCounter st + 1)) email b noise now).
Proof. unfold ingest_registered. simpl. apply map_get_set. Qed.

(** *** The entries of the SLA status *)

Lemma sla_loop_entries now cs dcas e :
  In e (snd (sla_loop now cs dcas)) ->
  exists k c dl,
    In (k, c) cs /\ status c <> RESOLVED /\ slaDeadlines c = Some dl /\
    entry_caseId e = caseId c /\ entry_slaDeadlines e = dl /\
    breached e = (now >? resolution dl)%Z /\
    hoursRemaining e = hours_remaining (resolution dl) now.
Proof.
  revert dcas. induction cs as [|[k c] cs IH]; intro dcas; simpl; [intros []|].
  destruct (sla_visit now c dcas) as [[c' dcas1] oe] eqn:Hv.
  specialize (IH dcas1).
  destruct (sla_loop now cs dcas1) as [[cs'' dcas2] es]. simpl in *.
  assert (Hrest : In e es -> exists k0 c0 dl,
    ((k, c) = (k0, c0) \/ In (k0, c0) cs) /\ status c0 <> RESOLVED /\
    slaDeadlines c0 = Some dl /\ entry_caseId e = caseId c0 /\
    entry_slaDeadlines e = dl /\ breached e = (now >? resolution dl)%Z /\
    hoursRemaining e = hours_remaining (resolution dl) now).
  { intro H. destruct (IH H) as (k0 & c0 & dl & Hin & Hrest).
    exists k0, c0, dl. tauto. }
  destruct oe as [x|]; [|exact Hrest].
  intros [<-|H]; [|now apply Hrest].
  unfold sla_visit in Hv.
  destruct (Status_eqb (status c) RESOLVED) eqn:Hst; [discriminate|].
  destruct (slaDeadlines c) as [dl|] eqn:Hdl; [|discriminate].
  injection Hv as _ _ <-. exists k, c, dl. simpl.
  repeat split; auto.
  intro Heq. rewrite Heq in Hst. discriminate.
Qed.

(** Every case that is not RESOLVED and has deadlines gets an entry. *)
Lemma sla_loop_reports now cs dcas k c dl :
  In (k, c) cs -> status c <> RESOLVED -> slaDeadlines c = Some dl ->
  exists e,
    In e (snd (sla_loop now cs dcas)) /\
    entry_caseId e = caseId c /\ breached e = (now >? resolution dl)%Z.
Proof.
  intros Hin Hst Hdl. revert dcas.
  induction cs as [|[k0 c0] cs IH]; intro dcas; [destruct Hin|].
  simpl. destruct (sla_visit now c0 dcas) as [[c' dcas1] oe] eqn:Hv.
  destruct Hin as [[= -> ->]|Hin].
  - unfold sla_visit in Hv. rewrite Hdl in Hv.
    assert (E : Status_eqb (status c) RESOLVED = false)
      by (destruct (status c); try reflexivity; contradiction).
    rewrite E in Hv. injection Hv as _ _ <-.
    destruct (sla_loop now cs dcas1) as [[cs'' dcas2] es]. simpl.
    eexists. split; [now left|]. split; reflexivity.
  - destruct (IH Hin dcas1) as (e & He & Hid & Hbr).
    destruct (sla_loop now cs dcas1) as [[cs'' dcas2] es]. simpl in *.
    exists e. split; [|auto]. destruct oe; [now right|exact He].
Qed.

Lemma hours_remaining_nonneg resolution now :
  f_neg (hours_remaining resolution now) = false /\
  (0 <= f_units (hours_remaining resolution now))%Z.
Proof.
  unfold hours_remaining. split; [|apply toFixed_units_nonneg].
  simpl. apply Qgtb_false. apply Math_max_lower.
Qed.

Lemma hours_remaining_past resolution now :
  (resolution < now)%Z ->
  hours_remaining resolution now = mkFixed false 0 1.
Proof.
  intro H. unfold hours_remaining, Math_max.
  set (y := r64 (inject_Z (resolution - now) / 3600000)).
  assert (Hy : y <= 0).
  { apply r64_nonpos. unfold Qle. simpl. lia. }
  destruct (Qle_bool 0 y) eqn:E; [|reflexivity].
  apply Qle_bool_iff in E.
  assert (E0 : y == 0) by lra.
  unfold toFixed. f_equal.
  - apply Qgtb_false. lra.
  - rewrite (Qfloor_comp _ (0 * inject_Z (pow10 1) + (1 # 2))); [reflexivity|].
    rewrite (Qabs_wd _ _ E0). reflexivity.
Qed.

End DcaFacts.

(** * The allocation engine of [src/dca-api.js] *)

Module DcaClaims.

Import DcaApi DcaProps DcaFacts DcaExamples.
Open Scope Q_scope.

(** The agent that is found has the greatest [finalScore] of the agents with
    room, in whatever order the table is: none of them has a greater one. *)
Lemma scan_best_max c l b :
  bestDCA (scan c l) = Some b ->
  forall e, In e l -> eligible (snd e) ->
    Js.gt (finalScore c (snd e)) (finalScore c (snd b)) = false.
Proof.
  revert b. induction l as [|x l IH] using rev_ind; [discriminate|].
  intros b. rewrite scan_snoc. unfold scan_step.
  destruct (currentLoad (snd x) >=? capacity (snd x))%Z eqn:Hcap.
  - intros Hb e He Hel. apply in_app_or in He. destruct He as [He|[<-|[]]].
    + now apply IH.
    + apply eligible_dec in Hel. congruence.
  - destruct (Js.gt _ _) eqn:Hgt; simpl.
    + intros [= <-] e He Hel. apply in_app_or in He. destruct He as [He|[<-|[]]].
      * apply (gt_not_gt _ _ _ Hgt).
        destruct (bestDCA (scan c l)) as [b0|] eqn:Hb0.
        -- rewrite (scan_best_score c l b0 Hb0). now apply IH.
        -- pose proof (proj1 (scan_none c l) Hb0 e He Hel) as Hs.
           rewrite (scan_none_score c l Hb0).
           apply not_true_is_false. exact Hs.
      * apply gt_irrefl.
    + intros Hb e He Hel. apply in_app_or in He. destruct He as [He|[<-|[]]].
      * now apply IH.
      * now rewrite (scan_best_score c l b Hb) in Hgt.
Qed.

(** C2, as it is written, fails: the candidate list stored by the first
    ingestion has no element with the final score of DCA-001, which has
    room; the element for DCA-001 holds the binary64 number nearest to
    0.705396 and the final score is the one nearest to 0.70539583... *)
Lemma candidate_list_not_exact :
  In ("DCA-001", john_smith) (dcaProfiles registered_acme) /\
  eligible john_smith /\
  (exists c', map_get "FDX-1001" (caseRegistry after_acme) = Some c' /\
     allocationCandidates c' = Some (candidateDetails (scan acme_case dcaProfiles0))) /\
  ~ records_exactly acme_case john_smith
      (candidateDetails (scan acme_case dcaProfiles0)).
Proof.
  split; [now left|]. split; [unfold eligible; simpl; lia|].
  split; [eexists; split; vm_compute; reflexivity|].
  intros (cand & Hin & Hid & _ & _ & Hfs).
  vm_compute in Hin.
  destruct Hin as [<-|[<-|[<-|[<-|[]]]]]; try discriminate Hid.
  vm_compute in Hfs. discriminate Hfs.
Qed.

Lemma lit_weights :
  lit 0.30 = lit 0.3 /\ lit 0.20 = lit 0.2 /\ lit 0.10 = lit 0.1.
Proof. repeat split; vm_compute; reflexivity. Qed.

(** C2, amended. The suitability score and the final score of an agent are
    the weighted sum and the product of the specification, in binary64
    arithmetic from left to right. When an agent is found, none of the agents
    with room has a greater final score, and the candidate list stored on the
    case has one element for each agent with room, in the order of the
    table, holding the identifier, the score rounded to 4 decimals, the
    priority factor and the final score rounded to 6 decimals, each read back
    as a number. For a finite number below 10^21 the rounded string is the
    decimal numeral nearest to it, within half a unit of its last decimal. *)
Theorem candidates_record_rounded_scores id now st c :
  map_get id (caseRegistry st) = Some c ->
  (forall d,
     dcaScore c d =
       Spec.score (lit (historicalRecoveryRate d))
         (if Priority_eqb (priority c) CRITICAL
             && includes (specialization d) "High-Value" then 1 else lit 0.7)
         (if String.eqb (dca_geoRegion d) (geoRegion c) then 1 else lit 0.8)
         (inject_Z (currentLoad d) / inject_Z (capacity d))%js
         (1 - lit (complianceScore d))%js /\
     finalScore c d =
       (recoveryProbability c * dcaScore c d * Spec.priorityFactor (priority c))%js) /\
  (forall key best,
     bestDCA (scan c (dcaProfiles st)) = Some (key, best) ->
     (forall e, In e (dcaProfiles st) -> eligible (snd e) ->
        Js.gt (finalScore c (snd e)) (finalScore c best) = false) /\
     exists st' c',
       allocateCaseIntelligently id now st = Some st' /\
       map_get id (caseRegistry st') = Some c' /\
       allocationCandidates c' =
         Some (map (fun e =>
                      {| cand_dcaId := dcaId (snd e);
                         cand_dcaScore :=
                           Number_of (Printed_of (dcaScore c (snd e)) 4);
                         cand_priorityFactor := Spec.priorityFactor (priority c);
                         cand_finalScore :=
                           Number_of (Printed_of (finalScore c (snd e)) 6) |})
                   (filter has_room (dcaProfiles st)))) /\
  (forall x d,
     Qabs x < inject_Z (10 ^ 21) ->
     Printed_of (Num x) d = Digits (toFixed x d) /\
     Number_of (Digits (toFixed x d)) = R64 (Number (toFixed x d)) /\
     Qabs (Number (toFixed x d) - x) * inject_Z (pow10 d) <= 1 # 2).
Proof.
  intro Hc. split; [|split].
  - intro d. split.
    + destruct lit_weights as (E3 & E2 & E1).
      unfold dcaScore, Spec.score, specializationMatch, geoMatch, loadPenalty,
        complianceRisk. now rewrite E3, E2, E1.
    + unfold finalScore. destruct (priority c); reflexivity.
  - intros key best Hb. split.
    + exact (scan_best_max c _ _ Hb).
    + eexists _, _.
      split; [exact (allocate_found id now st c key best Hc Hb)|].
      cbn [caseRegistry]. rewrite map_get_update, Hc. cbn [option_map].
      split; [reflexivity|].
      cbn [allocated_case allocationCandidates].
      rewrite scan_candidates. unfold candidate.
      destruct (priority c); reflexivity.
  - intros x d Hx. split; [|split; [reflexivity|apply toFixed_close]].
    unfold Printed_of.
    assert (E : Qle_bool (inject_Z (10 ^ 21)) (Qabs x) = false).
    { destruct (Qle_bool _ _) eqn:E; [|reflexivity].
      apply Qle_bool_iff in E. exfalso. exact (Qlt_not_le _ _ Hx E). }
    now rewrite E.
Qed.

Lemma candidates_record_rounded_scores_witness :
  (dcaScore acme_case john_smith =
     Spec.score (lit 0.82) 1 1 (inject_Z 0 / inject_Z 5)%js (1 - lit 0.95)%js /\
   finalScore acme_case john_smith =
     (recoveryProbability acme_case * dcaScore acme_case john_smith * lit 1.5)%js) /\
  exists st' c' cands,
    allocateCaseIntelligently "FDX-1001" 0 registered_small = Some st' /\
    map_get "FDX-1001" (caseRegistry st') = Some c' /\
    allocationCandidates c' = Some cands /\
    map cand_dcaScore cands = [lit 0.616; lit 0.557; lit 0.552; lit 0.565] /\
    map cand_finalScore cands =
      [lit 0.461076; lit 0.416914; lit 0.413172; lit 0.422902].
Proof.
  split.
  - destruct (candidates_record_rounded_scores "FDX-1001" 0 registered_acme acme_case)
      as (Hf & _ & _); [reflexivity|].
    exact (Hf john_smith).
  - destruct (candidates_record_rounded_scores "FDX-1001" 0 registered_small small_case)
      as (_ & Hs & _); [reflexivity|].
    destruct (Hs "DCA-001" john_smith) as (_ & st' & c' & Ha & Hg & Hc);
      [vm_compute; reflexivity|].
    exists st', c'. eexists. split; [exact Ha|]. split; [exact Hg|].
    split; [exact Hc|]. split; vm_compute; reflexivity.
Defined.

(** C3. An ingestion by a FedEx session stores the case and answers with it.
    If the case comes out allocated, its agent had a load below its capacity
    in the table the allocation started from, and that agent is the one whose
    load is raised; every element of the candidate list is for an agent whose
    load was below its capacity. If every agent has a load at or above its
    capacity, the loop finds no agent, the case stays RECEIVED with no agent
    and no deadlines, and the agent table is what it was. *)
Theorem ingest_respects_capacity s b noise now st :
  session_role s = FEDEX ->
  exists id c' st',
    ingest (Some s) b noise now st = (Created (id, Some c'), st') /\
    map_get id (caseRegistry st') = Some c' /\
    (forall agent, allocatedDCA c' = Some agent ->
       exists key best,
         In (key, best) (dcaProfiles st) /\ dcaId best = agent /\
         (currentLoad best < capacity best)%Z /\
         dcaProfiles st' = map_update key (reserve id) (dcaProfiles st)) /\
    (forall cands cand, allocationCandidates c' = Some cands -> In cand cands ->
       exists e, In e (dcaProfiles st) /\ cand_dcaId cand = dcaId (snd e) /\
                 (currentLoad (snd e) < capacity (snd e))%Z) /\
    ((forall e, In e (dcaProfiles st) -> (currentLoad (snd e) >= capacity (snd e))%Z) ->
       bestDCA (scan (newCase id (session_email s) b noise now) (dcaProfiles st)) = None /\
       status c' = RECEIVED /\ allocatedDCA c' = None /\ slaDeadlines c' = None /\
       dcaProfiles st' = dcaProfiles st).
Proof.
  intro Hrole. unfold ingest. rewrite Hrole. cbv zeta.
  set (st1 := ingest_registered (session_email s) b noise now st).
  set (id := new_caseId (caseIdCounter st1)).
  set (nc := newCase id (session_email s) b noise now).
  assert (Hc1 : map_get id (caseRegistry st1) = Some nc)
    by apply ingest_registered_case.
  assert (Hd1 : dcaProfiles st1 = dcaProfiles st) by reflexivity.
  destruct (bestDCA (scan nc (dcaProfiles st1))) as [[key best]|] eqn:Hb.
  - rewrite (allocate_found id now st1 nc key best Hc1 Hb).
    destruct (scan_best_has_room _ _ _ Hb) as [Hin Hel]. rewrite Hd1 in Hin.
    cbn [caseRegistry].
    assert (Hg : map_get id
                   (map_update id
                      (allocated_case best (finalScore nc best)
                         (candidateDetails (scan nc (dcaProfiles st1))) now)
                      (caseRegistry st1))
                 = Some (allocated_case best (finalScore nc best)
                           (candidateDetails (scan nc (dcaProfiles st1))) now nc))
      by (rewrite map_get_update, Hc1; reflexivity).
    rewrite Hg. eexists id, _, _.
    split; [reflexivity|]. split; [exact Hg|]. split; [|split].
    + intros agent [= <-]. exists key, best.
      repeat split; [exact Hin|exact Hel].
    + intros cands cand [= <-] Hcand. rewrite scan_candidates in Hcand.
      apply in_map_iff in Hcand. destruct Hcand as (e & <- & He).
      apply filter_In in He. destruct He as [He Hroom].
      exists e. split; [exact He|]. split; [reflexivity|].
      now apply has_room_eligible.
    + intro Hsat. exfalso. specialize (Hsat _ Hin). unfold eligible in Hel.
      cbn [snd] in Hsat, Hel. lia.
  - rewrite (allocate_not_found id now st1 nc Hc1 Hb).
    exists id, nc, st1. rewrite Hc1.
    split; [reflexivity|]. split; [reflexivity|].
    split; [discriminate|]. split; [discriminate|].
    intros _. rewrite <- Hd1. auto.
Qed.

Lemma ingest_respects_capacity_witness :
  exists id c' st',
    ingest (Some fedex) acme 0.5 0 saturated = (Created (id, Some c'), st') /\
    status c' = RECEIVED /\ allocatedDCA c' = None /\ slaDeadlines c' = None /\
    dcaProfiles st' = dcaProfiles saturated.
Proof.
  destruct (ingest_respects_capacity fedex acme 0.5 0 saturated eq_refl)
    as (id & c' & st' & Hi & _ & _ & _ & Hsat).
  exists id, c', st'. split; [exact Hi|].
  apply Hsat. intros e He. vm_compute in He.
  destruct He as [<-|[<-|[<-|[<-|[]]]]]; simpl; lia.
Defined.

(** C7. Whatever the tier, the deadlines computed at a time are that time
    plus the offsets of the tier (24h/2d/7d, 48h/3d/15d, 72h/4d/20d,
    96h/7d/30d), and the first action comes before the follow-up, which comes
    before the resolution. A case that the allocation at [now] gives to an
    agent gets the deadlines of the tier of its amount and age at [now]. *)
Theorem allocation_sets_deadlines id now st c key best :
  map_get id (caseRegistry st) = Some c ->
  bestDCA (scan c (dcaProfiles st)) = Some (key, best) ->
  (forall t time,
     let dl := deadlines (slaConfig t) time in
     firstAction dl = (time + Spec.firstActionOffset t)%Z /\
     followUp dl = (time + Spec.followUpOffset t)%Z /\
     resolution dl = (time + Spec.resolutionOffset t)%Z /\
     (firstAction dl < followUp dl < resolution dl)%Z) /\
  exists st' c',
    allocateCaseIntelligently id now st = Some st' /\
    map_get id (caseRegistry st') = Some c' /\
    status c' = ALLOCATED /\
    slaDeadlines c' =
      Some (deadlines (slaConfig (Spec.tier (debtAmount c) (debtAge c))) now).
Proof.
  intros Hc Hb. split.
  - intros t time.
    destruct t; cbv [deadlines slaConfig firstAction followUp resolution
      firstActionHours followUpDays resolutionDays Spec.firstActionOffset
      Spec.followUpOffset Spec.resolutionOffset Spec.hour Spec.day]; lia.
  - eexists _, _.
    split; [exact (allocate_found id now st c key best Hc Hb)|].
    cbn [caseRegistry]. rewrite map_get_update, Hc. cbn [option_map].
    split; [reflexivity|]. split; [reflexivity|].
    cbn [allocated_case slaDeadlines]. now rewrite assessRisk_tier.
Qed.

Lemma allocation_sets_deadlines_witness :
  exists st' c',
    allocateCaseIntelligently "FDX-1001" 0 registered_acme = Some st' /\
    map_get "FDX-1001" (caseRegistry st') = Some c' /\
    status c' = ALLOCATED /\
    slaDeadlines c' =
      Some (deadlines (slaConfig (Spec.tier (debtAmount acme_case) (debtAge acme_case))) 0).
Proof.
  destruct (allocation_sets_deadlines "FDX-1001" 0 registered_acme acme_case
              "DCA-001" john_smith) as [_ H].
  - reflexivity.
  - vm_compute. reflexivity.
  - exact H.
Defined.

(** C10. Every entry of the answer of the SLA status query has an
    [hoursRemaining] without a minus sign and with a value of zero or more; it
    is marked breached exactly when the time of the query is past its
    resolution deadline, and then its [hoursRemaining] is the string 0.0. *)
Theorem hours_remaining_clamped session now st es st' e :
  slaStatus session now st = (Okay es, st') ->
  In e es ->
  f_neg (hoursRemaining e) = false /\
  (0 <= f_units (hoursRemaining e))%Z /\
  0 <= Number (hoursRemaining e) /\
  (breached e = true <-> (resolution (entry_slaDeadlines e) < now)%Z) /\
  ((resolution (entry_slaDeadlines e) < now)%Z ->
     hoursRemaining e = mkFixed false 0 1 /\
     Fixed_string (hoursRemaining e) = "0.0").
Proof.
  unfold slaStatus. destruct session as [s|]; [|discriminate].
  pose proof (sla_loop_entries now (caseRegistry st) (dcaProfiles st) e) as H.
  destruct (sla_loop now (caseRegistry st) (dcaProfiles st)) as [[cs dcas] es0].
  intros [= <- _] He. simpl in H.
  destruct (H He) as (k & c & dl & _ & _ & _ & _ & Hdl & Hbr & Hh).
  rewrite Hdl, Hbr, Hh.
  destruct (hours_remaining_nonneg (resolution dl) now) as [Hneg Hun].
  split; [exact Hneg|]. split; [exact Hun|]. split; [|split].
  - unfold Number. rewrite Hneg. unfold Qle. cbn [Qnum Qden].
    rewrite Z.mul_0_l, Z.mul_1_r. exact Hun.
  - rewrite Z.gtb_ltb. apply Z.ltb_lt.
  - intro Hpast. rewrite (hours_remaining_past _ _ Hpast).
    split; reflexivity.
Qed.

Lemma hours_remaining_clamped_witness :
  f_neg (hoursRemaining acme_entry) = false /\
  (0 <= f_units (hoursRemaining acme_entry))%Z /\
  0 <= Number (hoursRemaining acme_entry) /\
  (breached acme_entry = true <->
   (resolution (entry_slaDeadlines acme_entry) < eight_days)%Z) /\
  ((resolution (entry_slaDeadlines acme_entry) < eight_days)%Z ->
     hoursRemaining acme_entry = mkFixed false 0 1 /\
     Fixed_string (hoursRemaining acme_entry) = "0.0").
Proof.
  apply (hours_remaining_clamped (Some fedex) eight_days after_acme [acme_entry]
           (snd (slaStatus (Some fedex) eight_days after_acme))).
  - vm_compute. reflexivity.
  - now left.
Defined.

(** The visit of a case that is past its resolution deadline and has an
    agent raises the breach counter of the agent, whether or not the case is
    already flagged as breached. *)
Lemma sla_visit_penalizes now c dcas dl agent :
  status c <> RESOLVED ->
  slaDeadlines c = Some dl ->
  (resolution dl < now)%Z ->
  allocatedDCA c = Some agent ->
  sla_visit now c dcas =
  (mark_breached c, map_update agent penalize dcas,
   Some {| entry_caseId := caseId c;
           entry_debtor := debtor c;
           entry_priority := priority c;
           entry_allocatedDCA := Some agent;
           entry_slaDeadlines := dl;
           breached := true;
           hoursRemaining := mkFixed false 0 1 |}).
Proof.
  intros Hst Hdl Hpast Ha. unfold sla_visit. rewrite Hdl, Ha.
  assert (E : Status_eqb (status c) RESOLVED = false)
    by (destruct (status c); try reflexivity; contradiction).
  rewrite E.
  assert (Hgt : (now >? resolution dl)%Z = true)
    by (rewrite Z.gtb_ltb; now apply Z.ltb_lt).
  rewrite Hgt, (hours_remaining_past _ _ Hpast). reflexivity.
Qed.

(** C4, on the code. The case FDX-1001 is allocated to DCA-001 at time 0 with
    a resolution deadline of seven days. Two SLA status queries at the same
    time, eight days after the allocation, both report the case as breached
    and take the breach counter of DCA-001 from 0 to 1 and from 1 to 2: the
    second evaluation counts the same breach again, although the first one
    has set the breach flag of the case. *)
Theorem sla_status_counts_breach_twice :
  let once := slaStatus (Some fedex) eight_days after_acme in
  let twice := slaStatus (Some fedex) eight_days (snd once) in
  fst once = Okay [acme_entry] /\
  fst twice = Okay [acme_entry] /\
  option_map slaBreached (map_get "FDX-1001" (caseRegistry (snd once))) = Some true /\
  option_map slaBreaches (map_get "DCA-001" (dcaProfiles after_acme)) = Some 0%Z /\
  option_map slaBreaches (map_get "DCA-001" (dcaProfiles (snd once))) = Some 1%Z /\
  option_map slaBreaches (map_get "DCA-001" (dcaProfiles (snd twice))) = Some 2%Z.
Proof. vm_compute. repeat split; reflexivity. Qed.

(** C5, as it is written, fails: the case FDX-1001 of [resolved_acme] is
    RESOLVED and is not terminal; its escalation is answered with the case,
    now ESCALATED. *)
Lemma resolved_not_terminal :
  (exists c, map_get "FDX-1001" (caseRegistry resolved_acme) = Some c /\
             status c = RESOLVED) /\
  ~ terminal resolved_acme "FDX-1001".
Proof.
  split.
  - eexists. split; vm_compute; reflexivity.
  - intro H.
    destruct (H agent1 2000%Z 10%Z (mkInteractionBody "CALL" "" "SUCCESS")
                (mkEscalateBody "late" "ADMIN")
                (mkResolveBody "SETTLED" JUndefined ""))
      as (_ & [Hno _] & _).
    eapply Hno. vm_compute. reflexivity.
Qed.

(** C5, amended. No handler looks at the status of the case before it
    changes it. On every case of the registry, RESOLVED or not, and for every
    session: logging an interaction is answered with the case, now
    IN_PROGRESS; escalating is answered with the case, now ESCALATED;
    resolving is answered with the case, now RESOLVED. Each of them extends
    the audit trail of the case and ends it with its own entry. *)
Theorem handlers_accept_every_status s id st c :
  map_get id (caseRegistry st) = Some c ->
  (forall b now hour, exists c' st',
     interaction (Some s) id b now hour st = (Okay c', st') /\
     map_get id (caseRegistry st') = Some c' /\
     status c' = IN_PROGRESS /\
     exists violation,
       auditTrail c' = auditTrail c ++ violation ++
         [ mkAudit "INTERACTION_LOGGED" (session_email s) now
             [Str (body_type b); Str " interaction: "; Str (body_result b)] ]) /\
  (forall b now, exists c' st',
     escalate (Some s) id b now st = (Okay c', st') /\
     map_get id (caseRegistry st') = Some c' /\
     status c' = ESCALATED /\
     auditTrail c' = auditTrail c ++
       [ mkAudit "ESCALATION" (session_email s) now
           [Str "Escalated to "; Str (body_targetRole b); Str ": ";
            Str (body_reason b)] ]) /\
  (forall b now, exists c' st',
     resolve (Some s) id b now st = (Okay c', st') /\
     map_get id (caseRegistry st') = Some c' /\
     status c' = RESOLVED /\
     auditTrail c' = auditTrail c ++
       [ mkAudit "CASE_RESOLVED" (session_email s) now
           [Str (body_resolutionType b); Str ": $";
            NumFrag (body_recoveredAmount b); Str " recovered. ";
            Str (body_notes b)] ]).
Proof.
  intro Hc. split; [|split].
  - intros b now hour. unfold interaction, on_case. rewrite Hc.
    cbn [caseRegistry]. rewrite map_get_update, Hc. cbn [option_map].
    eexists _, _. split; [reflexivity|].
    cbn [caseRegistry snd]. rewrite map_get_update, Hc.
    split; [reflexivity|]. split; [reflexivity|].
    eexists. reflexivity.
  - intros b now. unfold escalate, on_case. rewrite Hc.
    cbn [caseRegistry]. rewrite map_get_update, Hc. cbn [option_map].
    eexists _, _. split; [reflexivity|].
    cbn [caseRegistry snd]. rewrite map_get_update, Hc.
    repeat split; reflexivity.
  - intros b now. unfold resolve, on_case. rewrite Hc.
    cbn [caseRegistry]. rewrite map_get_update, Hc. cbn [option_map].
    eexists _, _. split; [reflexivity|].
    cbn [caseRegistry snd]. rewrite map_get_update, Hc.
    repeat split; reflexivity.
Qed.

Lemma handlers_accept_every_status_witness :
  exists c' st',
    escalate (Some agent1) "FDX-1001" (mkEscalateBody "late" "ADMIN") 2000 resolved_acme
      = (Okay c', st') /\
    map_get "FDX-1001" (caseRegistry st') = Some c' /\
    status c' = ESCALATED.
Proof.
  destruct (handlers_accept_every_status agent1 "FDX-1001" resolved_acme
              (resolve_case agent1 paid 1000
                 (allocated_case john_smith (finalScore acme_case john_smith)
                    (candidateDetails (scan acme_case dcaProfiles0)) 0 acme_case)))
    as (_ & He & _).
  - vm_compute. reflexivity.
  - destruct (He (mkEscalateBody "late" "ADMIN") 2000%Z) as (c' & st' & H1 & H2 & H3 & _).
    exists c', st'. auto.
Defined.

(** *** Loads and lists of cases *)

Lemma agent_write_load_matches f d :
  agent_write f -> load_matches d -> load_matches (f d).
Proof.
  unfold load_matches. destruct 1; simpl; auto.
  intro H. rewrite H, length_app. simpl. lia.
Qed.

Lemma evolves_load_matches l l' :
  evolves l l' ->
  Forall (fun e => load_matches (snd e)) l ->
  Forall (fun e => load_matches (snd e)) l'.
Proof.
  induction 1 as [|l' k f Hev IH Hw]; intro H; [exact H|].
  apply Forall_map_update; [|auto].
  intros k' v. simpl. now apply agent_write_load_matches.
Qed.

Lemma step_load_matches st st' :
  step st st' ->
  Forall (fun e => load_matches (snd e)) (dcaProfiles st) ->
  Forall (fun e => load_matches (snd e)) (dcaProfiles st').
Proof. intro H. apply evolves_load_matches. now apply step_evolves. Qed.

Lemma reachable_load_matches st :
  reachable st -> Forall (fun e => load_matches (snd e)) (dcaProfiles st).
Proof.
  intro H. apply (evolves_load_matches dcaProfiles0).
  - now apply reachable_evolves.
  - repeat constructor.
Qed.

(** *** The status of a case during its ingestion *)

Lemma ingest_statuses email b noise now st :
  let id := new_caseId (caseIdCounter st + 1) in
  exists c2 st2,
    map_get id (caseRegistry (ingest_registered email b noise now st))
      = Some (newCase id email b noise now) /\
    ingest (Some (mkSession email FEDEX)) b noise now st = (Created (id, Some c2), st2) /\
    (status c2 = ALLOCATED /\ allocatedDCA c2 <> None \/
     status c2 = RECEIVED /\ allocatedDCA c2 = None).
Proof.
  intro id. unfold ingest. cbn [session_role session_email]. cbv zeta.
  set (st1 := ingest_registered email b noise now st).
  set (nc := newCase id email b noise now).
  assert (Hc1 : map_get id (caseRegistry st1) = Some nc)
    by apply ingest_registered_case.
  change (new_caseId (caseIdCounter st1)) with id.
  destruct (bestDCA (scan nc (dcaProfiles st1))) as [[key best]|] eqn:Hb.
  - rewrite (allocate_found id now st1 nc key best Hc1 Hb).
    cbn [caseRegistry]. rewrite map_get_update, Hc1. cbn [option_map].
    eexists _, _. split; [reflexivity|]. split; [reflexivity|].
    left. split; [reflexivity|discriminate].
  - rewrite (allocate_not_found id now st1 nc Hc1 Hb). rewrite Hc1.
    eexists _, _. split; [reflexivity|]. split; [reflexivity|].
    right. split; reflexivity.
Qed.

End DcaClaims.

(** * Facts about [src/unnamed/part_000] *)

Module InferenceFacts.

Import InferenceApi InferenceProps.

Lemma remove_first_length id l r :
  remove_first id l = Some r -> List.length l = S (List.length r).
Proof.
  revert r. induction l as [|x l IH]; simpl; intro r; [discriminate|].
  destruct (String.eqb x id).
  - now intros [= ->].
  - destruct (remove_first id l) as [r'|]; [|discriminate].
    intros [= <-]. simpl. now rewrite (IH r').
Qed.

Lemma reserve_surplus id w : surplus (reserve id w) = surplus w.
Proof. unfold surplus, reserve. simpl. rewrite length_app. simpl. lia. Qed.

Lemma release_surplus id w : surplus (release id w) = surplus w.
Proof.
  unfold surplus, release. destruct (remove_first id (cases w)) as [r|] eqn:E.
  - simpl. apply remove_first_length in E. lia.
  - reflexivity.
Qed.

Lemma map_update_surpluses k f t :
  (forall w, surplus (f w) = surplus w) ->
  surpluses (map_update k f t) = surpluses t.
Proof.
  intro Hf. unfold surpluses. induction t as [|[k' w] t IH]; simpl; [reflexivity|].
  destruct (String.eqb k k'); simpl; [now rewrite Hf|now rewrite IH].
Qed.

(** Equal surpluses carry the equality of load and list from one table to
    the other. *)
Lemma surpluses_load_matches t t' :
  surpluses t' = surpluses t ->
  Forall (fun e => load_matches (snd e)) t ->
  Forall (fun e => load_matches (snd e)) t'.
Proof.
  unfold surpluses. revert t'. induction t as [|[k w] t IH]; intros [|[k' w'] t'];
    simpl; try discriminate; [constructor|].
  intros [= _ Hs Ht] H. inversion H as [|? ? Hw Hrest]; subst.
  constructor; [|now apply IH].
  unfold load_matches, surplus in *. simpl in *. lia.
Qed.

Lemma allocateCase_surpluses id random now st found st' :
  allocateCase id random now st = Some (found, st') ->
  surpluses (dcaWorkload st') = surpluses (dcaWorkload st).
Proof.
  unfold allocateCase. destruct (map_get id (caseRegistry st)); [|discriminate].
  destruct (bestDCA _) as [best|]; intros [= _ <-]; [|reflexivity].
  simpl. apply map_update_surpluses. apply reserve_surplus.
Qed.

Lemma manualAllocate_surpluses id agent now st :
  surpluses (dcaWorkload (snd (manualAllocate id agent now st)))
  = surpluses (dcaWorkload st).
Proof.
  unfold manualAllocate. destruct (map_get id (caseRegistry st)) as [c|]; [|reflexivity].
  destruct (property agent (dcaWorkload st)); [| |reflexivity];
    (destruct (allocatedDCA c) as [old|]; [destruct (String.eqb old "")|]);
    try destruct (property old (dcaWorkload st)); cbn [snd dcaWorkload];
    repeat (rewrite map_update_surpluses;
            [|intro; first [apply reserve_surplus|apply release_surplus]]);
    reflexivity.
Qed.

(** [prioritizeCase] leaves the case PRIORITIZED, with its tier and its
    recovery probability set. *)
Lemma prioritizeCase_status id rnd now st c :
  map_get id (caseRegistry st) = Some c ->
  exists st' c',
    prioritizeCase id rnd now st = Some st' /\
    map_get id (caseRegistry st') = Some c' /\
    status c' = PRIORITIZED /\
    priority c' = Some (prioritize (debtAmount c) (debtAge c)) /\
    recoveryProbability c' <> None.
Proof.
  intro Hc. unfold prioritizeCase. rewrite Hc.
  eexists _, _. split; [reflexivity|].
  simpl. rewrite map_get_update, Hc. simpl.
  split; [reflexivity|]. repeat split. discriminate.
Qed.

(** [prioritize] is the tier of the specification except for a debt of at
    most 100000 that is more than 180 days old, which it makes HIGH. *)
Lemma prioritize_tier amount age :
  prioritize amount age = Spec.tier amount age \/
  (Qgtb amount 100000 = false /\ Qgtb age 180 = true /\
   prioritize amount age = HIGH /\ Spec.tier amount age = CRITICAL).
Proof.
  unfold prioritize, Spec.tier. cbn [Js.gt].
  destruct (Qgtb amount 100000) eqn:Ha; simpl; [now left|].
  destruct (Qgtb age 180) eqn:Hg; [|now left].
  right. repeat split.
  assert (Hg' : Qgtb age 120 = true).
  { apply Qgtb_true. apply Qgtb_true in Hg.
    eapply Qlt_trans; [|exact Hg]. reflexivity. }
  rewrite Hg', orb_true_r. reflexivity.
Qed.

End InferenceFacts.

(** * The two servers side by side *)

Module Servers.

Open Scope Q_scope.

(** C6, on the code. [assessRisk] of [src/dca-api.js] is the classifier of
    the specification for every amount and age. [prioritizeCase] of
    [src/unnamed/part_000] is not: it has no rule for the age in its first
    test, so a debt of 1000 that is 200 days old, CRITICAL by the rule
    [age > 180], is stored as HIGH. The two examples of the claim come out
    the same in both. *)
Theorem prioritizeCase_misses_age_rule :
  (forall amount age,
     DcaApi.riskKey (DcaApi.assessRisk amount age) = Spec.tier amount age) /\
  Spec.tier 1000 200 = CRITICAL /\
  InferenceApi.prioritize 1000 200 = HIGH /\
  (exists c,
     map_get "FDX-1001" (InferenceApi.caseRegistry InferenceExamples.prioritized)
       = Some c /\
     InferenceApi.debtAmount c = 1000 /\ InferenceApi.debtAge c = 200 /\
     InferenceApi.priority c = Some HIGH) /\
  Spec.tier 150000 10 = CRITICAL /\ InferenceApi.prioritize 150000 10 = CRITICAL /\
  Spec.tier 30000 65 = MEDIUM /\ InferenceApi.prioritize 30000 65 = MEDIUM.
Proof.
  split; [exact DcaFacts.assessRisk_tier|].
  split; [reflexivity|]. split; [reflexivity|].
  split; [eexists; split; [vm_compute; reflexivity|repeat split]|].
  repeat split.
Qed.

(** C8, on the code. In [src/dca-api.js] the case of an ingestion is stored
    as RECEIVED with its tier and its recovery probability already set, and
    [allocateCaseIntelligently] is called on it as it is: the case goes from
    RECEIVED to ALLOCATED when an agent is found and stays RECEIVED
    otherwise; it is never PRIORITIZED. *)
Theorem ingest_skips_prioritized email b noise now st :
  let id := DcaApi.new_caseId (DcaApi.caseIdCounter st + 1) in
  exists c1 c2 st2,
    map_get id (DcaApi.caseRegistry (DcaApi.ingest_registered email b noise now st))
      = Some c1 /\
    DcaApi.status c1 = RECEIVED /\
    DcaApi.priority c1
      = Spec.tier (DcaApi.body_debtAmount b) (DcaApi.body_debtAge b) /\
    DcaApi.recoveryProbability c1
      = DcaApi.calculateRecoveryProbability
          (DcaApi.body_debtAmount b) (DcaApi.body_debtAge b) noise /\
    DcaApi.ingest (Some (DcaApi.mkSession email DcaApi.FEDEX)) b noise now st
      = (DcaApi.Created (id, Some c2), st2) /\
    (DcaApi.status c2 = ALLOCATED /\ DcaApi.allocatedDCA c2 <> None \/
     DcaApi.status c2 = RECEIVED /\ DcaApi.allocatedDCA c2 = None).
Proof.
  intro id.
  destruct (DcaClaims.ingest_statuses email b noise now st) as (c2 & st2 & H1 & H2 & H3).
  eexists _, c2, st2. split; [exact H1|].
  split; [reflexivity|]. split; [apply DcaFacts.assessRisk_tier|].
  split; [reflexivity|]. split; [exact H2|exact H3].
Qed.

End Servers.

(** * More facts about tables *)

Section MoreTableFacts.
Context {V : Type}.
Implicit Types (m l : list (string * V)) (k : string).

Lemma map_get_set_other k k' v m :
  k <> k' -> map_get k (map_set k' v m) = map_get k m.
Proof.
  intro Hne. induction m as [|[k'' v''] m IH]; simpl.
  - destruct (String.eqb k k') eqn:E; [|reflexivity].
    apply String.eqb_eq in E. contradiction.
  - destruct (String.eqb k' k'') eqn:E; simpl.
    + apply String.eqb_eq in E. subst k''.
      destruct (String.eqb k k') eqn:E'; [|reflexivity].
      apply String.eqb_eq in E'. contradiction.
    + destruct (String.eqb k k''); auto.
Qed.

Lemma map_get_keys k m : map_get k m <> None <-> In k (map fst m).
Proof.
  induction m as [|[k' v] m IH]; simpl.
  - split; [congruence|tauto].
  - destruct (String.eqb k k') eqn:E.
    + apply String.eqb_eq in E. subst. split; [auto|discriminate].
    + rewrite IH. split; [auto|]. intros [<-|H]; [|exact H].
      rewrite String.eqb_refl in E. discriminate.
Qed.

(** Setting a key the table does not have appends the entry. *)
Lemma map_set_fresh k v m : ~ In k (map fst m) -> map_set k v m = m ++ [(k, v)].
Proof.
  induction m as [|[k' v'] m IH]; simpl; intro H; [reflexivity|].
  destruct (String.eqb k k') eqn:E.
  - apply String.eqb_eq in E. subst. tauto.
  - rewrite IH by tauto. reflexivity.
Qed.

Lemma map_set_keys k v m id :
  In id (map fst (map_set k v m)) -> id = k \/ In id (map fst m).
Proof.
  induction m as [|[k' v'] m IH]; simpl.
  - intros [<-|[]]. now left.
  - destruct (String.eqb k k') eqn:E; simpl.
    + tauto.
    + intros [<-|H]; [tauto|]. destruct (IH H); tauto.
Qed.

Lemma map_get_map_values (g : V -> V) k m :
  map_get k (map (fun e => (fst e, g (snd e))) m) = option_map g (map_get k m).
Proof.
  induction m as [|[k' v] m IH]; simpl; [reflexivity|].
  destruct (String.eqb k k'); auto.
Qed.

(** A property of all entries survives an update that keeps it for the
    value that is stored under the key. *)
Lemma Forall_map_update_at (P : string * V -> Prop) k f m :
  (forall v, map_get k m = Some v -> P (k, v) -> P (k, f v)) ->
  Forall P m -> Forall P (map_update k f m).
Proof.
  intros Hf H. induction H as [|[k' v] m Hx Hm IH]; simpl; [constructor|].
  simpl in Hf. destruct (String.eqb k k') eqn:E.
  - apply String.eqb_eq in E. subst k'. constructor; auto.
  - constructor; auto.
Qed.

End MoreTableFacts.

Section TableRel.
Context {V : Type} (R : V -> V -> Prop).
Implicit Types (l : list (string * V)).

Lemma table_rel_refl l : (forall v, R v v) -> DcaMoreProps.table_rel R l l.
Proof.
  intro Hr. unfold DcaMoreProps.table_rel.
  induction l; constructor; auto.
Qed.

Lemma table_rel_trans l1 l2 l3 :
  (forall a b c, R a b -> R b c -> R a c) ->
  DcaMoreProps.table_rel R l1 l2 -> DcaMoreProps.table_rel R l2 l3 ->
  DcaMoreProps.table_rel R l1 l3.
Proof.
  intros Ht H12. unfold DcaMoreProps.table_rel in *. revert l3.
  induction H12 as [|a b l1 l2 [Hk Hab] _ IH]; intros l3 H23;
    inversion H23 as [|? c ? l3' [Hk' Hbc] Hrest]; subst; constructor.
  - split; [congruence|eauto].
  - now apply IH.
Qed.

Lemma table_rel_update k f l :
  (forall v, R v v) -> (forall v, R v (f v)) ->
  DcaMoreProps.table_rel R l (map_update k f l).
Proof.
  intros Hr Hf. unfold DcaMoreProps.table_rel.
  induction l as [|[k' v] l IH]; simpl; [constructor|].
  destruct (String.eqb k k'); constructor; simpl; auto.
  now apply table_rel_refl.
Qed.

Lemma table_rel_get k l l' v :
  DcaMoreProps.table_rel R l l' -> map_get k l = Some v ->
  exists v', map_get k l' = Some v' /\ R v v'.
Proof.
  unfold DcaMoreProps.table_rel.
  induction 1 as [|[k1 v1] [k2 v2] l l' [Hk Hv] _ IH]; simpl; [discriminate|].
  simpl in Hk, Hv. subst k2. destruct (String.eqb k k1).
  - intros [= <-]. eauto.
  - exact IH.
Qed.

Lemma table_rel_keys l l' : DcaMoreProps.table_rel R l l' -> map fst l' = map fst l.
Proof.
  unfold DcaMoreProps.table_rel.
  induction 1 as [|a b l l' [Hk _] _ IH]; simpl; congruence.
Qed.

End TableRel.

(** The decimal numerals of two numbers that are not negative differ. *)
Lemma digits_of_inj n m : 0 <= n -> 0 <= m -> digits_of n = digits_of m -> n = m.
Proof.
  intros Hn Hm H. unfold digits_of in H.
  assert (Hnil : forall a, N.to_uint a <> Decimal.Nil).
  { intros [|p]; [discriminate|]. apply DecimalPos.Unsigned.to_uint_nonnil. }
  apply (f_equal NilZero.uint_of_string) in H.
  rewrite !NilZero.usu in H by apply Hnil.
  injection H as H. apply DecimalN.Unsigned.to_uint_inj in H.
  apply (f_equal Z.of_N) in H. rewrite !Z2N.id in H; assumption.
Qed.

Lemma new_caseId_inj n m :
  0 <= n -> 0 <= m -> DcaApi.new_caseId n = DcaApi.new_caseId m -> n = m.
Proof.
  intros Hn Hm H. unfold DcaApi.new_caseId in H. simpl in H.
  injection H as H. now apply digits_of_inj.
Qed.

Lemma map_get_update_cases {V : Type} k k' (f : V -> V) (m : list (string * V)) v' :
  map_get k' (map_update k f m) = Some v' ->
  (k' = k /\ exists v, map_get k m = Some v /\ v' = f v) \/
  (k' <> k /\ map_get k' m = Some v').
Proof.
  destruct (string_dec k' k) as [->|Hne].
  - rewrite map_get_update. destruct (map_get k m) as [v|]; [|discriminate].
    intros [= <-]. left. eauto.
  - rewrite map_get_update_other by exact Hne. auto.
Qed.

(** * More facts about [src/dca-api.js] *)

Module DcaMoreFacts.

Import DcaApi DcaProps DcaFacts DcaMore DcaMoreProps.
Open Scope Q_scope.

(** *** The SLA status, case by case *)

Lemma sla_visit_case now c dcas :
  fst (fst (sla_visit now c dcas)) = sla_case now c.
Proof.
  unfold sla_case, sla_visit. destruct (Status_eqb _ _); [reflexivity|].
  destruct (slaDeadlines c); reflexivity.
Qed.

Lemma sla_case_cases now c :
  sla_case now c = c \/
  (sla_case now c = mark_breached c /\ status c <> RESOLVED /\
   exists dl, slaDeadlines c = Some dl /\ (resolution dl < now)%Z).
Proof.
  unfold sla_case, sla_visit.
  destruct (Status_eqb (status c) RESOLVED) eqn:Hs; [now left|].
  destruct (slaDeadlines c) as [dl|]; [|now left]. simpl.
  destruct (now >? resolution dl)%Z eqn:Hb; [|now left].
  right. split; [reflexivity|]. split.
  - intro E. rewrite E in Hs. discriminate.
  - exists dl. split; [reflexivity|]. rewrite Z.gtb_ltb in Hb. now apply Z.ltb_lt.
Qed.

Lemma sla_loop_cases now cs dcas :
  fst (fst (sla_loop now cs dcas)) = map (fun e => (fst e, sla_case now (snd e))) cs.
Proof.
  revert dcas. induction cs as [|[k c] cs IH]; intro dcas; simpl; [reflexivity|].
  pose proof (sla_visit_case now c dcas) as Hv.
  destruct (sla_visit now c dcas) as [[c' dcas1] e]. simpl in Hv.
  specialize (IH dcas1).
  destruct (sla_loop now cs dcas1) as [[cs'' dcas2] es]. simpl in *.
  now rewrite Hv, IH.
Qed.

Lemma only_penalized_refl d : only_penalized d d.
Proof. split; [lia|]. now destruct d. Qed.

Lemma only_penalized_trans a b c :
  only_penalized a b -> only_penalized b c -> only_penalized a c.
Proof.
  intros [H1 E1] [H2 E2]. split; [lia|].
  rewrite E2, E1. reflexivity.
Qed.

Lemma only_penalized_penalize d : only_penalized d (penalize d).
Proof. split; [simpl; lia|reflexivity]. Qed.

Lemma sla_visit_penalized now c dcas :
  table_rel only_penalized dcas (snd (fst (sla_visit now c dcas))).
Proof.
  unfold sla_visit. destruct (Status_eqb _ _);
    [apply table_rel_refl, only_penalized_refl|].
  destruct (slaDeadlines c); [|apply table_rel_refl, only_penalized_refl]. simpl.
  destruct (now >? _)%Z; [|apply table_rel_refl, only_penalized_refl].
  destruct (allocatedDCA c); [|apply table_rel_refl, only_penalized_refl].
  apply table_rel_update; [apply only_penalized_refl|apply only_penalized_penalize].
Qed.

Lemma sla_loop_penalized now cs dcas :
  table_rel only_penalized dcas (snd (fst (sla_loop now cs dcas))).
Proof.
  revert dcas. induction cs as [|[k c] cs IH]; intro dcas; simpl;
    [apply table_rel_refl, only_penalized_refl|].
  pose proof (sla_visit_penalized now c dcas) as Hv.
  destruct (sla_visit now c dcas) as [[c' dcas1] e]. simpl in Hv.
  specialize (IH dcas1).
  destruct (sla_loop now cs dcas1) as [[cs'' dcas2] es]. simpl in *.
  eapply table_rel_trans; eauto. exact only_penalized_trans.
Qed.

(** *** The shape of every step *)

Lemma on_case_transition session id st (f : Session -> Case -> State -> State) :
  (forall s c, map_get id (caseRegistry st) = Some c -> transition st (f s c st)) ->
  transition st (snd (on_case session id st f)).
Proof.
  intro Hf. unfold on_case. destruct session as [s|]; [|constructor].
  destruct (map_get id (caseRegistry st)) as [c|] eqn:Hc; [|constructor].
  specialize (Hf s c eq_refl).
  destruct (map_get id (caseRegistry (f s c st))); exact Hf.
Qed.

Lemma step_transition st st' : step st st' -> transition st st'.
Proof.
  destruct 1.
  - unfold ingest. destruct session as [s|]; [|constructor].
    destruct (session_role s); try constructor. cbv zeta.
    set (st1 := ingest_registered (session_email s) b noise now st).
    set (id := new_caseId (caseIdCounter st1)).
    set (nc := newCase id (session_email s) b noise now).
    assert (Hc1 : map_get id (caseRegistry st1) = Some nc)
      by apply ingest_registered_case.
    destruct (bestDCA (scan nc (dcaProfiles st1))) as [[key best]|] eqn:Hb.
    + rewrite (allocate_found id now st1 nc key best Hc1 Hb).
      exact (tr_ingest_allocated st (session_email s) b noise now key best Hb).
    + rewrite (allocate_not_found id now st1 nc Hc1 Hb).
      exact (tr_ingest_unallocated st (session_email s) b noise now Hb).
  - unfold interaction. apply on_case_transition. intros s c Hc.
    apply (tr_case st id c); [exact Hc|constructor|now left].
  - unfold document. destruct (body_content b) as [content|].
    + apply on_case_transition. intros s c Hc.
      apply (tr_case st id c); [exact Hc|constructor|now left].
    + destruct session; [|constructor].
      destruct (map_get id (caseRegistry st)); constructor.
  - unfold escalate. apply on_case_transition. intros s c Hc.
    apply (tr_case st id c); [exact Hc|constructor|now left].
  - unfold resolve. apply on_case_transition. intros s c Hc.
    apply (tr_case st id c); [exact Hc|constructor|].
    destruct (allocatedDCA c) as [agent|]; [|now left].
    destruct (truthy_amount _); [|now left].
    right. eauto.
  - unfold slaStatus. destruct session; [|constructor].
    pose proof (sla_loop_cases now (caseRegistry st) (dcaProfiles st)) as Hcs.
    pose proof (tr_sla st now) as Ht.
    destruct (sla_loop now (caseRegistry st) (dcaProfiles st)) as [[cs dcas] es].
    simpl in *. now rewrite Hcs.
Qed.

(** *** Agents some requests later *)

Lemma agent_later_refl d : agent_later d d.
Proof.
  repeat split; try lia. exists []. now rewrite app_nil_r.
Qed.

Lemma agent_later_trans a b c : agent_later a b -> agent_later b c -> agent_later a c.
Proof.
  intros (I1 & C1 & L1 & [m1 E1] & B1) (I2 & C2 & L2 & [m2 E2] & B2).
  repeat split; try lia; try congruence.
  exists (m1 ++ m2). now rewrite E2, E1, app_assoc.
Qed.

Lemma agent_write_later f d : agent_write f -> agent_later d (f d).
Proof.
  destruct 1; repeat split; simpl; try lia.
  - now exists [id].
  - exists []. now rewrite app_nil_r.
  - exists []. now rewrite app_nil_r.
Qed.

Lemma evolves_later l l' : evolves l l' -> table_rel agent_later l l'.
Proof.
  induction 1 as [|l' k f Hev IH Hw].
  - apply table_rel_refl, agent_later_refl.
  - eapply table_rel_trans; [exact agent_later_trans|exact IH|].
    apply table_rel_update; [exact agent_later_refl|].
    intro v. now apply agent_write_later.
Qed.

Lemma table_rel_Forall {V : Type} (R : V -> V -> Prop) (P : string * V -> Prop) l l' :
  (forall k v v', R v v' -> P (k, v) -> P (k, v')) ->
  table_rel R l l' -> Forall P l -> Forall P l'.
Proof.
  intros HP. unfold table_rel.
  induction 1 as [|[k v] [k' v'] l l' [Hk Hv] _ IH]; intro H; [constructor|].
  inversion H; subst. simpl in *. subst k'. constructor; eauto.
Qed.

(** *** The agent table has its four agents under their identifiers *)

Lemma same_agents_get l k d :
  same_agents l -> In (k, d) l -> map_get k l = Some d /\ dcaId d = k.
Proof.
  unfold same_agents, dcaProfiles0. intro H.
  destruct l as [|[k1 d1] [|[k2 d2] [|[k3 d3] [|[k4 d4] [|? ?]]]]]; try discriminate H.
  simpl in H. injection H as -> E1 -> E2 -> E3 -> E4.
  intros [[= <- <-]|[[= <- <-]|[[= <- <-]|[[= <- <-]|[]]]]]; split; auto.
Qed.

(** *** The invariant *)

Lemma issued_fresh st :
  issued st -> ~ In (new_caseId (caseIdCounter st + 1)) (map fst (caseRegistry st)).
Proof.
  intros [Hc Hk] Hin. destruct (Hk _ Hin) as (n & Hn & E).
  apply new_caseId_inj in E; lia.
Qed.

Lemma map_values_keys {V : Type} (g : V -> V) (l : list (string * V)) :
  map fst (map (fun e => (fst e, g (snd e))) l) = map fst l.
Proof. rewrite map_map. apply map_ext. reflexivity. Qed.

Lemma transition_issued st st' : issued st -> transition st st' -> issued st'.
Proof.
  intros [Hc Hk] Ht. destruct Ht; simpl.
  - split; assumption.
  - split; simpl; [lia|]. intros id Hin.
    apply map_set_keys in Hin. destruct Hin as [->|Hin].
    + exists (caseIdCounter st + 1)%Z. split; [lia|reflexivity].
    + destruct (Hk _ Hin) as (n & Hn & E). exists n. split; [lia|exact E].
  - split; simpl; [lia|]. intros id Hin.
    rewrite map_update_keys in Hin. simpl in Hin.
    apply map_set_keys in Hin. destruct Hin as [->|Hin].
    + exists (caseIdCounter st + 1)%Z. split; [lia|reflexivity].
    + destruct (Hk _ Hin) as (n & Hn & E). exists n. split; [lia|exact E].
  - split; simpl; [assumption|]. intros id0 Hin.
    rewrite map_update_keys in Hin. auto.
  - split; simpl; [assumption|]. intros id0 Hin.
    rewrite map_values_keys in Hin. auto.
Qed.

Lemma case_write_consistent f c :
  case_write f -> allocation_consistent c ->
  caseId (f c) = caseId c /\ allocatedDCA (f c) = allocatedDCA c /\
  allocation_consistent (f c).
Proof.
  unfold allocation_consistent.
  destruct 1; intros (H1 & H2 & H3 & H4); simpl;
    (split; [reflexivity|]); (split; [reflexivity|]);
    (split; [exact H1|]); (split; [exact H2|]);
    (split; [first [exact H3|intros _; discriminate]
            |first [exact H4|discriminate]]).
Qed.

Lemma sla_case_consistent now c :
  allocation_consistent c ->
  caseId (sla_case now c) = caseId c /\
  allocatedDCA (sla_case now c) = allocatedDCA c /\
  allocation_consistent (sla_case now c).
Proof.
  intro H. destruct (sla_case_cases now c) as [->|[-> _]]; [auto|].
  unfold allocation_consistent in *. simpl. auto.
Qed.

Lemma newCase_consistent id email b noise now :
  allocation_consistent (newCase id email b noise now).
Proof.
  unfold allocation_consistent. simpl.
  repeat split; try reflexivity; try discriminate. congruence.
Qed.

Lemma allocated_case_consistent best score cands now c :
  allocation_consistent (allocated_case best score cands now c).
Proof.
  unfold allocation_consistent. simpl.
  repeat split; try discriminate.
Qed.

Lemma transition_cases st st' :
  (forall id c, map_get id (caseRegistry st) = Some c ->
     caseId c = id /\ allocation_consistent c) ->
  transition st st' ->
  forall id c, map_get id (caseRegistry st') = Some c ->
    caseId c = id /\ allocation_consistent c.
Proof.
  intros H Ht. destruct Ht; simpl; [exact H| | | |].
  - intros id c. destruct (string_dec id (new_caseId (caseIdCounter st + 1))) as [->|Hne].
    + rewrite map_get_set. intros [= <-]. split; [reflexivity|].
      apply newCase_consistent.
    + rewrite map_get_set_other by exact Hne. apply H.
  - intros id c. destruct (string_dec id (new_caseId (caseIdCounter st + 1))) as [->|Hne].
    + rewrite map_get_update. simpl. rewrite map_get_set. simpl.
      intros [= <-]. split; [reflexivity|]. apply allocated_case_consistent.
    + rewrite map_get_update_other by exact Hne. simpl.
      rewrite map_get_set_other by exact Hne. apply H.
  - intros id0 c0 Hg. apply map_get_update_cases in Hg.
    destruct Hg as [[-> (v & Hv & ->)]|[_ Hg]]; [|now apply H].
    destruct (H _ _ Hv) as [Hid Hcons].
    destruct (case_write_consistent f v) as (E & _ & Hc'); auto.
    split; [congruence|exact Hc'].
  - intros id c. rewrite map_get_map_values.
    destruct (map_get id (caseRegistry st)) as [c0|] eqn:Hc0; [|discriminate].
    intros [= <-]. destruct (H _ _ Hc0) as [Hid Hcons].
    destruct (sla_case_consistent now c0 Hcons) as (E & _ & Hc').
    split; [congruence|exact Hc'].
Qed.

Lemma holds_later dcas dcas' a id :
  table_rel agent_later dcas dcas' ->
  (exists d, map_get a dcas = Some d /\ dcaId d = a /\ In id (cases d)) ->
  exists d, map_get a dcas' = Some d /\ dcaId d = a /\ In id (cases d).
Proof.
  intros Hrel (d & Hg & Hid & Hin).
  destruct (table_rel_get _ _ _ _ _ Hrel Hg) as (d' & Hg' & Hl).
  destruct Hl as (I & _ & _ & [more E] & _).
  exists d'. split; [exact Hg'|]. split; [congruence|].
  rewrite E. apply in_or_app. now left.
Qed.

Lemma step_invariant st st' : invariant st -> step st st' -> invariant st'.
Proof.
  intros (Hsame & Hiss & Hcap & Hcases & Hhold) Hstep.
  pose proof (step_evolves _ _ Hstep) as Hev.
  pose proof (evolves_later _ _ Hev) as Hlater.
  pose proof (step_transition _ _ Hstep) as Ht.
  assert (Hsame' : same_agents (dcaProfiles st'))
    by (eapply evolves_same_agents; eauto).
  split; [exact Hsame'|]. split; [eapply transition_issued; eauto|].
  split; [|split; [eapply transition_cases; eauto|]].
  - (* the loads stay within the capacities *)
    clear Hlater Hev Hsame'. destruct Ht; simpl; try exact Hcap.
    + apply Forall_map_update_at; [|exact Hcap].
      intros v Hv _.
      match goal with Hb : bestDCA _ = Some _ |- _ =>
        destruct (scan_best_has_room _ _ _ Hb) as [Hin Hel] end.
      destruct (same_agents_get _ _ _ Hsame Hin) as [Hg _].
      rewrite Hg in Hv. injection Hv as <-.
      rewrite Forall_forall in Hcap. specialize (Hcap _ Hin).
      unfold within_capacity, eligible in *. simpl in *. lia.
    + match goal with H : _ \/ _ |- _ => destruct H as [->|(agent & q & _ & ->)] end;
        [exact Hcap|].
      apply Forall_map_update; [|exact Hcap]. intros k' v Hv. exact Hv.
    + eapply table_rel_Forall; [|apply sla_loop_penalized|exact Hcap].
      intros k v v' [_ E] Hv. unfold within_capacity in *. rewrite E. simpl. exact Hv.
  - (* the agent of every case holds it *)
    unfold agents_hold_cases in *. intros id c a Hg Ha.
    destruct Ht; simpl in *.
    + eauto.
    + destruct (string_dec id (new_caseId (caseIdCounter st + 1))) as [->|Hne].
      * rewrite map_get_set in Hg. injection Hg as <-. discriminate Ha.
      * rewrite map_get_set_other in Hg by exact Hne. eauto.
    + destruct (string_dec id (new_caseId (caseIdCounter st + 1))) as [->|Hne].
      * rewrite map_get_update, map_get_set in Hg. simpl in Hg.
        injection Hg as <-. simpl in Ha. injection Ha as <-.
        match goal with Hb : bestDCA _ = Some _ |- _ =>
          destruct (scan_best_has_room _ _ _ Hb) as [Hin _] end.
        destruct (same_agents_get _ _ _ Hsame Hin) as [Hgk Hid].
        exists (reserve (new_caseId (caseIdCounter st + 1)) best).
        rewrite Hid, map_get_update, Hgk. simpl.
        split; [reflexivity|]. split; [exact Hid|].
        apply in_or_app. right. now left.
      * rewrite map_get_update_other, map_get_set_other in Hg by exact Hne.
        apply (holds_later (dcaProfiles st)); [exact Hlater|eauto].
    + apply map_get_update_cases in Hg.
      destruct Hg as [[-> (v & Hv & ->)]|[_ Hg]].
      * destruct (Hcases _ _ Hv) as [_ Hcons].
        destruct (case_write_consistent f v) as (_ & E & _); auto.
        rewrite E in Ha.
        apply (holds_later (dcaProfiles st)); [exact Hlater|eauto].
      * apply (holds_later (dcaProfiles st)); [exact Hlater|eauto].
    + rewrite map_get_map_values in Hg.
      destruct (map_get id (caseRegistry st)) as [c0|] eqn:Hc0; [|discriminate].
      injection Hg as <-. destruct (Hcases _ _ Hc0) as [_ Hcons].
      destruct (sla_case_consistent now c0 Hcons) as (_ & E & _).
      rewrite E in Ha.
      apply (holds_later (dcaProfiles st)); [exact Hlater|eauto].
Qed.

Lemma reachable_invariant st : reachable st -> invariant st.
Proof.
  induction 1 as [|st st' _ IH Hs]; [|eapply step_invariant; eauto].
  split; [reflexivity|]. split; [|split; [|split]].
  - split; simpl; [lia|]. intros id [].
  - repeat constructor; simpl; lia.
  - intros id c. discriminate.
  - intros id c a. discriminate.
Qed.

End DcaMoreFacts.

(** * Further properties of [src/dca-api.js] *)

Module DcaExtras.

Import DcaApi DcaProps DcaFacts DcaExamples DcaMore DcaMoreProps DcaMoreFacts
  DcaMoreExamples.
Open Scope Q_scope.

Lemma Math_min_le_l x y : Math_min x y <= x.
Proof.
  unfold Math_min. destruct (Qle_bool x y) eqn:E; [apply Qle_refl|].
  apply Qlt_le_weak. apply Qgtb_true. unfold Qgtb. now rewrite E.
Qed.

Lemma Math_min_le_r x y : Math_min x y <= y.
Proof.
  unfold Math_min. destruct (Qle_bool x y) eqn:E; [|apply Qle_refl].
  now apply Qle_bool_iff.
Qed.

Lemma Math_min_glb x y z : z <= x -> z <= y -> z <= Math_min x y.
Proof. intros. unfold Math_min. now destruct (Qle_bool x y). Qed.

Lemma Math_max_lub x y z : x <= z -> y <= z -> Math_max x y <= z.
Proof. intros. unfold Math_max. now destruct (Qle_bool x y). Qed.

Lemma Math_max_upper x y : y <= Math_max x y.
Proof.
  unfold Math_max. destruct (Qle_bool x y) eqn:E; [apply Qle_refl|].
  apply Qlt_le_weak. apply Qgtb_true. unfold Qgtb. now rewrite E.
Qed.

Lemma lit_fifth : exists lo, lit 0.2 = Num lo /\ 0.2 <= lo <= 1.
Proof. eexists. split; [vm_compute; reflexivity|]. split; vm_compute; discriminate. Qed.

(** X1. The recovery probability of an amount and an age that are numbers
    and not negative, with a draw of [Math.random()] between 0 and 1, is a
    number between 0.2 and 1. Whatever the amount and the age are, it is
    [NaN] or a number between 0.2 and 1, and it is [NaN] when the amount or
    the age is [NaN], as for a request without the field. The bound 0.2
    cannot be raised to 0.225, which the exact arithmetic would give: for
    an amount of 1000000 and an age of 400 with the draw 0 the binary64
    result is below 0.225. *)
Theorem recovery_probability_range (amount age noise : Q) :
  0 <= amount -> 0 <= age -> 0 <= noise <= 1 ->
  (exists q, calculateRecoveryProbability amount age noise = Num q /\
             0.2 <= q <= 1) /\
  (forall (x y : JsNum) n,
     calculateRecoveryProbability x y n = NaN \/
     exists q, calculateRecoveryProbability x y n = Num q /\ 0.2 <= q <= 1) /\
  (forall y n, calculateRecoveryProbability NaN y n = NaN) /\
  (forall x n, calculateRecoveryProbability x NaN n = NaN) /\
  (exists q, calculateRecoveryProbability 1000000 400 0 = Num q /\ q < 0.225).
Proof.
  intros Ham Hag [Hn0 Hn1].
  destruct lit_fifth as (lo & Elo & Hlo0 & Hlo1).
  split; [|split; [|split; [|split]]].
  - unfold calculateRecoveryProbability. cbv zeta.
    replace (lit 0.5) with (Num (1 # 2)) by (vm_compute; reflexivity).
    assert (E4 : exists c, lit 0.4 = Num c /\ 0 <= c <= 1).
    { eexists. split; [vm_compute; reflexivity|]. split; vm_compute; discriminate. }
    destruct E4 as (c4 & -> & Hc4).
    destruct (factor_within age 360 (1 # 2)) as (af & -> & Haf);
      [exact Hag|reflexivity|discriminate|].
    destruct (factor_within amount 500000 c4) as (mf & -> & Hmf);
      [exact Ham|reflexivity|tauto|].
    assert (W1 : within 1 (Num 1)) by (vm_compute; discriminate).
    assert (Waf : within 1 (Num af)) by (cbn [within]; rewrite Qabs_pos; lra).
    assert (Wmf : within 1 (Num mf)) by (cbn [within]; rewrite Qabs_pos; lra).
    assert (Wn : within 1 (Num noise)) by (cbn [within]; rewrite Qabs_pos; lra).
    assert (Wbase : within 51 ((1 - af) * (1 - mf))%js).
    { apply (mul_within _ _ 5 5); [| |reflexivity||discriminate].
      - apply (sub_within _ _ 1 1); [exact W1|exact Waf|discriminate].
      - apply (sub_within _ _ 1 1); [exact W1|exact Wmf|discriminate]. }
    assert (Wnoise : within 21 (noise * lit 0.15 - lit 0.075)%js).
    { apply (sub_within _ _ 7 3); [| |discriminate].
      - apply (mul_within _ _ 1 3); [exact Wn| |discriminate].
        apply lit_within. split; discriminate.
      - apply lit_within. split; discriminate. }
    pose proof (add_within _ _ _ _ Wbase Wnoise) as Ws.
    destruct (within_number _ _ (Ws ltac:(discriminate))) as (s & ->).
    rewrite Elo. destruct (clamp_number s lo Hlo1) as (q & -> & Hq).
    exists q. split; [reflexivity|]. split; [|tauto].
    apply Qle_trans with lo; tauto.
  - intros x y n. unfold calculateRecoveryProbability. cbv zeta. rewrite Elo.
    destruct (clamp_range (
      ((1 - Js.min (y / 360) (lit 0.5)) * (1 - Js.min (x / 500000) (lit 0.4)) +
       (n * lit 0.15 - lit 0.075))%js) lo Hlo1) as [H|(q & H & Hq)].
    + left. exact H.
    + right. exists q. split; [exact H|]. split; [|tauto].
      apply Qle_trans with lo; tauto.
  - intros y n. unfold calculateRecoveryProbability. cbv zeta.
    unfold Js.div at 2. cbn [Js.min]. unfold Js.sub at 2. cbn [Js.opp].
    unfold Js.add at 2. rewrite mul_NaN_r. unfold Js.add. cbn [Js.min].
    apply max_NaN_r.
  - intros x n. unfold calculateRecoveryProbability. cbv zeta.
    unfold Js.div at 1. cbn [Js.min]. unfold Js.sub at 1. cbn [Js.opp].
    unfold Js.add at 1. unfold Js.mul, Js.add. cbn [Js.min].
    apply max_NaN_r.
  - eexists. split; [vm_compute; reflexivity|]. vm_compute. reflexivity.
Qed.

Lemma recovery_probability_range_witness :
  exists q, calculateRecoveryProbability 150000 10 0.5 = Num q /\
            0.2 <= q <= 1.
Proof.
  apply (recovery_probability_range 150000 10 0.5);
    [discriminate|discriminate|split; discriminate].
Defined.

Lemma Qgtb_mono x y t : x <= y -> Qgtb x t = true -> Qgtb y t = true.
Proof.
  intros H Hx. apply Qgtb_true. apply Qgtb_true in Hx.
  eapply Qlt_le_trans; eauto.
Qed.

(** X2. The risk index does not go up when the amount and the age go up: a
    larger or older debt is never put in a lower tier. *)
Theorem assessRisk_monotone amount age amount' age' :
  amount <= amount' -> age <= age' ->
  (assessRisk amount' age' <= assessRisk amount age)%nat.
Proof.
  intros Ha Hg. unfold assessRisk. cbn [Js.gt].
  pose proof (Qgtb_mono amount amount' 100000 Ha) as A1.
  pose proof (Qgtb_mono amount amount' 50000 Ha) as A2.
  pose proof (Qgtb_mono amount amount' 20000 Ha) as A3.
  pose proof (Qgtb_mono age age' 180 Hg) as G1.
  pose proof (Qgtb_mono age age' 120 Hg) as G2.
  pose proof (Qgtb_mono age age' 60 Hg) as G3.
  destruct (Qgtb amount 100000) eqn:E1; [rewrite (A1 eq_refl)|];
    (destruct (Qgtb age 180) eqn:E2; [rewrite (G1 eq_refl)|]);
    (destruct (Qgtb amount 50000) eqn:E3; [rewrite (A2 eq_refl)|]);
    (destruct (Qgtb age 120) eqn:E4; [rewrite (G2 eq_refl)|]);
    (destruct (Qgtb amount 20000) eqn:E5; [rewrite (A3 eq_refl)|]);
    (destruct (Qgtb age 60) eqn:E6; [rewrite (G3 eq_refl)|]);
    repeat match goal with
           | |- context [Qgtb ?a ?t] => destruct (Qgtb a t)
           end; simpl; lia.
Qed.

Lemma assessRisk_monotone_witness :
  (assessRisk 150000%Q 65%Q <= assessRisk 30000%Q 65%Q)%nat.
Proof. apply assessRisk_monotone; discriminate. Defined.

Lemma load_bounds st :
  reachable st ->
  Forall (fun e => (0 <= currentLoad (snd e) <= capacity (snd e))%Z /\
                   capacity (snd e) = 5%Z) (dcaProfiles st).
Proof.
  intro Hr. destruct (reachable_invariant st Hr) as (_ & _ & Hcap & _).
  assert (H5 : Forall (fun e => capacity (snd e) = 5%Z) (dcaProfiles st)).
  { eapply (table_rel_Forall agent_later);
      [|apply evolves_later, reachable_evolves, Hr|repeat constructor].
    intros k v v' (_ & E & _) Hv. simpl in *. congruence. }
  rewrite Forall_forall in *. intros e He. split; [apply Hcap|apply H5]; exact He.
Qed.

(** X3. In every state of the server every agent has a capacity of 5 and a
    load between 0 and its capacity. *)
Theorem load_within_capacity st :
  reachable st ->
  Forall (fun e => (0 <= currentLoad (snd e) <= capacity (snd e))%Z /\
                   capacity (snd e) = 5%Z) (dcaProfiles st).
Proof. exact (load_bounds st). Qed.

Lemma load_within_capacity_witness :
  Forall (fun e => (0 <= currentLoad (snd e) <= capacity (snd e))%Z /\
                   capacity (snd e) = 5%Z) (dcaProfiles after_acme).
Proof.
  apply load_within_capacity. apply (reachable_step initial).
  - constructor.
  - apply (step_ingest (Some fedex) acme 0.5 0).
Defined.

Lemma map_update_fresh_app {V : Type} k (f : V -> V) l v :
  ~ In k (map fst l) -> map_update k f (l ++ [(k, v)]) = l ++ [(k, f v)].
Proof.
  induction l as [|[k' v'] l IH]; simpl; intro H.
  - now rewrite String.eqb_refl.
  - destruct (String.eqb k k') eqn:E.
    + apply String.eqb_eq in E. subst. tauto.
    + rewrite IH by tauto. reflexivity.
Qed.

(** X4. An ingestion in a state of the server never writes over a case: the
    identifier it makes is not in the registry, and the registry after it is
    the registry before it followed by the new case under that identifier. *)
Theorem ingest_appends_case s b noise now st :
  reachable st ->
  session_role s = FEDEX ->
  let id := new_caseId (caseIdCounter st + 1) in
  ~ In id (map fst (caseRegistry st)) /\
  exists c,
    fst (ingest (Some s) b noise now st) = Created (id, Some c) /\
    caseRegistry (snd (ingest (Some s) b noise now st)) = caseRegistry st ++ [(id, c)] /\
    caseIdCounter (snd (ingest (Some s) b noise now st)) = (caseIdCounter st + 1)%Z.
Proof.
  intros Hr Hrole id.
  destruct (reachable_invariant st Hr) as (_ & Hiss & _).
  pose proof (issued_fresh st Hiss) as Hfresh. fold id in Hfresh.
  split; [exact Hfresh|].
  unfold ingest. rewrite Hrole. cbv zeta.
  set (st1 := ingest_registered (session_email s) b noise now st).
  set (nc := newCase id (session_email s) b noise now).
  change (new_caseId (caseIdCounter st1)) with id.
  assert (Hc1 : map_get id (caseRegistry st1) = Some nc)
    by apply ingest_registered_case.
  assert (Hreg : caseRegistry st1 = caseRegistry st ++ [(id, nc)])
    by (apply map_set_fresh; exact Hfresh).
  destruct (bestDCA (scan nc (dcaProfiles st1))) as [[key best]|] eqn:Hb.
  - rewrite (allocate_found id now st1 nc key best Hc1 Hb). cbn [caseRegistry snd fst].
    rewrite map_get_update, Hc1. cbn [option_map].
    eexists. split; [reflexivity|]. split; [|reflexivity].
    rewrite Hreg. apply map_update_fresh_app. exact Hfresh.
  - rewrite (allocate_not_found id now st1 nc Hc1 Hb). cbn [snd fst].
    rewrite Hc1. exists nc. split; [reflexivity|]. split; [exact Hreg|reflexivity].
Qed.

Lemma ingest_appends_case_witness :
  exists c,
    fst (ingest (Some fedex) bolt 0.5 777 after_acme) = Created ("FDX-1002", Some c) /\
    caseRegistry (snd (ingest (Some fedex) bolt 0.5 777 after_acme))
      = caseRegistry after_acme ++ [("FDX-1002", c)].
Proof.
  destruct (ingest_appends_case fedex bolt 0.5 777 after_acme) as (_ & c & H1 & H2 & _).
  - apply (reachable_step initial).
    + constructor.
    + apply (step_ingest (Some fedex) acme 0.5 0).
  - reflexivity.
  - exists c. split; [exact H1|exact H2].
Defined.

Lemma carries_on_refl c : carries_on c c.
Proof.
  unfold carries_on. repeat split; try (exists []; now rewrite app_nil_r). auto.
Qed.

Lemma case_write_carries_on f c : case_write f -> carries_on c (f c).
Proof.
  unfold carries_on.
  destruct 1; simpl; repeat split;
    try (exists []; now rewrite app_nil_r); try (eexists; reflexivity); auto.
Qed.

Lemma sla_case_carries_on now c : carries_on c (sla_case now c).
Proof.
  destruct (sla_case_cases now c) as [->|[-> _]]; [apply carries_on_refl|].
  unfold carries_on. simpl.
  repeat split; try (exists []; now rewrite app_nil_r).
Qed.

Lemma stored_not_fresh st id c :
  issued st -> map_get id (caseRegistry st) = Some c ->
  id <> new_caseId (caseIdCounter st + 1).
Proof.
  intros Hiss Hg ->. apply (issued_fresh st Hiss).
  apply map_get_keys. congruence.
Qed.

(** X5. A request never removes a case and never rewrites its history. For
    every case of a state of the server and every request, the case is still
    in the registry after the request, with the same amount, age, tier,
    probability, agent, deadlines and allocation score; its audit trail, its
    interactions, its documents and its disputes are the old ones followed by
    what the request added; its breach flag, once set, stays set. In
    particular a case that was left without an agent is never given one
    later, and the agent of a case never changes. *)
Theorem cases_carry_on st st' id c :
  reachable st -> step st st' ->
  map_get id (caseRegistry st) = Some c ->
  exists c', map_get id (caseRegistry st') = Some c' /\ carries_on c c'.
Proof.
  intros Hr Hs Hc.
  destruct (reachable_invariant st Hr) as (_ & Hiss & _).
  pose proof (stored_not_fresh st id c Hiss Hc) as Hne.
  destruct (step_transition _ _ Hs); simpl.
  - exists c. split; [exact Hc|apply carries_on_refl].
  - exists c. rewrite map_get_set_other by exact Hne.
    split; [exact Hc|apply carries_on_refl].
  - exists c. rewrite map_get_update_other by exact Hne. simpl.
    rewrite map_get_set_other by exact Hne.
    split; [exact Hc|apply carries_on_refl].
  - destruct (string_dec id id0) as [->|Hd].
    + rewrite map_get_update, Hc. simpl. eexists. split; [reflexivity|].
      now apply case_write_carries_on.
    + rewrite map_get_update_other by exact Hd.
      exists c. split; [exact Hc|apply carries_on_refl].
  - rewrite map_get_map_values, Hc. simpl. eexists. split; [reflexivity|].
    apply sla_case_carries_on.
Qed.

Lemma cases_carry_on_witness :
  exists c',
    map_get "FDX-1001" (caseRegistry resolved_acme) = Some c' /\
    carries_on
      (allocated_case john_smith (finalScore acme_case john_smith)
         (candidateDetails (scan acme_case dcaProfiles0)) 0 acme_case) c'.
Proof.
  apply (cases_carry_on after_acme resolved_acme "FDX-1001").
  - apply (reachable_step initial).
    + constructor.
    + apply (step_ingest (Some fedex) acme 0.5 0).
  - apply (step_resolve (Some agent1) "FDX-1001"
             paid 1000 after_acme).
  - vm_compute. reflexivity.
Defined.

(** X6. In every state of the server a case is stored under its own
    identifier; its agent, its deadlines and its allocation score are all set
    or all absent; a case with an agent is not RECEIVED; and no case is
    PRIORITIZED. *)
Theorem allocation_data_consistent st id c :
  reachable st ->
  map_get id (caseRegistry st) = Some c ->
  caseId c = id /\
  (allocatedDCA c = None <-> slaDeadlines c = None) /\
  (allocatedDCA c = None <-> allocationScore c = None) /\
  (allocatedDCA c <> None -> status c <> RECEIVED) /\
  status c <> PRIORITIZED.
Proof.
  intros Hr Hc. destruct (reachable_invariant st Hr) as (_ & _ & _ & H & _).
  exact (H id c Hc).
Qed.

Lemma allocation_data_consistent_witness :
  caseId
    (allocated_case john_smith (finalScore acme_case john_smith)
       (candidateDetails (scan acme_case dcaProfiles0)) 0 acme_case) = "FDX-1001" /\
  status
    (allocated_case john_smith (finalScore acme_case john_smith)
       (candidateDetails (scan acme_case dcaProfiles0)) 0 acme_case) <> PRIORITIZED.
Proof.
  destruct (allocation_data_consistent after_acme "FDX-1001"
              (allocated_case john_smith (finalScore acme_case john_smith)
                 (candidateDetails (scan acme_case dcaProfiles0)) 0 acme_case))
    as (H1 & _ & _ & _ & H5).
  - apply (reachable_step initial).
    + constructor.
    + apply (step_ingest (Some fedex) acme 0.5 0).
  - vm_compute. reflexivity.
  - split; assumption.
Defined.

(** X7. In every state of the server the agent of a case is an agent of the
    table, stored under its own identifier, and the identifier of the case
    is in the list of cases of that agent: the lookups of the agent of a case
    in the SLA status and in the resolution always find it. *)
Theorem allocated_agent_holds_case st id c a :
  reachable st ->
  map_get id (caseRegistry st) = Some c ->
  allocatedDCA c = Some a ->
  exists d, map_get a (dcaProfiles st) = Some d /\ dcaId d = a /\ In id (cases d).
Proof.
  intros Hr Hc Ha. destruct (reachable_invariant st Hr) as (_ & _ & _ & _ & H).
  exact (H id c a Hc Ha).
Qed.

Lemma allocated_agent_holds_case_witness :
  exists d,
    map_get "DCA-001" (dcaProfiles resolved_acme) = Some d /\
    dcaId d = "DCA-001" /\ In "FDX-1001" (cases d).
Proof.
  eapply (allocated_agent_holds_case resolved_acme "FDX-1001").
  - apply (reachable_step after_acme).
    + apply (reachable_step initial).
      * constructor.
      * apply (step_ingest (Some fedex) acme 0.5 0).
    + apply (step_resolve (Some agent1) "FDX-1001"
               paid 1000 after_acme).
  - vm_compute. reflexivity.
  - reflexivity.
Defined.

(** X8. No request lowers the load of an agent, shortens its list of cases,
    changes its capacity or lowers its breach counter: capacity that an
    allocation has taken is never given back, not by a resolution either. So
    agents that are all at capacity stay at capacity after any request. *)
Theorem loads_never_decrease st st' :
  step st st' ->
  table_rel agent_later (dcaProfiles st) (dcaProfiles st') /\
  (Forall (fun e => (capacity (snd e) <= currentLoad (snd e))%Z) (dcaProfiles st) ->
   Forall (fun e => (capacity (snd e) <= currentLoad (snd e))%Z) (dcaProfiles st')).
Proof.
  intro Hs.
  assert (H : table_rel agent_later (dcaProfiles st) (dcaProfiles st'))
    by (apply evolves_later, step_evolves, Hs).
  split; [exact H|].
  apply (table_rel_Forall agent_later); [|exact H].
  intros k v v' (_ & Ec & Hl & _) Hv. simpl in *. lia.
Qed.

Lemma loads_never_decrease_witness :
  table_rel agent_later (dcaProfiles after_acme) (dcaProfiles resolved_acme).
Proof.
  apply loads_never_decrease.
  apply (step_resolve (Some agent1) "FDX-1001"
           paid 1000 after_acme).
Defined.

(** X9. The SLA status query changes nothing but breach data. It keeps the
    counter and the keys of the registry; every case is as it was, or is the
    same case with its breach flag set, which happens only to a case that is
    not RESOLVED and is past its resolution deadline; every agent is as it
    was but for a breach counter that is not smaller. *)
Theorem sla_status_only_penalizes session now st :
  let st' := snd (slaStatus session now st) in
  caseIdCounter st' = caseIdCounter st /\
  map fst (caseRegistry st') = map fst (caseRegistry st) /\
  (forall id c, map_get id (caseRegistry st) = Some c ->
     exists c', map_get id (caseRegistry st') = Some c' /\
       (c' = c \/
        c' = mark_breached c /\ status c <> RESOLVED /\
        exists dl, slaDeadlines c = Some dl /\ (resolution dl < now)%Z)) /\
  table_rel only_penalized (dcaProfiles st) (dcaProfiles st').
Proof.
  unfold slaStatus. destruct session as [s|].
  2:{ simpl. split; [reflexivity|]. split; [reflexivity|]. split.
      - intros id c Hc. exists c. auto.
      - apply table_rel_refl, only_penalized_refl. }
  pose proof (sla_loop_cases now (caseRegistry st) (dcaProfiles st)) as Hcs.
  pose proof (sla_loop_penalized now (caseRegistry st) (dcaProfiles st)) as Hd.
  destruct (sla_loop now (caseRegistry st) (dcaProfiles st)) as [[cs dcas] es].
  simpl in *. subst cs.
  split; [reflexivity|]. split; [apply map_values_keys|]. split; [|exact Hd].
  intros id c Hc. rewrite map_get_map_values, Hc. simpl.
  eexists. split; [reflexivity|]. apply sla_case_cases.
Qed.

Lemma sla_visit_not_due now c dcas :
  not_due now c ->
  fst (sla_visit now c dcas) = (c, dcas) /\
  match snd (sla_visit now c dcas) with
  | Some e => breached e = false
  | None => True
  end.
Proof.
  unfold not_due, sla_visit. intros [Hs|Hd].
  - rewrite Hs. simpl. auto.
  - destruct (Status_eqb (status c) RESOLVED); [simpl; now auto|].
    destruct (slaDeadlines c) as [dl|]; [|simpl; now auto]. cbv zeta.
    assert (E : (now >? resolution dl)%Z = false)
      by (rewrite Z.gtb_ltb; apply Z.ltb_ge; exact Hd).
    rewrite E. simpl. auto.
Qed.

Lemma sla_loop_not_due now cs dcas :
  (forall e, In e cs -> not_due now (snd e)) ->
  fst (sla_loop now cs dcas) = (cs, dcas) /\
  Forall (fun e => breached e = false) (snd (sla_loop now cs dcas)).
Proof.
  revert dcas. induction cs as [|[k c] cs IH]; intros dcas H; simpl; [auto|].
  destruct (sla_visit_not_due now c dcas (H (k, c) (or_introl eq_refl))) as [Hv He].
  destruct (sla_visit now c dcas) as [[c' dcas1] oe]. simpl in Hv, He.
  injection Hv as -> ->.
  destruct (IH dcas (fun e He' => H e (or_intror He'))) as [Hl Hes].
  destruct (sla_loop now cs dcas) as [[cs'' dcas2] es]. simpl in *.
  injection Hl as -> ->. split; [reflexivity|].
  destruct oe; [constructor|]; assumption.
Qed.

(** X10. When every case is RESOLVED, has no deadlines or is not past its
    resolution deadline, the SLA status query leaves the tables as they are
    and reports no entry as breached: a resolved case costs its agent no
    further breach, however late the query. *)
Theorem sla_status_quiet session now st :
  (forall e, In e (caseRegistry st) -> not_due now (snd e)) ->
  snd (slaStatus session now st) = st /\
  forall es, fst (slaStatus session now st) = Okay es ->
    Forall (fun e => breached e = false) es.
Proof.
  intro H. unfold slaStatus. destruct session as [s|]; [|split; [reflexivity|discriminate]].
  destruct (sla_loop_not_due now (caseRegistry st) (dcaProfiles st) H) as [Hl Hes].
  destruct (sla_loop now (caseRegistry st) (dcaProfiles st)) as [[cs dcas] es].
  simpl in *. injection Hl as -> ->. split.
  - now destruct st.
  - intros es0 [= <-]. exact Hes.
Qed.

Lemma sla_status_quiet_witness :
  snd (slaStatus (Some fedex) eight_days resolved_acme) = resolved_acme.
Proof.
  apply sla_status_quiet. intros e He. vm_compute in He.
  destruct He as [<-|[]]. left. reflexivity.
Defined.

(** X11. Logging an interaction on a stored case always records it, with the
    agent of the user, as the last interaction of the case, makes the case
    IN_PROGRESS and leaves the agents alone. The audit trail gains the entry
    INTERACTION_LOGGED, preceded by an entry SOP_VIOLATION exactly when the
    interaction is a CALL and the hour is before 9 or after 18; at any minute
    of the hour 18 a call is within the permitted hours. A result DISPUTE
    adds a dispute in state PENDING with the details as its reason, and no
    other result adds one. *)
Theorem interaction_records s id b now hour st c :
  map_get id (caseRegistry st) = Some c ->
  let logged :=
    mkAudit "INTERACTION_LOGGED" (session_email s) now
      [Str (body_type b); Str " interaction: "; Str (body_result b)] in
  let violation :=
    mkAudit "SOP_VIOLATION" (session_email s) now
      [Str "Contact outside permitted hours"] in
  exists c',
    interaction (Some s) id b now hour st
      = (Okay c', {| caseRegistry := map_update id (fun _ => c') (caseRegistry st);
                     dcaProfiles := dcaProfiles st;
                     caseIdCounter := caseIdCounter st |}) /\
    status c' = IN_PROGRESS /\
    interactions c' = interactions c ++
      [mkInteraction (body_type b) (body_details b) (body_result b) now (session_dcaId s)] /\
    (body_type b = "CALL" /\ (hour < 9 \/ 18 < hour)%Z ->
     auditTrail c' = auditTrail c ++ [violation; logged]) /\
    (~ (body_type b = "CALL" /\ (hour < 9 \/ 18 < hour)%Z) ->
     auditTrail c' = auditTrail c ++ [logged]) /\
    (body_result b = "DISPUTE" ->
     disputes c' = disputes c ++ [mkDispute (body_details b) now "PENDING"]) /\
    (body_result b <> "DISPUTE" -> disputes c' = disputes c).
Proof.
  intros Hc logged violation. exists (interaction_case s b now hour c).
  split; [|split; [reflexivity|split; [reflexivity|]]].
  - unfold interaction, on_case. rewrite Hc. cbn [caseRegistry].
    rewrite map_get_update, Hc. cbn [option_map]. f_equal. f_equal.
    revert Hc. clear. induction (caseRegistry st) as [|[k v] l IH]; simpl;
      [reflexivity|].
    destruct (String.eqb id k); [now intros [= ->]|].
    intro Hc. now rewrite IH.
  - unfold interaction_case, isWithinPermittedHours. cbn [auditTrail disputes].
    split; [|split; [|split]].
    + intros [Ht Hh].
      assert (Et : String.eqb (body_type b) "CALL" = true)
        by (rewrite Ht; reflexivity).
      rewrite Et. simpl.
      assert (E : ((9 <=? hour)%Z && (hour <=? 18)%Z) = false).
      { apply andb_false_iff. destruct Hh; [left; apply Z.leb_gt|right; apply Z.leb_gt];
          assumption. }
      rewrite E. simpl. reflexivity.
    + intro Hn.
      destruct (String.eqb (body_type b) "CALL") eqn:Et; [|reflexivity].
      destruct ((9 <=? hour)%Z && (hour <=? 18)%Z) eqn:Eh; [reflexivity|].
      exfalso. apply Hn. split; [now apply String.eqb_eq|].
      apply andb_false_iff in Eh. destruct Eh as [Eh|Eh]; apply Z.leb_gt in Eh; lia.
    + intro Hr.
      assert (Er : String.eqb (body_result b) "DISPUTE" = true)
        by (rewrite Hr; reflexivity).
      rewrite Er. reflexivity.
    + intro Hr. destruct (String.eqb (body_result b) "DISPUTE") eqn:Er.
      * apply String.eqb_eq in Er. contradiction.
      * now rewrite app_nil_r.
Qed.

Lemma interaction_records_witness :
  exists c',
    fst (interaction (Some agent1) "FDX-1001" late_call 5000 20 after_acme) = Okay c' /\
    status c' = IN_PROGRESS /\
    map action (auditTrail c')
      = ["CASE_CREATED"; "CASE_ALLOCATED"; "SOP_VIOLATION"; "INTERACTION_LOGGED"].
Proof.
  destruct (interaction_records agent1 "FDX-1001" late_call 5000 20 after_acme
              (allocated_case john_smith (finalScore acme_case john_smith)
                 (candidateDetails (scan acme_case dcaProfiles0)) 0 acme_case))
    as (c' & H1 & H2 & _ & H4 & _).
  - vm_compute. reflexivity.
  - exists c'. rewrite H1. split; [reflexivity|]. split; [exact H2|].
    rewrite H4 by (split; [reflexivity|right; reflexivity]).
    reflexivity.
Defined.

(** X12. Resolving a stored case that has an agent, in a state of the
    server, makes it RESOLVED with the recovered amount of the request (0
    when the value is falsy) and keeps its agent. Every agent keeps its load
    and its list of cases: the resolution frees no capacity. With a truthy
    recovered amount the total of the agent of the case becomes
    [total += recoveredAmount] and no other agent changes: for two numbers it
    is the binary64 sum, which is the exact sum for integers of at most 53
    bits, and for a string it is the total followed by the string. With a
    falsy value the agent table is as it was. *)
Theorem resolve_credits_agent s id b now st c a :
  reachable st ->
  map_get id (caseRegistry st) = Some c ->
  allocatedDCA c = Some a ->
  let st' := snd (resolve (Some s) id b now st) in
  (exists c',
     map_get id (caseRegistry st') = Some c' /\ status c' = RESOLVED /\
     allocatedDCA c' = Some a /\
     recoveredAmount c' = Some (amount_or_zero (body_recoveredAmount b))) /\
  table_rel (fun d d' => currentLoad d' = currentLoad d /\ cases d' = cases d)
    (dcaProfiles st) (dcaProfiles st') /\
  (truthy (body_recoveredAmount b) = true ->
     exists d d',
       map_get a (dcaProfiles st) = Some d /\
       map_get a (dcaProfiles st') = Some d' /\
       dca_recoveredAmount d' =
         plus_assign (dca_recoveredAmount d) (body_recoveredAmount b) /\
       (forall total q : Q,
          dca_recoveredAmount d = Sum total ->
          body_recoveredAmount b = JNumber q ->
          dca_recoveredAmount d' = Sum (R64 (total + q))) /\
       (forall total q : Z,
          dca_recoveredAmount d = Sum (inject_Z total) ->
          body_recoveredAmount b = JNumber (inject_Z q) ->
          (Z.abs (total + q) <= 2 ^ 53)%Z ->
          dca_recoveredAmount d' = Sum (inject_Z (total + q))) /\
       (forall (total : JsNum) text,
          dca_recoveredAmount d = Sum total ->
          body_recoveredAmount b = JString text ->
          dca_recoveredAmount d' = Text [NumFrag (JNumber total); Str text]) /\
       forall k, k <> a -> map_get k (dcaProfiles st') = map_get k (dcaProfiles st)) /\
  (truthy (body_recoveredAmount b) = false ->
   dcaProfiles st' = dcaProfiles st).
Proof.
  intros Hr Hc Ha st'.
  destruct (reachable_invariant st Hr) as (_ & _ & _ & _ & Hhold).
  destruct (Hhold id c a Hc Ha) as (d & Hd & _ & _).
  assert (Hst : st' =
    {| caseRegistry := map_update id (resolve_case s b now) (caseRegistry st);
       dcaProfiles :=
         if truthy (body_recoveredAmount b)
         then map_update a (add_recovered (body_recoveredAmount b))
                (dcaProfiles st)
         else dcaProfiles st;
       caseIdCounter := caseIdCounter st |}).
  { unfold st', resolve, on_case. rewrite Hc, Ha. cbn [caseRegistry].
    rewrite map_get_update, Hc. reflexivity. }
  rewrite Hst. cbn [caseRegistry dcaProfiles]. split; [|split; [|split]].
  - rewrite map_get_update, Hc. simpl. eexists. split; [reflexivity|].
    simpl. auto.
  - destruct (truthy _).
    + apply table_rel_update; simpl; auto.
    + apply table_rel_refl. auto.
  - intros ->. exists d, (add_recovered (body_recoveredAmount b) d).
    split; [exact Hd|]. split; [now rewrite map_get_update, Hd|].
    cbn [add_recovered dca_recoveredAmount].
    split; [reflexivity|]. split; [|split; [|split]].
    + intros total q -> ->. reflexivity.
    + intros total q -> -> Hz. cbn [plus_assign]. unfold Js.add.
      rewrite (R64_comp _ (inject_Z (total + q)))
        by (rewrite inject_Z_plus; reflexivity).
      now rewrite R64_integer.
    + intros total text -> ->. reflexivity.
    + intros k Hk. now apply map_get_update_other.
  - intros ->. reflexivity.
Qed.

Lemma resolve_credits_agent_witness :
  exists d d',
    map_get "DCA-001" (dcaProfiles after_acme) = Some d /\
    map_get "DCA-001" (dcaProfiles resolved_acme) = Some d' /\
    dca_recoveredAmount d' = plus_assign (dca_recoveredAmount d) (JNumber 5000).
Proof.
  destruct (resolve_credits_agent agent1 "FDX-1001"
              paid 1000 after_acme
              (allocated_case john_smith (finalScore acme_case john_smith)
                 (candidateDetails (scan acme_case dcaProfiles0)) 0 acme_case)
              "DCA-001") as (_ & _ & H & _).
  - apply (reachable_step initial).
    + constructor.
    + apply (step_ingest (Some fedex) acme 0.5 0).
  - vm_compute. reflexivity.
  - reflexivity.
  - destruct (H eq_refl) as (d & d' & H1 & H2 & H3 & _).
    exists d, d'. auto.
Defined.

(** X13. [GET /api/cases] shows a DCA user the cases of the registry that
    are allocated to the agent of that user, in the order of the registry,
    and nothing else: no case of another agent and no case without an agent.
    It shows every other role all the cases. The total of the statistics is
    the number of cases shown, and none of the three other counts exceeds
    it. *)
Theorem listCases_scope s st :
  exists stats cases,
    listCases (Some s) st = Okay (stats, cases) /\
    (session_role s = ROLE_DCA ->
     forall c, In c cases <->
       In c (map snd (caseRegistry st)) /\
       exists a, allocatedDCA c = Some a /\ session_dcaId s = Some a) /\
    (session_role s <> ROLE_DCA -> cases = map snd (caseRegistry st)) /\
    stats_total stats = List.length cases /\
    (stats_critical stats <= stats_total stats)%nat /\
    (stats_breached stats <= stats_total stats)%nat /\
    (stats_resolved stats <= stats_total stats)%nat.
Proof.
  eexists _, _. split; [reflexivity|]. cbn [stats_total stats_critical
    stats_breached stats_resolved].
  split; [|split; [|split; [reflexivity|repeat split; apply filter_length_le]]].
  - intros Hrole c. unfold visible_cases. rewrite Hrole, filter_In.
    split; intros [Hin H]; (split; [exact Hin|]).
    + unfold same_agent in H. destruct (allocatedDCA c) as [a|]; [|discriminate].
      destruct (session_dcaId s) as [u|]; [|discriminate].
      apply String.eqb_eq in H. subst. eauto.
    + destruct H as (a & -> & ->). simpl. apply String.eqb_refl.
  - intro Hrole. unfold visible_cases. destruct (session_role s); try reflexivity.
    contradiction.
Qed.

(** The [users] table of the handlers is the table of the accounts without
    the passwords and the companies. *)
Lemma account_user email u :
  map_get email accounts = Some u ->
  map_get email users = Some (mkUser (role u) (account_name u) (account_dcaId u)).
Proof.
  unfold accounts, users. simpl.
  repeat (destruct (String.eqb email _); [now intros [= <-]|]).
  discriminate.
Qed.

(** X14. A login succeeds exactly for an email of the accounts with its
    password. It then stores a session under the session id, which
    [verifySession] gives back for a header with that id, with the email and
    the role of the account, an email of [users]; the sessions under other
    ids are as they were. A login with an unknown email or another password
    is answered 401 and stores nothing. A request without the header, or with
    an empty one, has no session. *)
Theorem login_then_verify email pass sessionId now sessions :
  sessionId <> "" ->
  (forall u, map_get email accounts = Some u -> password u = pass ->
     fst (login email pass sessionId now sessions)
       = LoggedIn sessionId
           (mkLoginUser email (role u) (account_name u) (company u) (account_dcaId u)) /\
     verifySession (Some sessionId) (snd (login email pass sessionId now sessions))
       = Some (mkStored email (role u) (account_name u) now) /\
     map_get email users = Some (mkUser (role u) (account_name u) (account_dcaId u)) /\
     forall other, other <> sessionId ->
       verifySession (Some other) (snd (login email pass sessionId now sessions))
       = verifySession (Some other) sessions) /\
  ((forall u, map_get email accounts = Some u -> password u <> pass) ->
   login email pass sessionId now sessions = (Unauthorized, sessions)) /\
  verifySession None sessions = None /\
  verifySession (Some "") sessions = None.
Proof.
  intro Hsid. split; [|split; [|split; reflexivity]].
  - intros u Hu Hp. unfold login. rewrite Hu.
    assert (E : String.eqb (password u) pass = true) by now apply String.eqb_eq.
    rewrite E. simpl.
    assert (Es : String.eqb sessionId "" = false).
    { destruct (String.eqb sessionId "") eqn:Es; [|reflexivity].
      apply String.eqb_eq in Es. contradiction. }
    rewrite Es, map_get_set.
    split; [reflexivity|]. split; [reflexivity|]. split.
    + now apply account_user.
    + intros other Ho. destruct (String.eqb other ""); [reflexivity|].
      now apply map_get_set_other.
  - intro H. unfold login. destruct (map_get email accounts) as [u|] eqn:Hu;
      [|reflexivity].
    specialize (H u eq_refl).
    destruct (String.eqb (password u) pass) eqn:E; [|reflexivity].
    apply String.eqb_eq in E. contradiction.
Qed.

Lemma login_then_verify_witness :
  verifySession (Some "0a1b2c") sessions_after_login
  = Some (mkStored "dca1@company.com" ROLE_DCA "DCA Agent 1" 500).
Proof.
  destruct (login_then_verify "dca1@company.com" "dca123" "0a1b2c" 500 [])
    as (H & _); [discriminate|].
  destruct (H (mkAccount "dca123" ROLE_DCA "DCA Agent 1" "DCA Corp" (Some "DCA-001")))
    as (_ & Hv & _); [reflexivity|reflexivity|].
  exact Hv.
Defined.

Lemma substring_prefix n s :
  String.prefix (substring 0 n s) s = true /\
  String.length (substring 0 n s) = Nat.min n (String.length s).
Proof.
  revert s. induction n as [|n IH]; intro s.
  - destruct s; simpl; auto.
  - destruct s as [|a s]; simpl; [auto|].
    destruct (IH s) as [Hp Hl]. rewrite Hl.
    destruct (ascii_dec a a); [auto|contradiction].
Qed.

(** X15. Uploading a document whose content is a string to a stored case
    leaves its status, its agent and the agent table as they are. The case
    gains one document, with the given id and the email of the session, whose
    preview is the beginning of the content and has 200 characters or, for a
    shorter content, all of them; the audit trail gains the entry
    DOCUMENT_UPLOADED. An upload without a string as content is answered
    with an error and stores nothing. *)
Theorem document_upload s id b newId now st c :
  map_get id (caseRegistry st) = Some c ->
  (forall content, body_content b = Some content ->
   exists c' d,
     fst (document (Some s) id b newId now st) = Okay c' /\
     map_get id (caseRegistry (snd (document (Some s) id b newId now st))) = Some c' /\
     dcaProfiles (snd (document (Some s) id b newId now st)) = dcaProfiles st /\
     status c' = status c /\ allocatedDCA c' = allocatedDCA c /\
     documents c' = documents c ++ [d] /\
     docId d = newId /\ uploadedBy d = session_email s /\
     String.prefix (contentPreview d) content = true /\
     String.length (contentPreview d) = Nat.min 200 (String.length content) /\
     auditTrail c' = auditTrail c ++
       [mkAudit "DOCUMENT_UPLOADED" (session_email s) now
          [Str "Document: "; Str (body_fileName b)]]) /\
  (body_content b = None ->
   document (Some s) id b newId now st = (ServerError, st)).
Proof.
  intro Hc. split.
  - intros content Hb. unfold document, on_case. rewrite Hb, Hc.
    cbn [caseRegistry].
    rewrite map_get_update, Hc. cbn [option_map fst snd caseRegistry dcaProfiles].
    rewrite map_get_update, Hc. cbn [option_map].
    eexists _, _. split; [reflexivity|]. split; [reflexivity|].
    split; [reflexivity|]. split; [reflexivity|]. split; [reflexivity|].
    split; [reflexivity|]. split; [reflexivity|]. split; [reflexivity|].
    cbn [contentPreview].
    destruct (substring_prefix 200 content) as [Hp Hl].
    split; [exact Hp|]. split; [exact Hl|reflexivity].
  - intro Hb. unfold document. now rewrite Hb, Hc.
Qed.

Lemma document_upload_witness :
  (exists c' d,
     fst (document (Some agent1) "FDX-1001" note "9f" 3000 after_acme) = Okay c' /\
     documents c' = [] ++ [d] /\ docId d = "9f" /\
     String.length (contentPreview d) = Nat.min 200 (String.length "called twice")) /\
  document (Some agent1) "FDX-1001" empty_note "9f" 3000 after_acme
    = (ServerError, after_acme).
Proof.
  split.
  - destruct (document_upload agent1 "FDX-1001" note "9f" 3000 after_acme
                (allocated_case john_smith (finalScore acme_case john_smith)
                   (candidateDetails (scan acme_case dcaProfiles0)) 0 acme_case))
      as [H _]; [vm_compute; reflexivity|].
    destruct (H "called twice" eq_refl)
      as (c' & d & H1 & _ & _ & _ & _ & H6 & H7 & _ & _ & H10 & _).
    exists c', d. auto.
  - apply (document_upload agent1 "FDX-1001" empty_note "9f" 3000 after_acme
             (allocated_case john_smith (finalScore acme_case john_smith)
                (candidateDetails (scan acme_case dcaProfiles0)) 0 acme_case));
      [vm_compute; reflexivity|reflexivity].
Defined.

Lemma Qfloor_between q n :
  (inject_Z n <= q)%Q -> (q < inject_Z (n + 1))%Q -> Qfloor q = n.
Proof.
  intros Hlo Hhi.
  assert (H1 : (n <= Qfloor q)%Z).
  { rewrite <- (Qfloor_Z n). now apply Qfloor_resp_le. }
  assert (H2 : (Qfloor q < n + 1)%Z).
  { rewrite Zlt_Qlt. eapply Qle_lt_trans; [apply Qfloor_le|exact Hhi]. }
  lia.
Qed.

(** X16. In every state of the server the utilization rate that
    [GET /api/dcas] prints for an agent is 20.0 for each case of its load:
    it has no minus sign and is between 0.0 and 100.0. *)
Theorem utilization_rate_of_load s st :
  reachable st ->
  exists l,
    listDcas (Some s) st = Okay l /\
    Forall (fun x =>
              f_neg (utilizationRate x) = false /\
              f_digits (utilizationRate x) = 1%nat /\
              f_units (utilizationRate x) = (200 * summary_currentLoad x)%Z /\
              (0 <= f_units (utilizationRate x) <= 1000)%Z) l.
Proof.
  intro Hr. eexists. split; [reflexivity|].
  pose proof (load_bounds st Hr) as Hb.
  rewrite Forall_map. eapply Forall_impl; [|exact Hb].
  intros [k d] [[H0 H1] H5]. cbn [snd] in *.
  unfold summary. cbn [utilizationRate summary_currentLoad]. rewrite H5 in *.
  assert (Hload : In (currentLoad d) [0; 1; 2; 3; 4; 5]%Z) by (simpl; lia).
  repeat (destruct Hload as [<-|Hload];
          [vm_compute; repeat split; discriminate|]).
  destruct Hload.
Qed.

Lemma utilization_rate_of_load_witness :
  exists l,
    listDcas (Some fedex) after_acme = Okay l /\
    Forall (fun x => (0 <= f_units (utilizationRate x) <= 1000)%Z) l.
Proof.
  destruct (utilization_rate_of_load fedex after_acme) as (l & Hl & H).
  - apply (reachable_step initial).
    + constructor.
    + apply (step_ingest (Some fedex) acme 0.5 0).
  - exists l. split; [exact Hl|].
    eapply Forall_impl; [|exact H]. intros x (_ & _ & _ & Hx). exact Hx.
Defined.

End DcaExtras.

(** * Further properties of [src/unnamed/part_000] *)

Module InferenceExtras.

Import InferenceApi InferenceProps InferenceFacts InferenceMore InferenceExamples.
Open Scope Q_scope.


(** *** The loop of [allocateCase] *)

Lemma workload_scan_snoc random p l x acc :
  fold_left (scan_step random p) (l ++ [x]) acc
  = scan_step random p (fold_left (scan_step random p) l acc) x.
Proof. now rewrite fold_left_app. Qed.

Lemma room_dec e : has_room e = true <-> (current (snd e) < capacity (snd e))%Z.
Proof.
  unfold has_room. rewrite negb_true_iff, Z.geb_leb, Z.leb_gt. tauto.
Qed.

(** The agent that is found is an agent of the table with room. *)
Lemma scan_best_room random p l k :
  bestDCA (fold_left (scan_step random p) l (mkScan None 0 0)) = Some k ->
  exists w, In (k, w) l /\ (current w < capacity w)%Z.
Proof.
  induction l as [|[kx wx] l IH] using rev_ind; [discriminate|].
  rewrite workload_scan_snoc. unfold scan_step at 1.
  destruct (current wx >=? capacity wx)%Z eqn:Hcap.
  - intro H. destruct (IH H) as (w & Hin & Hw).
    exists w. split; [apply in_or_app; now left|exact Hw].
  - destruct (Qgtb _ _); simpl.
    + intros [= <-]. exists wx. split; [apply in_or_app; right; now left|].
      rewrite Z.geb_leb in Hcap. now apply Z.leb_gt.
    + intro H. destruct (IH H) as (w & Hin & Hw).
      exists w. split; [apply in_or_app; now left|exact Hw].
Qed.

Lemma priorityMultiplier_pos p : 0 < priorityMultiplier p.
Proof. destruct p as [[| | |]|]; reflexivity. Qed.

(** With capacities above zero and draws that are not negative, nothing is
    found only if no agent has room. *)
Lemma scan_none_full random p l :
  (forall e, In e l -> (0 < capacity (snd e))%Z) ->
  (forall k, 0 <= random k) ->
  let r := fold_left (scan_step random p) l (mkScan None 0 0) in
  bestDCA r = None ->
  bestScore r = 0 /\ forall e, In e l -> (capacity (snd e) <= current (snd e))%Z.
Proof.
  intros Hcap Hrand. induction l as [|[kx wx] l IH] using rev_ind.
  - simpl. split; [reflexivity|]. intros e [].
  - cbv zeta. rewrite workload_scan_snoc.
    assert (Hl : forall e, In e l -> (0 < capacity (snd e))%Z)
      by (intros e He; apply Hcap, in_or_app; now left).
    specialize (IH Hl). cbv zeta in IH.
    set (acc := fold_left (scan_step random p) l (mkScan None 0 0)) in *.
    unfold scan_step.
    destruct (current wx >=? capacity wx)%Z eqn:Hx.
    + intro H. destruct (IH H) as [Hb Hall]. split; [exact Hb|].
      intros e He. apply in_app_or in He. destruct He as [He|[<-|[]]]; [auto|].
      simpl. rewrite Z.geb_leb in Hx. now apply Z.leb_le.
    + destruct (Qgtb _ _) eqn:Hgt; simpl; [discriminate|].
      intro H. exfalso. destruct (IH H) as [Hb _].
      rewrite Hb in Hgt. apply Qgtb_false in Hgt.
      rewrite Z.geb_leb in Hx. apply Z.leb_gt in Hx.
      assert (Hc : (0 < capacity wx)%Z)
        by (apply (Hcap (kx, wx)), in_or_app; right; now left).
      revert Hgt. apply Qlt_not_le.
      apply Qmult_lt_0_compat; [apply Qmult_lt_0_compat|].
      * apply Qlt_shift_div_l.
        -- change 0 with (inject_Z 0). rewrite <- Zlt_Qlt. exact Hc.
        -- rewrite Qmult_0_l. change 0 with (inject_Z 0). rewrite <- Zlt_Qlt. lia.
      * apply priorityMultiplier_pos.
      * specialize (Hrand (draws acc)).
        set (d := random _) in *. lra.
Qed.

Lemma scan_full_none random p l :
  (forall e, In e l -> (capacity (snd e) <= current (snd e))%Z) ->
  fold_left (scan_step random p) l (mkScan None 0 0) = mkScan None 0 0.
Proof.
  induction l as [|[kx wx] l IH] using rev_ind; intro H; [reflexivity|].
  rewrite workload_scan_snoc, IH by (intros e He; apply H, in_or_app; now left).
  unfold scan_step.
  assert (E : (current wx >=? capacity wx)%Z = true).
  { rewrite Z.geb_leb. apply Z.leb_le.
    apply (H (kx, wx)), in_or_app. right. now left. }
  now rewrite E.
Qed.

(** What a call of [allocateCase] on a stored case does. *)
Lemma allocateCase_result id random now st c :
  map_get id (caseRegistry st) = Some c ->
  (allocateCase id random now st = Some (false, st) /\
   bestDCA (fold_left (scan_step random (priority c)) (dcaWorkload st)
              (mkScan None 0 0)) = None) \/
  (exists best w score,
     In (best, w) (dcaWorkload st) /\ (current w < capacity w)%Z /\
     allocateCase id random now st
     = Some (true,
             {| caseRegistry :=
                  map_update id (allocated_case best (Some score) now) (caseRegistry st);
                allocationQueue := allocationQueue st;
                dcaWorkload := map_update best (reserve id) (dcaWorkload st);
                caseIdCounter := caseIdCounter st |})).
Proof.
  intro Hc. unfold allocateCase. rewrite Hc. cbv zeta.
  destruct (bestDCA _) as [best|] eqn:Hb; [right|left; auto].
  destruct (scan_best_room _ _ _ _ Hb) as (w & Hin & Hw).
  eexists best, w, _. split; [exact Hin|]. split; [exact Hw|reflexivity].
Qed.

(** X18. With agents whose identifiers are not empty (an empty one counts
    as no agent in [if (!bestDCA)]), capacities above zero and draws of
    [Math.random()] that are not negative, [allocateCase] on a stored case
    succeeds whenever some agent has room: the agent it picks is an agent of
    the table with a load below its capacity, the case becomes ALLOCATED to
    it, and the load and the list of cases of that agent, and of no other,
    are extended. When every agent is at capacity it answers false and
    changes nothing. *)
Theorem allocateCase_takes_room id random now st c :
  map_get id (caseRegistry st) = Some c ->
  (forall e, In e (dcaWorkload st) -> fst e <> ""%string) ->
  (forall e, In e (dcaWorkload st) -> (0 < capacity (snd e))%Z) ->
  (forall k, 0 <= random k) ->
  ((exists e, In e (dcaWorkload st) /\ (current (snd e) < capacity (snd e))%Z) ->
   exists best w st' c',
     allocateCase id random now st = Some (true, st') /\
     In (best, w) (dcaWorkload st) /\ (current w < capacity w)%Z /\
     map_get id (caseRegistry st') = Some c' /\
     status c' = ALLOCATED /\ allocatedDCA c' = Some best /\
     dcaWorkload st' = map_update best (reserve id) (dcaWorkload st)) /\
  ((forall e, In e (dcaWorkload st) -> (capacity (snd e) <= current (snd e))%Z) ->
   allocateCase id random now st = Some (false, st)).
Proof.
  intros Hc _ Hcap Hrand. split.
  - intros (e & He & Hroom).
    destruct (allocateCase_result id random now st c Hc)
      as [[_ Hn]|(best & w & score & Hin & Hw & Ha)].
    + exfalso. destruct (scan_none_full random (priority c) _ Hcap Hrand Hn) as [_ Hfull].
      specialize (Hfull e He). lia.
    + eexists best, w, _, _. split; [exact Ha|]. split; [exact Hin|].
      split; [exact Hw|]. cbn [caseRegistry dcaWorkload].
      rewrite map_get_update, Hc. simpl. auto.
  - intro Hfull. unfold allocateCase. rewrite Hc. cbv zeta.
    now rewrite (scan_full_none random (priority c) _ Hfull).
Qed.

Lemma allocateCase_takes_room_witness :
  exists best w st' c',
    allocateCase "FDX-1001" coin 200 prioritized = Some (true, st') /\
    In (best, w) (dcaWorkload prioritized) /\ (current w < capacity w)%Z /\
    map_get "FDX-1001" (caseRegistry st') = Some c' /\
    status c' = ALLOCATED.
Proof.
  destruct (allocateCase_takes_room "FDX-1001" coin 200 prioritized
              (prioritized_case 0.5 100
                 (mkCase "FDX-1001" "Old Debt Co" 1000 200 RECEIVED None None None None
                    0 None None))) as [H _].
  - vm_compute. reflexivity.
  - intros e He. vm_compute in He.
    destruct He as [<-|[<-|[<-|[<-|[]]]]]; discriminate.
  - intros e He. vm_compute in He.
    destruct He as [<-|[<-|[<-|[<-|[]]]]]; reflexivity.
  - intro k. discriminate.
  - destruct H as (best & w & st' & c' & H1 & H2 & H3 & H4 & H5 & _).
    + exists ("DCA-004", mkWorkload 5 0 []). split; [|reflexivity].
      vm_compute. auto.
    + exists best, w, st', c'. auto.
Defined.



(** X20. [allocatePendingCases] never ends when the first case of the queue
    is a stored case that is neither RECEIVED nor PRIORITIZED, as a case is
    that was allocated by hand while it was still queued: the loop neither
    removes it from the queue nor leaves, whatever the number of turns. *)
Theorem allocatePendingCases_stuck fuel random now st id rest c :
  allocationQueue st = id :: rest ->
  map_get id (caseRegistry st) = Some c ->
  status c <> RECEIVED -> status c <> PRIORITIZED ->
  allocatePendingCases fuel random now st = OutOfFuel.
Proof.
  intros Hq Hc Hr Hp. induction fuel as [|fuel IH]; [reflexivity|].
  simpl. rewrite Hq, Hc.
  assert (E1 : Status_eqb (status c) RECEIVED = false)
    by (destruct (status c); try reflexivity; contradiction).
  assert (E2 : Status_eqb (status c) PRIORITIZED = false)
    by (destruct (status c); try reflexivity; contradiction).
  rewrite E1, Hc, E2. exact IH.
Qed.

Lemma allocatePendingCases_stuck_witness :
  allocatePendingCases 1000 coin 60 allocated_by_hand = OutOfFuel.
Proof.
  apply (allocatePendingCases_stuck 1000 coin 60 allocated_by_hand "FDX-1001" []
           (allocated_case "DCA-004" None 50
              (mkCase "FDX-1001" "Old Debt Co" 1000 200 RECEIVED None None None None
                 0 None None))).
  - reflexivity.
  - vm_compute. reflexivity.
  - discriminate.
  - discriminate.
Defined.

(** An accepted intake stores the case as RECEIVED under its identifier and
    puts the identifier at the end of the queue. *)
Lemma ingest_accepted b now st nc :
  fst (ingest b now st) = Some nc ->
  status nc = RECEIVED /\ allocatedDCA nc = None /\
  snd (ingest b now st)
  = {| caseRegistry := map_set (caseId nc) nc (caseRegistry st);
       allocationQueue := allocationQueue st ++ [caseId nc];
       dcaWorkload := dcaWorkload st;
       caseIdCounter := (caseIdCounter st + 1)%Z |}.
Proof.
  unfold ingest.
  destruct (body_trackingNumber b) as [t|]; [|discriminate].
  destruct (body_debtor b) as [who|]; [|discriminate].
  destruct (body_debtAmount b) as [amount|]; [|discriminate].
  destruct (_ || _ || _); [discriminate|].
  simpl. intros [= <-]. auto.
Qed.

(** X21. After an accepted intake into an empty queue, with agents whose
    identifiers are not empty, capacities above zero and draws that are not
    negative, the run of [allocatePendingCases] that the intake schedules
    ends. If some agent has room, it ends with the queue empty and the case
    ALLOCATED, with the tier of [prioritizeCase]; if every agent is at
    capacity, it ends at its first turn with the case PRIORITIZED, without an
    agent and still first in the queue, and the agents as they were. *)
Theorem queue_after_intake b now st nc random later fuel :
  allocationQueue st = [] ->
  fst (ingest b now st) = Some nc ->
  (forall e, In e (dcaWorkload st) -> fst e <> ""%string) ->
  (forall e, In e (dcaWorkload st) -> (0 < capacity (snd e))%Z) ->
  (forall k, 0 <= random k) ->
  ((exists e, In e (dcaWorkload st) /\ (current (snd e) < capacity (snd e))%Z) ->
   exists st' c' agent,
     allocatePendingCases (S (S fuel)) random later (snd (ingest b now st))
       = Finished st' /\
     allocationQueue st' = [] /\
     map_get (caseId nc) (caseRegistry st') = Some c' /\
     status c' = ALLOCATED /\ allocatedDCA c' = Some agent /\
     priority c' = Some (prioritize (debtAmount nc) (debtAge nc))) /\
  ((forall e, In e (dcaWorkload st) -> (capacity (snd e) <= current (snd e))%Z) ->
   exists st' c',
     allocatePendingCases (S fuel) random later (snd (ingest b now st))
       = Finished st' /\
     allocationQueue st' = [caseId nc] /\
     map_get (caseId nc) (caseRegistry st') = Some c' /\
     status c' = PRIORITIZED /\ allocatedDCA c' = None /\
     dcaWorkload st' = dcaWorkload st).
Proof.
  intros Hq Hacc Hkeys Hcap Hrand.
  destruct (ingest_accepted b now st nc Hacc) as (Hst & Hag & Hsnd).
  rewrite Hsnd, Hq. cbn [app].
  set (st1 := {| caseRegistry := map_set (caseId nc) nc (caseRegistry st);
                 allocationQueue := [caseId nc];
                 dcaWorkload := dcaWorkload st;
                 caseIdCounter := (caseIdCounter st + 1)%Z |}).
  assert (Hc1 : map_get (caseId nc) (caseRegistry st1) = Some nc)
    by apply map_get_set.
  set (st2 := {| caseRegistry :=
                   map_update (caseId nc) (prioritized_case (random 0%nat) later)
                     (caseRegistry st1);
                 allocationQueue := [caseId nc];
                 dcaWorkload := dcaWorkload st;
                 caseIdCounter := (caseIdCounter st + 1)%Z |}).
  assert (Hp : prioritizeCase (caseId nc) (random 0%nat) later st1 = Some st2)
    by (unfold prioritizeCase; now rewrite Hc1).
  set (pc := prioritized_case (random 0%nat) later nc).
  assert (Hc2 : map_get (caseId nc) (caseRegistry st2) = Some pc)
    by (cbn [st2 caseRegistry]; now rewrite map_get_update, Hc1).
  assert (Hrand1 : forall k, 0 <= random (S k)) by (intro k; apply Hrand).
  assert (Hturn : forall n,
    allocatePendingCases (S n) random later st1 =
    match allocateCase (caseId nc) (fun k => random (S k)) later st2 with
    | None => Threw
    | Some (true, st3) =>
        allocatePendingCases n
          (fun k => random (S (draws_of st2 + k))) later (shift st3)
    | Some (false, st3) => Finished st3
    end).
  { intro n. cbn [allocatePendingCases]. cbn [st1 allocationQueue] . fold st1.
    rewrite Hc1, Hst. cbn [Status_eqb]. rewrite Hp, Hc2. reflexivity. }
  destruct (allocateCase_takes_room (caseId nc) (fun k => random (S k)) later st2 pc
              Hc2 Hkeys Hcap Hrand1) as [Hroom Hfull].
  split.
  - intro Hex. destruct (Hroom Hex) as (best & w & st3 & c3 & Ha & _ & _ & Hc3 & Hs3 & Ha3 & _).
    rewrite Hturn, Ha.
    assert (Hq3 : allocationQueue st3 = [caseId nc]).
    { unfold allocateCase in Ha. rewrite Hc2 in Ha. cbv zeta in Ha.
      destruct (bestDCA _); [|discriminate]. now injection Ha as <-. }
    assert (Hp3 : priority c3 = Some (prioritize (debtAmount nc) (debtAge nc))).
    { unfold allocateCase in Ha. rewrite Hc2 in Ha. cbv zeta in Ha.
      destruct (bestDCA _); [|discriminate]. injection Ha as <-.
      cbn [caseRegistry] in Hc3.
      rewrite !map_get_update, map_get_set in Hc3. cbn [option_map] in Hc3.
      now injection Hc3 as <-. }
    exists (shift st3), c3, best. cbn [allocatePendingCases shift allocationQueue].
    rewrite Hq3. cbn [tl caseRegistry].
    repeat split; assumption.
  - intro Hall. rewrite Hturn, (Hfull Hall).
    exists st2, pc. repeat split; try reflexivity; assumption.
Qed.

Lemma queue_after_intake_witness :
  exists st' c' agent,
    allocatePendingCases 2 coin 100 received = Finished st' /\
    allocationQueue st' = [] /\
    map_get "FDX-1001" (caseRegistry st') = Some c' /\
    status c' = ALLOCATED /\ allocatedDCA c' = Some agent.
Proof.
  destruct (queue_after_intake old_debt 0 initial
              (mkCase "FDX-1001" "Old Debt Co" 1000 200 RECEIVED None None None None
                 0 None None) coin 100 0) as [H _].
  - reflexivity.
  - reflexivity.
  - intros e He. vm_compute in He.
    destruct He as [<-|[<-|[<-|[<-|[]]]]]; discriminate.
  - intros e He. vm_compute in He.
    destruct He as [<-|[<-|[<-|[<-|[]]]]]; reflexivity.
  - intro k. discriminate.
  - destruct H as (st' & c' & agent & H1 & H2 & H3 & H4 & H5 & _).
    + exists ("DCA-004", mkWorkload 5 0 []). split; [|reflexivity].
      vm_compute. auto.
    + exists st', c', agent. auto.
Defined.


End InferenceExtras.

(** * Where one server does what the other misses *)

Module Siblings.

Import DcaProps DcaFacts DcaExamples DcaMoreFacts DcaExtras InferenceFacts.
Open Scope Q_scope.

(** *** The scores of the agents of [src/dca-api.js] are numbers *)

Lemma profiled_write f d : agent_write f -> profiled d -> profiled (f d).
Proof.
  intros Hf (d0 & H). exists d0. destruct Hf; exact H.
Qed.

Lemma profiled_update k f l :
  agent_write f ->
  Forall (fun e => profiled (snd e)) l ->
  Forall (fun e => profiled (snd e)) (map_update k f l).
Proof.
  intros Hf. induction 1 as [|[k' v] l Hv Hl IH]; simpl; [constructor|].
  simpl in Hv. destruct (String.eqb k k'); constructor; simpl; auto.
  now apply profiled_write.
Qed.

Lemma reachable_profiled st :
  DcaApi.reachable st -> Forall (fun e => profiled (snd e)) (DcaApi.dcaProfiles st).
Proof.
  intro Hr. apply reachable_evolves in Hr.
  induction Hr as [|l' k f _ IH Hf].
  - repeat constructor; eexists; (split; [|repeat split]); simpl; auto 6.
  - now apply profiled_update.
Qed.

(** The suitability score of an agent of the server is a number of
    magnitude at most 1. *)
Lemma profiled_score c d :
  profiled d -> (0 <= DcaApi.currentLoad d <= 5)%Z -> within 1 (DcaApi.dcaScore c d).
Proof.
  intros (d0 & Hin & Hr & Hs & Hg & Hc & Hcap) Hload.
  unfold DcaApi.dcaScore, DcaApi.specializationMatch, DcaApi.geoMatch,
    DcaApi.loadPenalty, DcaApi.complianceRisk.
  rewrite Hr, Hs, Hc, Hcap.
  assert (Hl : In (DcaApi.currentLoad d) [0; 1; 2; 3; 4; 5]%Z) by (simpl; lia).
  destruct (Priority_eqb (DcaApi.priority c) CRITICAL);
    destruct (String.eqb (DcaApi.dca_geoRegion d) (DcaApi.geoRegion c));
    simpl in Hin; destruct Hin as [<-|[<-|[<-|[<-|[]]]]];
    repeat (destruct Hl as [<-|Hl]; [vm_compute; discriminate|]);
    destruct Hl.
Qed.

(** With a recovery probability that is a number of magnitude at most 1,
    every agent of the server passes the first test of the loop. *)
Lemma numeric_scores st c q e :
  DcaApi.reachable st -> DcaApi.recoveryProbability c = Num q -> Qabs q <= 1 ->
  In e (DcaApi.dcaProfiles st) -> scores c (snd e).
Proof.
  intros Hr Hq Hb He.
  pose proof (reachable_profiled st Hr) as Hp. pose proof (load_bounds st Hr) as Hl.
  rewrite Forall_forall in Hp, Hl. specialize (Hp e He).
  destruct (Hl e He) as [Hload H5]. rewrite H5 in Hload.
  pose proof (profiled_score c (snd e) Hp Hload) as Hs.
  assert (Hpf : within 2 (DcaApi.priorityFactor (DcaApi.priority c))).
  { destruct (DcaApi.priority c); vm_compute; discriminate. }
  assert (Hrp : within 1 (DcaApi.recoveryProbability c)) by (rewrite Hq; exact Hb).
  pose proof (mul_within _ _ 1 1 Hrp Hs ltac:(discriminate)) as H1.
  pose proof (mul_within _ _ _ 2 H1 Hpf ltac:(discriminate)) as H2.
  unfold scores, DcaApi.finalScore.
  destruct (within_number _ _ H2) as [r ->]. reflexivity.
Qed.

(** With a recovery probability that is [NaN], every final score is. *)
Lemma nan_scores c d :
  DcaApi.recoveryProbability c = NaN -> DcaApi.finalScore c d = NaN.
Proof. intro H. unfold DcaApi.finalScore. rewrite H. reflexivity. Qed.

(** C1. [allocateCaseIntelligently] misses the case whose final scores are
    [NaN]. The ingestion of a request without its [debtAge] is accepted and
    stores a case with the recovery probability [NaN]; every final score is
    [NaN], no test [finalScore > bestScore] of the loop succeeds, and the
    case stays RECEIVED without an agent while the four agents have room;
    with its age of 10 days the same request is allocated to DCA-001. The
    same happens in every state for every case whose recovery probability is
    [NaN]. The intake of [src/unnamed/part_000] refuses a request without
    its amount and takes an absent age as 0.

    For a case whose recovery probability is a number of magnitude at most
    1, as [calculateRecoveryProbability] gives for an amount and an age that
    are numbers, the claim holds in every state of the server: when some
    agent has room, the case is allocated to an agent [best] with room such
    that no agent with room has a greater [finalScore], and every other
    agent with room and the same [finalScore] has a greater identifier; the
    decision stored on the case (agent, score, chosen agent with its final
    score) is the same for any other time and any other state with the same
    case and the same agent table. *)
Theorem allocation_misses_case_without_age :
  (exists c,
     DcaApi.ingest (Some fedex) ageless 0.5 0 DcaApi.initial
       = (DcaApi.Created ("FDX-1001"%string, Some c),
          DcaApi.ingest_registered "fedex@company.com" ageless 0.5 0 DcaApi.initial) /\
     DcaApi.recoveryProbability c = NaN /\
     DcaApi.status c = RECEIVED /\ DcaApi.allocatedDCA c = None /\
     DcaApi.dcaProfiles
       (DcaApi.ingest_registered "fedex@company.com" ageless 0.5 0 DcaApi.initial)
       = DcaApi.dcaProfiles0 /\
     Forall (fun e => eligible (snd e) /\ DcaApi.finalScore c (snd e) = NaN)
       DcaApi.dcaProfiles0) /\
  (exists c st',
     DcaApi.ingest (Some fedex) acme 0.5 0 DcaApi.initial
       = (DcaApi.Created ("FDX-1001"%string, Some c), st') /\
     DcaApi.status c = ALLOCATED /\
     DcaApi.allocatedDCA c = Some "DCA-001"%string) /\
  (forall id now st c,
     map_get id (DcaApi.caseRegistry st) = Some c ->
     DcaApi.recoveryProbability c = NaN ->
     DcaApi.allocateCaseIntelligently id now st = Some st) /\
  (forall tracking debtor age now st,
     InferenceApi.ingest (InferenceApi.mkIngestBody tracking debtor None age) now st
       = (None, st)) /\
  (exists c st',
     InferenceApi.ingest
       (InferenceApi.mkIngestBody (Some "TRK-1"%string) (Some "Old Debt Co"%string)
          (Some 1000) None) 0 InferenceApi.initial = (Some c, st') /\
     InferenceApi.debtAge c = 0) /\
  (forall id now st c q,
     DcaApi.reachable st ->
     map_get id (DcaApi.caseRegistry st) = Some c ->
     DcaApi.recoveryProbability c = Num q -> Qabs q <= 1 ->
     (exists e, In e (DcaApi.dcaProfiles st) /\ eligible (snd e)) ->
     exists key best st' c',
       DcaApi.allocateCaseIntelligently id now st = Some st' /\
       map_get id (DcaApi.caseRegistry st') = Some c' /\
       In (key, best) (DcaApi.dcaProfiles st) /\ eligible best /\
       decision c' =
         (Some (DcaApi.dcaId best),
          Some (Printed_of (DcaApi.finalScore c best) 4),
          Some (DcaApi.mkChosen (DcaApi.dcaId best)
                  (Number_of (Printed_of (DcaApi.finalScore c best) 6)))) /\
       (forall e, In e (DcaApi.dcaProfiles st) -> eligible (snd e) ->
          Js.gt (DcaApi.finalScore c (snd e)) (DcaApi.finalScore c best) = false /\
          (Js.same (DcaApi.finalScore c (snd e)) (DcaApi.finalScore c best) ->
           e = (key, best) \/
           String.ltb (DcaApi.dcaId best) (DcaApi.dcaId (snd e)) = true)) /\
       (forall now2 st2,
          map_get id (DcaApi.caseRegistry st2) = Some c ->
          DcaApi.dcaProfiles st2 = DcaApi.dcaProfiles st ->
          exists st2' c2',
            DcaApi.allocateCaseIntelligently id now2 st2 = Some st2' /\
            map_get id (DcaApi.caseRegistry st2') = Some c2' /\
            decision c2' = decision c')).
Proof.
  split; [|split; [|split; [|split; [|split]]]].
  - eexists. split; [vm_compute; reflexivity|].
    split; [vm_compute; reflexivity|]. split; [reflexivity|].
    split; [reflexivity|]. split; [reflexivity|].
    repeat constructor; vm_compute; reflexivity.
  - eexists _, _. split; [vm_compute; reflexivity|]. split; reflexivity.
  - intros id now st c Hc Hn. apply (allocate_not_found id now st c Hc).
    apply scan_none. intros e _ _. unfold scores.
    now rewrite (nan_scores c (snd e) Hn).
  - intros tracking debtor age now st. unfold InferenceApi.ingest.
    cbn [InferenceApi.body_trackingNumber InferenceApi.body_debtor
         InferenceApi.body_debtAmount].
    destruct tracking; [destruct debtor|]; reflexivity.
  - eexists _, _. split; reflexivity.
  - intros id now st c q Hr Hc Hq Hb [e0 [Hin0 He0]].
    destruct (DcaApi.bestDCA (DcaApi.scan c (DcaApi.dcaProfiles st)))
      as [[key best]|] eqn:Hbest.
    2:{ exfalso. rewrite scan_none in Hbest.
        exact (Hbest e0 Hin0 He0 (numeric_scores st c q e0 Hr Hq Hb Hin0)). }
    pose proof (scan_scanned c _ (reachable_ascending st Hr)) as Hsc.
    unfold scanned in Hsc. rewrite Hbest in Hsc. cbn [snd] in Hsc.
    destruct Hsc as (Hin & Hel & _ & _ & Hall).
    eexists key, best, _, _.
    split; [exact (allocate_found id now st c key best Hc Hbest)|].
    cbn [DcaApi.caseRegistry]. rewrite map_get_update, Hc. cbn [option_map].
    split; [reflexivity|]. split; [exact Hin|]. split; [exact Hel|].
    split; [reflexivity|]. split; [exact Hall|].
    intros now2 st2 Hc2 Hd.
    assert (Hb2 : DcaApi.bestDCA (DcaApi.scan c (DcaApi.dcaProfiles st2))
                  = Some (key, best)) by now rewrite Hd.
    eexists _, _.
    split; [exact (allocate_found id now2 st2 c key best Hc2 Hb2)|].
    cbn [DcaApi.caseRegistry]. rewrite map_get_update, Hc2. cbn [option_map].
    rewrite Hd. split; reflexivity.
Qed.

(** *** The loads of [src/unnamed/part_000] *)

Lemma ingest_workload b now st :
  InferenceApi.dcaWorkload (snd (InferenceApi.ingest b now st))
  = InferenceApi.dcaWorkload st.
Proof.
  unfold InferenceApi.ingest.
  destruct (InferenceApi.body_trackingNumber b); [|reflexivity].
  destruct (InferenceApi.body_debtor b); [|reflexivity].
  destruct (InferenceApi.body_debtAmount b); [|reflexivity].
  destruct (_ || _); reflexivity.
Qed.

Lemma prioritizeCase_workload id rnd now st st' :
  InferenceApi.prioritizeCase id rnd now st = Some st' ->
  InferenceApi.dcaWorkload st' = InferenceApi.dcaWorkload st.
Proof.
  unfold InferenceApi.prioritizeCase.
  destruct (map_get id (InferenceApi.caseRegistry st)); [|discriminate].
  now intros [= <-].
Qed.

(** A run of the timer that ends leaves every load as far ahead of its list
    as it was. *)
Lemma allocatePendingCases_surpluses fuel :
  forall random now st st',
    InferenceMore.allocatePendingCases fuel random now st = InferenceMore.Finished st' ->
    InferenceProps.surpluses (InferenceApi.dcaWorkload st')
    = InferenceProps.surpluses (InferenceApi.dcaWorkload st).
Proof.
  induction fuel as [|fuel IH]; intros random now st st'; [discriminate|].
  cbn [InferenceMore.allocatePendingCases].
  destruct (InferenceApi.allocationQueue st) as [|id rest]; [now intros [= <-]|].
  destruct (map_get id (InferenceApi.caseRegistry st)) as [c|].
  2:{ intro H. now rewrite (IH _ _ _ _ H). }
  destruct (Status_eqb (InferenceApi.status c) RECEIVED).
  - destruct (InferenceApi.prioritizeCase id (random 0%nat) now st) as [st1|] eqn:Hp;
      [|discriminate].
    apply prioritizeCase_workload in Hp.
    destruct (map_get id (InferenceApi.caseRegistry st1)) as [c1|]; [|discriminate].
    destruct (Status_eqb (InferenceApi.status c1) PRIORITIZED).
    + destruct (InferenceApi.allocateCase id _ now st1) as [[[|] st2]|] eqn:Ha;
        [| |discriminate].
      * intro H. rewrite (IH _ _ _ _ H). cbn [InferenceMore.shift InferenceApi.dcaWorkload].
        rewrite (allocateCase_surpluses _ _ _ _ _ _ Ha). now rewrite Hp.
      * intros [= <-]. rewrite (allocateCase_surpluses _ _ _ _ _ _ Ha). now rewrite Hp.
    + intro H. rewrite (IH _ _ _ _ H). now rewrite Hp.
  - destruct (map_get id (InferenceApi.caseRegistry st)) as [c1|]; [|discriminate].
    destruct (Status_eqb (InferenceApi.status c1) PRIORITIZED).
    + destruct (InferenceApi.allocateCase id random now st) as [[[|] st2]|] eqn:Ha;
        [| |discriminate].
      * intro H. rewrite (IH _ _ _ _ H). cbn [InferenceMore.shift InferenceApi.dcaWorkload].
        exact (allocateCase_surpluses _ _ _ _ _ _ Ha).
      * intros [= <-]. exact (allocateCase_surpluses _ _ _ _ _ _ Ha).
    + intro H. exact (IH _ _ _ _ H).
Qed.

Lemma step_surpluses st st' :
  InferenceMore.step st st' ->
  InferenceProps.surpluses (InferenceApi.dcaWorkload st')
  = InferenceProps.surpluses (InferenceApi.dcaWorkload st).
Proof.
  intros [b now|fuel random now st'' H|id agent now].
  - now rewrite ingest_workload.
  - exact (allocatePendingCases_surpluses _ _ _ _ _ H).
  - apply manualAllocate_surpluses.
Qed.

Lemma reachable_surpluses st :
  InferenceMore.reachable st ->
  InferenceProps.surpluses (InferenceApi.dcaWorkload st)
  = InferenceProps.surpluses InferenceApi.dcaWorkload0.
Proof.
  induction 1 as [|st st' _ IH Hs]; [reflexivity|].
  now rewrite (step_surpluses _ _ Hs).
Qed.

(** C9. [src/unnamed/part_000] starts with the loads 2, 1, 3 and 0 and with
    empty lists of cases. The intake, a run of the timer that ends and the
    manual allocation change the load and the list of an agent together,
    so every load stays as far ahead of its list as it was: in every state
    of the server DCA-001 has two more in its load than in its list, DCA-002
    one and DCA-003 three, before and after every allocation and manual
    allocation. So it is after the intake of a case and its manual
    allocation to DCA-004. In [src/dca-api.js], which starts with the loads
    0, the load of every agent is the length of its list in every state. *)
Theorem seeded_loads_exceed_lists :
  (forall st, InferenceMore.reachable st ->
     InferenceProps.surpluses (InferenceApi.dcaWorkload st)
       = [("DCA-001", 2); ("DCA-002", 1); ("DCA-003", 3); ("DCA-004", 0)]%Z /\
     ~ Forall (fun e => InferenceProps.load_matches (snd e))
         (InferenceApi.dcaWorkload st)) /\
  (forall st st', InferenceMore.step st st' ->
     InferenceProps.surpluses (InferenceApi.dcaWorkload st')
       = InferenceProps.surpluses (InferenceApi.dcaWorkload st)) /\
  (InferenceMore.reachable InferenceExamples.received /\
   InferenceMore.reachable InferenceExamples.allocated_by_hand /\
   InferenceApi.dcaWorkload InferenceExamples.received =
     [ ("DCA-001", InferenceApi.mkWorkload 5 2 []);
       ("DCA-002", InferenceApi.mkWorkload 5 1 []);
       ("DCA-003", InferenceApi.mkWorkload 5 3 []);
       ("DCA-004", InferenceApi.mkWorkload 5 0 []) ] /\
   InferenceApi.dcaWorkload InferenceExamples.allocated_by_hand =
     [ ("DCA-001", InferenceApi.mkWorkload 5 2 []);
       ("DCA-002", InferenceApi.mkWorkload 5 1 []);
       ("DCA-003", InferenceApi.mkWorkload 5 3 []);
       ("DCA-004", InferenceApi.mkWorkload 5 1 ["FDX-1001"]) ]) /\
  (forall st, DcaApi.reachable st ->
     Forall (fun e => DcaProps.load_matches (snd e)) (DcaApi.dcaProfiles st)).
Proof.
  split; [|split; [exact step_surpluses|split; [|exact DcaClaims.reachable_load_matches]]].
  - intros st Hr. pose proof (reachable_surpluses st Hr) as Hs.
    split; [exact Hs|]. intro Hall.
    destruct (InferenceApi.dcaWorkload st) as [|[k w] t]; [discriminate Hs|].
    inversion Hall as [|? ? Hw _]; subst. cbn [snd] in Hw.
    unfold InferenceProps.surpluses in Hs. cbn [map fst snd] in Hs.
    injection Hs as _ Hs _. unfold InferenceProps.surplus in Hs.
    unfold InferenceProps.load_matches in Hw. simpl in Hs. lia.
  - assert (H1 : InferenceMore.reachable InferenceExamples.received).
    { apply (InferenceMore.reachable_next InferenceApi.initial);
        [constructor|apply InferenceMore.step_intake]. }
    split; [exact H1|]. split; [|split; reflexivity].
    apply (InferenceMore.reachable_next InferenceExamples.received);
      [exact H1|apply InferenceMore.step_manual].
Qed.

End Siblings.
